(** * semver-intersect: the intersection of semver ranges

    A shallow embedding of [semver-intersect.js] (the variant with unions of
    ranges, [expandRanges] returning one disjunctive normal form per
    argument) and of the older [parseRange] that normalises prerelease tags,
    with the functions around it ([checkPrereleaseVersions], [mergeBounds],
    [union], [expandRanges]) and the first [ensureCompatible].

    JavaScript strings are modelled by [string] (code units below 256),
    arrays by [list], [undefined]/[null] by [None], thrown values by [exn]
    inside the result type [outcome].  The [semver] package is a
    collaborator of the program and not part of it: it is the class
    [Semver], over which the program is parameterised.  [NodeSemver] is a
    reference instance of it, against which the concrete runs are
    evaluated. *)

From Stdlib Require Import String Ascii List Bool NArith Arith Lia Permutation.
From Stdlib Require Import DecimalString DecimalN.
Import ListNotations.
Open Scope string_scope.


(* ===================================================================== *)
(** ** Thrown values and results *)

(** What the program can throw: [new Error(message)], a [TypeError] raised
    by the runtime (reading a property of [null]) or by the collaborator,
    and [undefined] ([throw error] with [error] never assigned). *)
Inductive exn : Type :=
| Error (message : string)
| TypeError
| ThrownUndefined.

Inductive outcome (A : Type) : Type :=
| Ret (a : A)
| Throw (e : exn).

Arguments Ret {A} a.
Arguments Throw {A} e.

Definition bind {A B : Type} (m : outcome A) (k : A -> outcome B) : outcome B :=
  match m with
  | Ret a => k a
  | Throw e => Throw e
  end.

Notation "x <- m ;; k" := (bind m (fun x => k))
  (at level 61, m at next level, right associativity).
Notation "m ;;; k" := (bind m (fun _ => k))
  (at level 61, right associativity).

(** [array.reduce(f, init)] when [f] can throw: left to right, stopping at
    the first exception. *)
Fixpoint reduceM {A B : Type} (f : B -> A -> outcome B) (l : list A) (acc : B)
  : outcome B :=
  match l with
  | [] => Ret acc
  | x :: l' => acc' <- f acc x ;; reduceM f l' acc'
  end.

(** [array.map(f)] when [f] can throw. *)
Fixpoint mapM {A B : Type} (f : A -> outcome B) (l : list A) : outcome (list B) :=
  match l with
  | [] => Ret []
  | x :: l' => y <- f x ;; ys <- mapM f l' ;; Ret (y :: ys)
  end.

(** [array.forEach(f)] when [f] can throw. *)
Fixpoint forEachM {A : Type} (f : A -> outcome unit) (l : list A) : outcome unit :=
  match l with
  | [] => Ret tt
  | x :: l' => f x ;;; forEachM f l'
  end.

(* ===================================================================== *)
(** ** Strings *)

Module JS.

(** Character classes of the regular expressions. *)
Definition code (c : ascii) : N := N_of_ascii c.

Definition isDigit (c : ascii) : bool :=
  ((48 <=? code c) && (code c <=? 57))%N.

(** [\w] is [[A-Za-z0-9_]]. *)
Definition isWord (c : ascii) : bool :=
  (isDigit c
   || ((65 <=? code c) && (code c <=? 90))
   || ((97 <=? code c) && (code c <=? 122))
   || (code c =? 95))%N.

(** [[\w.]] *)
Definition isWordDot (c : ascii) : bool := isWord c || (code c =? 46)%N.

(** [[<=>]] *)
Definition isCond (c : ascii) : bool :=
  ((code c =? 60) || (code c =? 61) || (code c =? 62))%N.

(** [\s] on code units below 256: TAB, LF, VT, FF, CR, space and NBSP. *)
Definition isSpace (c : ascii) : bool :=
  (((9 <=? code c) && (code c <=? 13)) || (code c =? 32) || (code c =? 160))%N.

(** The longest prefix of characters in a class, and what follows it. *)
Fixpoint span (p : ascii -> bool) (s : string) : string * string :=
  match s with
  | "" => ("", "")
  | String c s' =>
      if p c then let (a, b) := span p s' in (String c a, b) else ("", s)
  end.

Fixpoint all (p : ascii -> bool) (s : string) : bool :=
  match s with
  | "" => true
  | String c s' => p c && all p s'
  end.

(** [s.startsWith(p)] *)
Fixpoint startsWith (p s : string) : bool :=
  match p with
  | "" => true
  | String a p' =>
      match s with
      | "" => false
      | String b s' => (a =? b)%char && startsWith p' s'
      end
  end.

(** [s.includes(p)] *)
Fixpoint includes (p s : string) : bool :=
  startsWith p s ||
  match s with
  | "" => false
  | String _ s' => includes p s'
  end.

Fixpoint endsWith (p s : string) : bool :=
  (s =? p) ||
  match s with
  | "" => false
  | String _ s' => endsWith p s'
  end.

Fixpoint trimStart (s : string) : string :=
  match s with
  | "" => ""
  | String c s' => if isSpace c then trimStart s' else s
  end.

Fixpoint trimEnd (s : string) : string :=
  match s with
  | "" => ""
  | String c s' =>
      match trimEnd s' with
      | "" => if isSpace c then "" else String c ""
      | t => String c t
      end
  end.

(** [s.trim()] *)
Definition trim (s : string) : string := trimEnd (trimStart s).

(** [array.join(sep)] *)
Definition join (sep : string) (l : list string) : string := String.concat sep l.

(** Puts a character in front of the first piece of a split. *)
Definition consHead (c : ascii) (l : list string) : list string :=
  match l with
  | [] => [String c ""]
  | h :: t => String c h :: t
  end.

(** [s.split(/\|\|/)] *)
Fixpoint splitOr (s : string) : list string :=
  match s with
  | "" => [""]
  | String c s' =>
      match s' with
      | String c' s'' =>
          if ((code c =? 124) && (code c' =? 124))%N
          then "" :: splitOr s''
          else consHead c (splitOr s')
      | "" => consHead c (splitOr s')
      end
  end.

(** [s.split(/\s+/)]: [inSep] holds while a run of white space is being
    skipped. *)
Fixpoint splitSpaceFrom (inSep : bool) (s : string) : list string :=
  match s with
  | "" => [""]
  | String c s' =>
      if isSpace c
      then if inSep then splitSpaceFrom true s' else "" :: splitSpaceFrom true s'
      else consHead c (splitSpaceFrom false s')
  end.

Definition splitSpace (s : string) : list string := splitSpaceFrom false s.

End JS.

(* ===================================================================== *)
(** ** The regular expressions of the program *)

Module Regex.
Import JS.

(** [\d+]: the digits matched and the rest, if there is at least one. *)
Definition digits (s : string) : option (string * string) :=
  match span isDigit s with
  | ("", _) => None
  | (d, r) => Some (d, r)
  end.

Definition dot (s : string) : option string :=
  match s with
  | String c r => if (code c =? 46)%N then Some r else None
  | "" => None
  end.

(** [[\d]+\.[\d]+\.[\d]+] at the start of [s]: the text matched and the
    rest. *)
Definition core (s : string) : option (string * string) :=
  match digits s with
  | None => None
  | Some (a, r1) =>
      match dot r1 with
      | None => None
      | Some r2 =>
          match digits r2 with
          | None => None
          | Some (b, r3) =>
              match dot r3 with
              | None => None
              | Some r4 =>
                  match digits r4 with
                  | None => None
                  | Some (c, r5) => Some (a ++ "." ++ b ++ "." ++ c, r5)
                  end
              end
          end
      end
  end.

(** [(?:-[\w.]+)?] at the start of [s]: the text matched (possibly empty)
    and the rest. *)
Definition tag (s : string) : string * string :=
  match s with
  | String c r =>
      if (code c =? 45)%N
      then match span isWordDot r with
           | ("", _) => ("", s)
           | (t, r') => (String c t, r')
           end
      else ("", s)
  | "" => ("", "")
  end.

(** Does the whole of [s] match [[\d]+\.[\d]+\.[\d]+(?:-[\w.]+)?] ? *)
Definition wholeVersion (s : string) : bool :=
  match core s with
  | None => false
  | Some (_, r) =>
      match tag r with
      | (_, "") => true
      | _ => false
      end
  end.

(** [regex.version.exec(s)]: [/([\d]+\.[\d]+\.[\d]+(?:-[\w.]+)?)$/].  The
    expression is anchored at the end only, so the match is the leftmost
    suffix of [s] that matches as a whole. *)
Fixpoint version (s : string) : option string :=
  if wholeVersion s then Some s
  else match s with
       | "" => None
       | String _ s' => version s'
       end.

(** [regex.condition.exec(s)[1]]: [/^([<=>]+)?/] always matches; its group
    is [undefined] when [s] has no leading operator character. *)
Definition condition (s : string) : option string :=
  match span isCond s with
  | ("", _) => None
  | (c, _) => Some c
  end.

(** [regex.minMax.exec(s)]:
    [/^>=([\d]+\.[\d]+\.[\d]+(?:-[\w.]+)?) <=?([\d]+\.[\d]+\.[\d]+)$/],
    the two groups. *)
Definition minMax (s : string) : option (string * string) :=
  match s with
  | String c1 (String c2 r0) =>
      if ((code c1 =? 62) && (code c2 =? 61))%N then
        match core r0 with
        | None => None
        | Some (v, r1) =>
            let (t, r2) := tag r1 in
            match r2 with
            | String c3 (String c4 r3) =>
                if ((code c3 =? 32) && (code c4 =? 60))%N then
                  let r4 := match r3 with
                            | String c5 r' => if (code c5 =? 61)%N then r' else r3
                            | "" => r3
                            end in
                  match core r4 with
                  | Some (w, "") => Some (v ++ t, w)
                  | _ => None
                  end
                else None
            | _ => None
            end
        end
      else None
  | _ => None
  end.

(** [regex.x.exec(s)] is not [null]: [/^x|X|\*$/] is an alternation of
    three branches, [^x], [X] and [\*$]. *)
Definition x (s : string) : bool :=
  startsWith "x" s || includes "X" s || endsWith "*" s.

End Regex.

(* ===================================================================== *)
(** ** The collaborator: the [semver] package *)

Module semver.

(** The operations of [semver] the program calls.  [validRange] and
    [prerelease] answer [null] ([None]) on malformed input; the others
    build version or range objects and may throw.  [compare] is the
    ordering of versions behind [semver.lt], [semver.gt] and [semver.eq]. *)
Class API : Type := {
  validRange : string -> option string;
  satisfies : string -> string -> outcome bool;
  intersects : string -> string -> outcome bool;
  compare : string -> string -> outcome comparison;
  major : string -> outcome N;
  minor : string -> outcome N;
  patch : string -> outcome N;
  prerelease : string -> option (list string)
}.

Definition lt {sv : API} (a b : string) : outcome bool :=
  c <- compare a b ;; Ret (match c with Lt => true | _ => false end).

Definition gt {sv : API} (a b : string) : outcome bool :=
  c <- compare a b ;; Ret (match c with Gt => true | _ => false end).

Definition eq {sv : API} (a b : string) : outcome bool :=
  c <- compare a b ;; Ret (match c with Eq => true | _ => false end).

End semver.

(* ===================================================================== *)
(** ** The program *)

(** The object [parseRange] returns. *)
Record Parsed : Type := mkParsed {
  condition : string;
  prerelease : option (list string);
  version : string
}.

(** [{ lowerBound, upperBound }]; a missing property is [None]. *)
Record Bounds : Type := mkBounds {
  lowerBound : option string;
  upperBound : option string
}.

(** The object [{}]. *)
Definition noBounds : Bounds := mkBounds None None.

(** [!bound]: [undefined] and the empty string are falsy. *)
Definition falsy (bound : option string) : bool :=
  match bound with
  | None => true
  | Some s => s =? ""
  end.

(** [a && b], where [b] is evaluated only when [a] holds. *)
Definition andM (a b : outcome bool) : outcome bool :=
  x <- a ;; if x then b else Ret false.

(** [x ?? y] on a value that may be [undefined]. *)
Definition nullish {A : Type} (x : option A) (y : A) : option A :=
  match x with
  | Some v => Some v
  | None => Some y
  end.

(** [distinct(a)] is [[...new Set(a)]]: a set keeps its elements in the
    order of their first insertion. *)
Definition setAdd (acc : list string) (v : string) : list string :=
  if existsb (String.eqb v) acc then acc else (acc ++ [v])%list.

Definition distinct (a : list string) : list string := fold_left setAdd a [].

(** [allPairs(arr1, arr2)]: [forEach] pushes the pairs of [cur] onto [acc]. *)
Definition allPairs {A B : Type} (arr1 : list A) (arr2 : list B) : list (A * B) :=
  fold_left (fun acc cur => fold_left (fun acc' y => (acc' ++ [(cur, y)])%list) arr2 acc)
    arr1 [].

Definition coerceRange (range : string) : string :=
  if Regex.x range then ">=0.0.0" else range.

Definition formatIntersection (b : Bounds) : string :=
  let lowerBound := match lowerBound b with Some s => s | None => "" end in
  let upperBound := match upperBound b with Some s => s | None => "" end in
  if lowerBound =? upperBound then lowerBound
  else JS.trim (lowerBound ++ " " ++ upperBound).

Definition incompatible (range bound : string) : exn :=
  Error ("Range " ++ range ++ " is not compatible with " ++ bound).

Section Program.
Context {sv : semver.API}.

Definition parseRange (range : string) : outcome Parsed :=
  let condition := match Regex.condition range with
                   | Some c => c
                   | None => "="
                   end in
  match Regex.version range with
  | None => Throw TypeError
  | Some version =>
      let prerelease := semver.prerelease version in
      Ret (mkParsed condition prerelease version)
  end.

Definition createShorthand (range : string) : outcome string :=
  match Regex.minMax range with
  | None => Ret range
  | Some (min, max) =>
      if min =? max then Ret min
      else if JS.includes "<=" range then Ret (min ++ " - " ++ max)
      else
        zeroMajor <- andM (a <- semver.major min ;; Ret (a =? 0)%N)
                          (b <- semver.major max ;; Ret (b =? 0)%N) ;;
        if zeroMajor then
          zeroMinor <- andM (a <- semver.minor min ;; Ret (a =? 0)%N)
                            (b <- semver.minor max ;; Ret (b =? 0)%N) ;;
          if zeroMinor then Ret ("^" ++ min)
          else
            a <- semver.minor min ;;
            if (a =? 0)%N then Ret ("~" ++ min) else Ret ("^" ++ min)
        else
          a <- semver.major min ;;
          b <- semver.major max ;;
          if negb (a =? b)%N then
            a' <- semver.major min ;;
            if (a' =? 0)%N then Ret "0" else Ret ("^" ++ min)
          else Ret ("~" ++ min)
  end.

(** The body of the [forEach] of [ensureCompatible]. *)
Definition checkBound (range : string) (p : Parsed) (bound : option string)
  : outcome unit :=
  match bound with
  | None => Ret tt
  | Some b =>
      if b =? "" then Ret tt
      else
        ok <- andM (semver.satisfies (version p) b) (semver.intersects range b) ;;
        if ok then Ret tt
        else
          match prerelease p with
          | Some _ =>
              pb <- parseRange b ;;
              match prerelease pb with
              | Some _ =>
                  pb' <- parseRange b ;;
                  s <- semver.satisfies (version pb') range ;;
                  if s then Ret tt else Throw (incompatible range b)
              | None =>
                  s <- semver.satisfies (version p) (range ++ " " ++ b) ;;
                  if s then Ret tt else Throw (incompatible range b)
              end
          | None => Throw (incompatible range b)
          end
  end.

Definition ensureCompatible (range : string) (bounds : list (option string))
  : outcome unit :=
  p <- parseRange range ;;
  forEachM (checkBound range p) bounds.

Definition expandRange (range : string) : outcome (list (list string)) :=
  match semver.validRange range with
  | None => Throw TypeError
  | Some validRange =>
      Ret (map (fun part => distinct (map coerceRange (JS.splitSpace part)))
               (JS.splitOr validRange))
  end.

Definition expandRanges (ranges : list string) : outcome (list (list (list string))) :=
  mapM expandRange ranges.

Definition mergeBounds (range : string) (bound : option string) : outcome string :=
  match bound with
  | None => Ret range
  | Some b =>
      if b =? "" then Ret range
      else
        p <- parseRange range ;;
        pb <- parseRange b ;;
        let boundingVersion := version pb in
        let comparator := if JS.startsWith "<" (condition p)
                          then semver.lt else semver.gt in
        let strict := (condition p =? "<") || (condition p =? ">") in
        tighter <- comparator (version p) boundingVersion ;;
        if tighter then Ret range
        else
          tie <- andM (Ret strict) (semver.eq (version p) boundingVersion) ;;
          if tie then Ret range else Ret b
  end.

Definition updateBounds (bounds : Bounds) (range : string) : outcome Bounds :=
  p <- parseRange range ;;
  (match prerelease p with
   | Some _ => ensureCompatible range [lowerBound bounds; upperBound bounds]
   | None => Ret tt
   end) ;;;
  b1 <- (if condition p =? "="
         then ensureCompatible range [lowerBound bounds; upperBound bounds] ;;;
              Ret (mkBounds (Some (">=" ++ range)) (Some ("<=" ++ range)))
         else Ret bounds) ;;
  b2 <- (if JS.startsWith ">" (condition p)
         then ensureCompatible range [upperBound b1] ;;;
              l <- mergeBounds range (lowerBound b1) ;;
              Ret (mkBounds (Some l) (upperBound b1))
         else Ret b1) ;;
  if JS.startsWith "<" (condition p)
  then ensureCompatible range [lowerBound b2] ;;;
       u <- mergeBounds range (upperBound b2) ;;
       Ret (mkBounds (lowerBound b2) (Some u))
  else Ret b2.

End Program.

Section Engine.
Context {sv : semver.API}.

(** The callback of [.map] in [intersect]: one pair is folded inside
    [try]/[catch]; [error] is the variable of the enclosing function, so it
    is passed in and out. *)
Definition tryPair (error : option exn) (boundAndRanges : Bounds * list string)
  : option exn * option Bounds :=
  let (bound, ranges) := boundAndRanges in
  match reduceM updateBounds ranges bound with
  | Ret b => (error, Some b)
  | Throw e => (nullish error e, None)
  end.

Fixpoint mapPairs (error : option exn) (pairs : list (Bounds * list string))
  : option exn * list (option Bounds) :=
  match pairs with
  | [] => (error, [])
  | boundAndRanges :: rest =>
      let (error1, r) := tryPair error boundAndRanges in
      let (error2, rs) := mapPairs error1 rest in
      (error2, r :: rs)
  end.

(** [.filter(Boolean)] *)
Fixpoint filterBoolean (l : list (option Bounds)) : list Bounds :=
  match l with
  | [] => []
  | Some b :: l' => b :: filterBoolean l'
  | None :: l' => filterBoolean l'
  end.

(** [throw error] *)
Definition throwError {A : Type} (error : option exn) : outcome A :=
  match error with
  | Some e => Throw e
  | None => Throw ThrownUndefined
  end.

(** The callback of [rangeUnions.reduce]. *)
Definition intersectStep (boundsUnion : list Bounds) (rangeUnion : list (list string))
  : outcome (list Bounds) :=
  let (error, mapped) := mapPairs None (allPairs boundsUnion rangeUnion) in
  let intermediateBounds := filterBoolean mapped in
  match intermediateBounds with
  | [] => throwError error
  | _ :: _ => Ret intermediateBounds
  end.

(** [rangeUnions.reduce(..., [{}])] *)
Definition intersectUnions (rangeUnions : list (list (list string)))
  : outcome (list Bounds) :=
  reduceM intersectStep rangeUnions [noBounds].

Definition intersect (ranges : list string) : outcome string :=
  rangeUnions <- expandRanges ranges ;;
  resultUnion <- intersectUnions rangeUnions ;;
  shorthands <- mapM (fun bound => createShorthand (formatIntersection bound))
                     resultUnion ;;
  Ret (JS.join " || " shorthands).

End Engine.

(* ===================================================================== *)
(** ** The older [parseRange], which splits a prerelease tag *)

Module Legacy.

(** [regex.prerelease.exec(s)]: [/([^\d]+)([\d]+)?/], the two groups; the
    second is [undefined] when no digit follows the first. *)
Fixpoint prereleaseRegex (s : string) : option (string * option string) :=
  match s with
  | "" => None
  | String c s' =>
      if JS.isDigit c then prereleaseRegex s'
      else
        let (letters, r) := JS.span (fun c => negb (JS.isDigit c)) s in
        match JS.span JS.isDigit r with
        | ("", _) => Some (letters, None)
        | (d, _) => Some (letters, Some d)
        end
  end.

Record Parsed : Type := mkParsed {
  condition : string;
  major : N;
  minor : N;
  patch : N;
  prerelease : option (list (option string));
  version : string
}.

Section Program.
Context {sv : semver.API}.

Definition parseRange (range : string) : outcome Parsed :=
  let condition := match Regex.condition range with
                   | Some c => c
                   | None => "="
                   end in
  match Regex.version range with
  | None => Throw TypeError
  | Some version =>
      major <- semver.major version ;;
      minor <- semver.minor version ;;
      patch <- semver.patch version ;;
      prerelease <-
        match semver.prerelease version with
        | Some [tag] =>
            (* Normalize prerelease tags such as -rc4 with -rc.4 *)
            match prereleaseRegex tag with
            | None => Throw TypeError
            | Some (letters, digits) => Ret (Some [Some letters; digits])
            end
        | Some ids => Ret (Some (map Some ids))
        | None => Ret None
        end ;;
      Ret (mkParsed condition major minor patch prerelease version)
  end.

(** [ids[0]], [undefined] past the end of the array. *)
Definition first (ids : list (option string)) : option string :=
  match ids with
  | id :: _ => id
  | [] => None
  end.

(** [a !== b] on prerelease identifiers; a numeric identifier is held as
    its decimal text. *)
Definition differ (a b : option string) : bool :=
  match a, b with
  | Some x, Some y => negb (x =? y)
  | None, None => false
  | _, _ => true
  end.

Definition prereleaseMismatch (range bound : string) : exn :=
  Error ("Prerelease version " ++ range ++ " is not compatible with " ++ bound).

(** Prerelease versions must have the same major, minor, patch and first
    prerelease identifier. *)
Definition checkPrereleaseVersions (range bound : string) : outcome unit :=
  parsedRange <- parseRange range ;;
  parsedBound <- parseRange bound ;;
  match prerelease parsedRange, prerelease parsedBound with
  | Some idsRange, Some idsBound =>
      if negb (major parsedRange =? major parsedBound)%N
         || negb (minor parsedRange =? minor parsedBound)%N
         || negb (patch parsedRange =? patch parsedBound)%N
         || differ (first idsRange) (first idsBound)
      then Throw (prereleaseMismatch range bound)
      else Ret tt
  | _, _ => Ret tt
  end.

(** The [mergeBounds] of that variant: the prerelease check comes first. *)
Definition mergeBounds (range : string) (bound : option string) : outcome string :=
  match bound with
  | None => Ret range
  | Some b =>
      if b =? "" then Ret range
      else
        checkPrereleaseVersions range b ;;;
        p <- parseRange range ;;
        pb <- parseRange b ;;
        let boundingVersion := version pb in
        let comparator := if JS.startsWith "<" (condition p)
                          then semver.lt else semver.gt in
        let strict := (condition p =? "<") || (condition p =? ">") in
        tighter <- comparator (version p) boundingVersion ;;
        if tighter then Ret range
        else
          tie <- andM (Ret strict) (semver.eq (version p) boundingVersion) ;;
          if tie then Ret range else Ret b
  end.

(** [union(a, b)]: the values of [b] that the result does not hold yet
    ([result.indexOf(value) === -1]) are pushed onto it, and the result is
    the array [a] itself. *)
Definition union (a b : list string) : list string :=
  fold_left (fun result value =>
               if existsb (String.eqb value) result then result
               else (result ++ [value])%list) b a.

(** The [expandRanges] of that variant: one flat array of comparators for
    all arguments. *)
Definition expandRanges (ranges : list string) : outcome (list string) :=
  reduceM (fun result range =>
             match semver.validRange range with
             | None => Throw TypeError
             | Some validRange => Ret (union result (JS.splitSpace validRange))
             end) ranges [].

End Program.
End Legacy.

(* ===================================================================== *)
(** ** The first variant of [ensureCompatible] *)

Module Original.

(** The object its [parseRange] returns: no prerelease. *)
Record Parsed : Type := mkParsed {
  condition : string;
  version : string
}.

Section Program.
Context {sv : semver.API}.

Definition parseRange (range : string) : outcome Parsed :=
  let condition := match Regex.condition range with
                   | Some c => c
                   | None => "="
                   end in
  match Regex.version range with
  | None => Throw TypeError
  | Some version => Ret (mkParsed condition version)
  end.

(** [bound && !semver.satisfies(version, bound)] is the only check. *)
Definition ensureCompatible (range : string) (bounds : list (option string))
  : outcome unit :=
  p <- parseRange range ;;
  forEachM (fun bound =>
              match bound with
              | None => Ret tt
              | Some b =>
                  if b =? "" then Ret tt
                  else
                    s <- semver.satisfies (version p) b ;;
                    if s then Ret tt else Throw (incompatible range b)
              end) bounds.

End Program.
End Original.

(* ===================================================================== *)
(** ** A reference instance of the collaborator *)

Module NodeSemver.
Import JS.

(** Modelled from the spec: the [semver] package (the version-comparison
    collaborator of spec section 6) is not under src/.  This instance
    follows the behaviour of the package (the releases that print the
    upper bound of [^4.0.0] as [<5.0.0], as the tests of the program
    expect) on versions [M.m.p] and [M.m.p-pre] and on ranges made of
    alternatives separated by [||], each a hyphen range [A - B] or a list
    of comparators separated by blanks; a comparator is a partial version
    ([1], [1.2], [1.2.3], [1.2.3-pre], with [x], [X] or [*] for a number)
    after a caret, a tilde, one of [<], [<=], [>], [>=], [=] or nothing,
    with or without blanks between the two; a version in a range may
    carry a leading [v] and build metadata ([+build]), which are dropped.
    [validRange] prints a range in canonical form: comparators
    [op M.m.p[-pre]] with [op] one of [<], [<=], [>], [>=] or none.  The
    loose mode, the limits on the size of numbers and on the length of a
    version, and a leading [v] or build metadata on a version outside a
    range are not part of the instance. *)
Inductive identifier : Type :=
| Numeric (n : N)
| Alphanumeric (s : string).

Record SemVer : Type := mkSemVer {
  major : N;
  minor : N;
  patch : N;
  pre : list identifier
}.

Inductive operator : Type := OpNone | OpLt | OpGt | OpLe | OpGe.

Record Comparator : Type := mkComparator {
  op : operator;
  semver : SemVer
}.

(** [+s], the number a string of digits denotes. *)
Definition numberOf (s : string) : N :=
  match DecimalString.NilZero.uint_of_string s with
  | Some d => N.of_uint d
  | None => 0%N
  end.

(** [0|[1-9]\d*] *)
Definition numeric (s : string) : bool :=
  match s with
  | "" => false
  | String c "" => isDigit c
  | String c _ => isDigit c && negb (code c =? 48)%N && all isDigit s
  end.

Definition isIdChar (c : ascii) : bool :=
  (isDigit c
   || ((65 <=? code c) && (code c <=? 90))
   || ((97 <=? code c) && (code c <=? 122))
   || (code c =? 45))%N.

(** A prerelease identifier: [0|[1-9]\d*] or [\d*[a-zA-Z-][a-zA-Z0-9-]*]. *)
Definition parseIdentifier (s : string) : option identifier :=
  if numeric s then Some (Numeric (numberOf s))
  else if all isIdChar s && negb (all isDigit s) then Some (Alphanumeric s)
  else None.

Fixpoint splitDot (s : string) : list string :=
  match s with
  | "" => [""]
  | String c s' =>
      if (code c =? 46)%N then "" :: splitDot s' else consHead c (splitDot s')
  end.

Fixpoint mapOption {A B : Type} (f : A -> option B) (l : list A) : option (list B) :=
  match l with
  | [] => Some []
  | x :: l' =>
      match f x, mapOption f l' with
      | Some y, Some ys => Some (y :: ys)
      | _, _ => None
      end
  end.

(** [new SemVer(s)], [None] where it throws. *)
Definition parseVersion (s : string) : option SemVer :=
  match Regex.digits s with
  | None => None
  | Some (a, r1) =>
  match Regex.dot r1 with
  | None => None
  | Some r2 =>
  match Regex.digits r2 with
  | None => None
  | Some (b, r3) =>
  match Regex.dot r3 with
  | None => None
  | Some r4 =>
  match Regex.digits r4 with
  | None => None
  | Some (c, r5) =>
      if numeric a && numeric b && numeric c then
        let M := numberOf a in
        let m := numberOf b in
        let p := numberOf c in
        match r5 with
        | "" => Some (mkSemVer M m p [])
        | String h t =>
            if (code h =? 45)%N then
              match mapOption parseIdentifier (splitDot t) with
              | Some ids => Some (mkSemVer M m p ids)
              | None => None
              end
            else None
        end
      else None
  end end end end end.

Definition compareIdentifiers (a b : identifier) : comparison :=
  match a, b with
  | Numeric x, Numeric y => (x ?= y)%N
  | Numeric _, Alphanumeric _ => Lt
  | Alphanumeric _, Numeric _ => Gt
  | Alphanumeric s, Alphanumeric t => String.compare s t
  end.

Fixpoint compareIdentifierLists (a b : list identifier) : comparison :=
  match a, b with
  | [], [] => Eq
  | [], _ :: _ => Lt
  | _ :: _, [] => Gt
  | x :: a', y :: b' =>
      match compareIdentifiers x y with
      | Eq => compareIdentifierLists a' b'
      | c => c
      end
  end.

Definition compareMain (a b : SemVer) : comparison :=
  match (major a ?= major b)%N with
  | Eq => match (minor a ?= minor b)%N with
          | Eq => (patch a ?= patch b)%N
          | c => c
          end
  | c => c
  end.

(** A version with a prerelease precedes the same version without. *)
Definition comparePre (a b : SemVer) : comparison :=
  match pre a, pre b with
  | [], [] => Eq
  | _ :: _, [] => Lt
  | [], _ :: _ => Gt
  | pa, pb => compareIdentifierLists pa pb
  end.

Definition compareSemVer (a b : SemVer) : comparison :=
  match compareMain a b with
  | Eq => comparePre a b
  | c => c
  end.

(** [cmp(a, op, b)] *)
Definition cmp (a : SemVer) (o : operator) (b : SemVer) : bool :=
  match o, compareSemVer a b with
  | OpNone, Eq => true
  | OpLt, Lt => true
  | OpGt, Gt => true
  | OpLe, (Lt | Eq) => true
  | OpGe, (Gt | Eq) => true
  | _, _ => false
  end.

(** [((?:<|>)?=?)] at the start of a comparator; [=] alone is no operator. *)
Definition parseOperator (s : string) : operator * string :=
  match s with
  | String c r =>
      if (code c =? 60)%N then
        match r with
        | String c' r' => if (code c' =? 61)%N then (OpLe, r') else (OpLt, r)
        | "" => (OpLt, r)
        end
      else if (code c =? 62)%N then
        match r with
        | String c' r' => if (code c' =? 61)%N then (OpGe, r') else (OpGt, r)
        | "" => (OpGt, r)
        end
      else if (code c =? 61)%N then (OpNone, r)
      else (OpNone, s)
  | "" => (OpNone, s)
  end.

Definition parseComparator (s : string) : option Comparator :=
  let (o, r) := parseOperator s in
  match parseVersion r with
  | Some v => Some (mkComparator o v)
  | None => None
  end.

(** A component of a partial version: a number, or a wildcard ([x], [X],
    [*], or a component left out). *)
Inductive component : Type :=
| Num (n : N)
| Wild.

Definition parseComponent (s : string) : option component :=
  if (s =? "x") || (s =? "X") || (s =? "*") then Some Wild
  else if numeric s then Some (Num (numberOf s))
  else None.

(** The text before the first character with code [n], and the text after
    it if there is one. *)
Fixpoint splitAt (n : N) (s : string) : string * option string :=
  match s with
  | "" => ("", None)
  | String c s' =>
      if (code c =? n)%N then ("", Some s')
      else let (a, b) := splitAt n s' in (String c a, b)
  end.

(** Build metadata: identifiers of [[0-9A-Za-z-]+] separated by dots. *)
Definition validBuild (b : string) : bool :=
  forallb (fun id => negb (id =? "") && all isIdChar id) (splitDot b).

Record Partial : Type := mkPartial {
  partialMajor : component;
  partialMinor : component;
  partialPatch : component;
  partialPre : list identifier
}.

(** A partial version: one to three components, and a prerelease tag and
    build metadata only after the third. *)
Definition parsePartial (s : string) : option Partial :=
  let (s', build) := splitAt 43 s in
  let (main, tag) := splitAt 45 s' in
  let buildOK := match build with
                 | Some b => validBuild b
                 | None => true
                 end in
  match map parseComponent (splitDot main), tag with
  | [Some M], None =>
      match build with
      | None => Some (mkPartial M Wild Wild [])
      | Some _ => None
      end
  | [Some M; Some m], None =>
      match build with
      | None => Some (mkPartial M m Wild [])
      | Some _ => None
      end
  | [Some M; Some m; Some p], None =>
      if buildOK then Some (mkPartial M m p []) else None
  | [Some M; Some m; Some p], Some t =>
      match mapOption parseIdentifier (splitDot t) with
      | Some ids => if buildOK then Some (mkPartial M m p ids) else None
      | None => None
      end
  | _, _ => None
  end.

(** All three numbers are given. *)
Definition isFull (v : Partial) : bool :=
  match partialMajor v, partialMinor v, partialPatch v with
  | Num _, Num _, Num _ => true
  | _, _, _ => false
  end.

(** The characters [v] and [=] in front of a version, and the version.  A
    full version after an operator or after nothing may have one [v] in
    front of it and no more; where the version is rewritten from its
    numbers, what stands in front of it is dropped. *)
Definition isLead (c : ascii) : bool := ((code c =? 118) || (code c =? 61))%N.

Definition parseLed (strict : bool) (s : string) : option Partial :=
  let (lead, r) := span isLead s in
  match parsePartial r with
  | Some v =>
      if strict && isFull v && negb ((lead =? "") || (lead =? "v")) then None
      else Some v
  | None => None
  end.

Definition atLeast (M m p : N) (ids : list identifier) : Comparator :=
  mkComparator OpGe (mkSemVer M m p ids).

Definition below (M m p : N) : Comparator :=
  mkComparator OpLt (mkSemVer M m p []).

(** [^1.2.3] is [>=1.2.3 <2.0.0]: up to the next change of the leftmost
    number that is not zero. *)
Definition replaceCaret (v : Partial) : list Comparator :=
  match partialMajor v, partialMinor v, partialPatch v with
  | Wild, _, _ => []
  | Num M, Wild, _ => [atLeast M 0 0 []; below (M + 1) 0 0]
  | Num M, Num m, Wild =>
      if (M =? 0)%N then [atLeast M m 0 []; below M (m + 1) 0]
      else [atLeast M m 0 []; below (M + 1) 0 0]
  | Num M, Num m, Num p =>
      if (M =? 0)%N then
        if (m =? 0)%N then [atLeast M m p (partialPre v); below M m (p + 1)]
        else [atLeast M m p (partialPre v); below M (m + 1) 0]
      else [atLeast M m p (partialPre v); below (M + 1) 0 0]
  end.

(** [~1.2.3] is [>=1.2.3 <1.3.0], [~1] is [>=1.0.0 <2.0.0]. *)
Definition replaceTilde (v : Partial) : list Comparator :=
  match partialMajor v, partialMinor v, partialPatch v with
  | Wild, _, _ => []
  | Num M, Wild, _ => [atLeast M 0 0 []; below (M + 1) 0 0]
  | Num M, Num m, Wild => [atLeast M m 0 []; below M (m + 1) 0]
  | Num M, Num m, Num p => [atLeast M m p (partialPre v); below M (m + 1) 0]
  end.

(** A partial version after an operator or after nothing: [1.2.x] is
    [>=1.2.0 <1.3.0], [>1.2.x] is [>=1.3.0], [<=1.x] is [<2.0.0], [*] is
    any version and [<*] is [<0.0.0]. *)
Definition replaceXRange (o : operator) (v : Partial) : list Comparator :=
  match partialMajor v, partialMinor v, partialPatch v with
  | Wild, _, _ =>
      match o with
      | OpLt | OpGt => [below 0 0 0]
      | _ => []
      end
  | Num M, Wild, _ =>
      match o with
      | OpNone => [atLeast M 0 0 []; below (M + 1) 0 0]
      | OpGt => [atLeast (M + 1) 0 0 []]
      | OpLe => [below (M + 1) 0 0]
      | OpGe => [atLeast M 0 0 []]
      | OpLt => [below M 0 0]
      end
  | Num M, Num m, Wild =>
      match o with
      | OpNone => [atLeast M m 0 []; below M (m + 1) 0]
      | OpGt => [atLeast M (m + 1) 0 []]
      | OpLe => [below M (m + 1) 0]
      | OpGe => [atLeast M m 0 []]
      | OpLt => [below M m 0]
      end
  | Num M, Num m, Num p => [mkComparator o (mkSemVer M m p (partialPre v))]
  end.

(** The two ends of a hyphen range: [1.2 - 3.4] is [>=1.2.0 <3.5.0]. *)
Definition hyphenFrom (v : Partial) : list Comparator :=
  match partialMajor v, partialMinor v, partialPatch v with
  | Wild, _, _ => []
  | Num M, Wild, _ => [atLeast M 0 0 []]
  | Num M, Num m, Wild => [atLeast M m 0 []]
  | Num M, Num m, Num p => [atLeast M m p (partialPre v)]
  end.

Definition hyphenTo (v : Partial) : list Comparator :=
  match partialMajor v, partialMinor v, partialPatch v with
  | Wild, _, _ => []
  | Num M, Wild, _ => [below (M + 1) 0 0]
  | Num M, Num m, Wild => [below M (m + 1) 0]
  | Num M, Num m, Num p => [mkComparator OpLe (mkSemVer M m p (partialPre v))]
  end.

(** The upper end of a hyphen range is rewritten from its numbers when it
    has a prerelease tag. *)
Definition parseTo (s : string) : option Partial :=
  match parseLed false s with
  | Some v =>
      match partialPre v with
      | [] => parseLed true s
      | _ :: _ => Some v
      end
  | None => None
  end.

(** [A - B] as the whole of an alternative. *)
Definition hyphenRange (tokens : list string) : option (list Comparator) :=
  match tokens with
  | [from; dash; to] =>
      if dash =? "-" then
        match parseLed true from, parseTo to with
        | Some f, Some t => Some (hyphenFrom f ++ hyphenTo t)%list
        | _, _ => None
        end
      else None
  | _ => None
  end.

(** An operator, a tilde or a caret on its own is put in front of the text
    that follows the blanks after it. *)
Definition lonePrefix (s : string) : bool :=
  existsb (String.eqb s) ["<"; ">"; "<="; ">="; "="; "~"; "~>"; "^"].

Fixpoint glue (tokens : list string) : list string :=
  match tokens with
  | a :: tl =>
      match tl with
      | b :: rest => if lonePrefix a then (a ++ b) :: glue rest else a :: glue tl
      | [] => tokens
      end
  | [] => []
  end.

(** The comparators one comparator of a range stands for: itself when it is
    an operator and a full version, otherwise what its caret, its tilde or
    its wildcards expand to. *)
Definition desugar (comp : string) : option (list Comparator) :=
  match parseComparator comp with
  | Some c => Some [c]
  | None =>
      match comp with
      | "" => Some []
      | String c r =>
          if (code c =? 94)%N then option_map replaceCaret (parseLed false r)
          else if (code c =? 126)%N then
            option_map replaceTilde
              (parseLed false match r with
                              | String c' r' => if (code c' =? 62)%N then r' else r
                              | "" => r
                              end)
          else
            let (o, r') := parseOperator comp in
            option_map (replaceXRange o) (parseLed true r')
      end
  end.

(** One alternative of a range: its comparators; none for the empty
    string, which any version satisfies. *)
Definition parseSet (s : string) : option (list Comparator) :=
  let t := trim s in
  if t =? "" then Some []
  else
    let tokens := splitSpace t in
    match hyphenRange tokens with
    | Some set => Some set
    | None => option_map (@concat Comparator) (mapOption desugar (glue tokens))
    end.

(** [new Range(s)], [None] where it throws. *)
Definition parseRange (s : string) : option (list (list Comparator)) :=
  mapOption parseSet (splitOr s).

Definition hasPre (v : SemVer) : bool :=
  match pre v with
  | [] => false
  | _ :: _ => true
  end.

Definition sameTuple (a b : SemVer) : bool :=
  ((major a =? major b) && (minor a =? minor b) && (patch a =? patch b))%N.

(** [testSet]: every comparator holds, and a version with a prerelease tag
    is admitted only by a set that has a comparator with a prerelease tag
    on the same [major.minor.patch]. *)
Definition testSet (set : list Comparator) (v : SemVer) : bool :=
  forallb (fun c => cmp v (op c) (semver c)) set
  && (if hasPre v
      then existsb (fun c => hasPre (semver c) && sameTuple (semver c) v) set
      else true).

Definition lowerOp (o : operator) : bool :=
  match o with OpGt | OpGe => true | _ => false end.

Definition upperOp (o : operator) : bool :=
  match o with OpLt | OpLe => true | _ => false end.

Definition inclusiveOp (o : operator) : bool :=
  match o with OpLe | OpGe => true | _ => false end.

(** [Comparator.prototype.intersects] *)
Definition comparatorIntersects (this comp : Comparator) : bool :=
  match op this, op comp with
  | OpNone, _ => testSet [comp] (semver this)
  | _, OpNone => testSet [this] (semver comp)
  | a, b =>
      let sameDirectionIncreasing := lowerOp a && lowerOp b in
      let sameDirectionDecreasing := upperOp a && upperOp b in
      let sameSemVer := match compareSemVer (semver this) (semver comp) with
                        | Eq => true
                        | _ => false
                        end in
      let differentDirectionsInclusive := inclusiveOp a && inclusiveOp b in
      let oppositeDirectionsLessThan :=
        cmp (semver this) OpLt (semver comp) && (lowerOp a && upperOp b) in
      let oppositeDirectionsGreaterThan :=
        cmp (semver this) OpGt (semver comp) && (upperOp a && lowerOp b) in
      sameDirectionIncreasing || sameDirectionDecreasing
      || (sameSemVer && differentDirectionsInclusive)
      || oppositeDirectionsLessThan || oppositeDirectionsGreaterThan
  end.

Definition showNumber (n : N) : string :=
  DecimalString.NilZero.string_of_uint (N.to_uint n).

Definition formatIdentifier (i : identifier) : string :=
  match i with
  | Numeric n => showNumber n
  | Alphanumeric s => s
  end.

Definition formatVersion (v : SemVer) : string :=
  showNumber (major v) ++ "." ++ showNumber (minor v) ++ "." ++ showNumber (patch v)
  ++ match pre v with
     | [] => ""
     | ids => "-" ++ join "." (map formatIdentifier ids)
     end.

Definition formatOperator (o : operator) : string :=
  match o with
  | OpNone => ""
  | OpLt => "<"
  | OpGt => ">"
  | OpLe => "<="
  | OpGe => ">="
  end.

Definition formatComparator (c : Comparator) : string :=
  formatOperator (op c) ++ formatVersion (semver c).

Definition validRange (range : string) : option string :=
  match parseRange range with
  | None => None
  | Some sets =>
      let r := trim (join "||"
                 (map (fun set => trim (join " " (map formatComparator set))) sets)) in
      Some (if r =? "" then "*" else r)
  end.

Definition satisfies (version range : string) : outcome bool :=
  match parseRange range with
  | None => Ret false
  | Some sets =>
      match parseVersion version with
      | None => Throw TypeError
      | Some v => Ret (existsb (fun set => testSet set v) sets)
      end
  end.

(** [Range.prototype.intersects] *)
Definition intersects (r1 r2 : string) : outcome bool :=
  match parseRange r1, parseRange r2 with
  | Some s1, Some s2 =>
      Ret (existsb (fun thisComparators =>
             forallb (fun thisComparator =>
               existsb (fun rangeComparators =>
                 forallb (fun rangeComparator =>
                   comparatorIntersects thisComparator rangeComparator)
                   rangeComparators) s2) thisComparators) s1)
  | _, _ => Throw TypeError
  end.

Definition compare (a b : string) : outcome comparison :=
  match parseVersion a, parseVersion b with
  | Some x, Some y => Ret (compareSemVer x y)
  | _, _ => Throw TypeError
  end.

Definition field (f : SemVer -> N) (version : string) : outcome N :=
  match parseVersion version with
  | Some v => Ret (f v)
  | None => Throw TypeError
  end.

Definition prerelease (version : string) : option (list string) :=
  match parseVersion version with
  | Some v => match pre v with
              | [] => None
              | ids => Some (map formatIdentifier ids)
              end
  | None => None
  end.

#[export] Instance api : semver.API := {|
  semver.validRange := validRange;
  semver.satisfies := satisfies;
  semver.intersects := intersects;
  semver.compare := compare;
  semver.major := field major;
  semver.minor := field minor;
  semver.patch := field patch;
  semver.prerelease := prerelease
|}.

End NodeSemver.

(* ===================================================================== *)
(** ** Bounds as cuts of an ordered set *)

Module Order.

(** A three-way comparison that is a total order. *)
Record TotalCompare {T : Type} (cmp : T -> T -> comparison) : Prop := {
  cmp_eq : forall a b, cmp a b = Eq <-> a = b;
  cmp_opp : forall a b, cmp b a = CompOpp (cmp a b);
  cmp_trans : forall a b c, cmp a b = Lt -> cmp b c = Lt -> cmp a c = Lt
}.

Arguments cmp_eq {T cmp} _ a b.
Arguments cmp_opp {T cmp} _ a b.
Arguments cmp_trans {T cmp} _ a b c _ _.

(** The lexicographic comparison of pairs. *)
Definition lex {A B : Type} (ca : A -> A -> comparison) (cb : B -> B -> comparison)
           (x y : A * B) : comparison :=
  match ca (fst x) (fst y) with
  | Eq => cb (snd x) (snd y)
  | c => c
  end.

Section Cuts.
Context {T : Type} (cmp : T -> T -> comparison).

Definition ltb (a b : T) : bool :=
  match cmp a b with Lt => true | _ => false end.

Definition max (a b : T) : T := if ltb a b then b else a.

Definition min (a b : T) : T := if ltb b a then b else a.

(** A missing bound is below every upper bound and above every lower
    bound. *)
Definition olt (a b : option T) : bool :=
  match a, b with
  | Some x, Some y => ltb x y
  | _, _ => true
  end.

Definition omax (a b : option T) : option T :=
  match a, b with
  | Some x, Some y => Some (max x y)
  | None, _ => b
  | _, None => a
  end.

Definition omin (a b : option T) : option T :=
  match a, b with
  | Some x, Some y => Some (min x y)
  | None, _ => b
  | _, None => a
  end.

(** A lower and an upper cut, either of which may be missing. *)
Definition interval : Type := option T * option T.

(** Narrowing an interval by another: it fails when a lower cut is not
    below the opposite upper cut. *)
Definition narrow (st c : interval) : option interval :=
  if olt (fst c) (snd st) && olt (fst st) (snd c)
  then Some (omax (fst st) (fst c), omin (snd st) (snd c))
  else None.

Fixpoint narrowAll (l : list interval) (st : interval) : option interval :=
  match l with
  | [] => Some st
  | c :: l' =>
      match narrow st c with
      | Some st' => narrowAll l' st'
      | None => None
      end
  end.

(** Putting two intervals together without the check of [narrow]. *)
Definition join (st c : interval) : interval :=
  (omax (fst st) (fst c), omin (snd st) (snd c)).


End Cuts.
End Order.

(* ===================================================================== *)
(** ** Plain comparators *)

Module Plain.
Import NodeSemver.

(** The numbers of a version without prerelease tag. *)
Definition key : Type := N * (N * N).

Definition keyOf (v : SemVer) : key := (major v, (minor v, patch v)).

Definition compareKey : key -> key -> comparison :=
  Order.lex N.compare (Order.lex N.compare N.compare).

(** A cut just below ([false]) or just above ([true]) a version:
    [>=v] and [<v] cut below [v], [>v] and [<=v] above it. *)
Definition cut : Type := key * bool.

Definition compareCut : cut -> cut -> comparison := Order.lex compareKey Bool.compare.

(** A comparator [op M.m.p] in the form [validRange] prints, as operator
    and numbers. *)
Definition comparator (c : string) : option (operator * key) :=
  let (o, r) := parseOperator c in
  if formatOperator o ++ r =? c then
    match parseVersion r with
    | Some v =>
        match pre v with
        | [] => Some (o, keyOf v)
        | _ :: _ => None
        end
    | None => None
    end
  else None.

(** [c] is the operator [o] followed by the plain version [r], which
    parses to [v]. *)
Definition PlainAt (c : string) (o : operator) (r : string) (v : SemVer) : Prop :=
  c = formatOperator o ++ r /\ parseVersion r = Some v /\ pre v = [].

(** The condition [parseRange] reports for an operator. *)
Definition conditionOf (o : operator) : string :=
  match o with
  | OpNone => "="
  | _ => formatOperator o
  end.

(** The characters of a plain comparator. *)
Definition isPlainChar (c : ascii) : bool :=
  JS.isDigit c || JS.isCond c || (JS.code c =? 46)%N.

Definition isPlain (c : string) : bool :=
  match comparator c with
  | Some _ => true
  | None => false
  end.

Definition lowerCut (o : operator) (k : key) : option cut :=
  match o with
  | OpGe | OpNone => Some (k, false)
  | OpGt => Some (k, true)
  | OpLt | OpLe => None
  end.

Definition upperCut (o : operator) (k : key) : option cut :=
  match o with
  | OpLt => Some (k, false)
  | OpLe | OpNone => Some (k, true)
  | OpGt | OpGe => None
  end.

(** The interval a comparator stands for. *)
Definition interval (c : string) : Order.interval (T := cut) :=
  match comparator c with
  | Some (o, k) => (lowerCut o k, upperCut o k)
  | None => (None, None)
  end.

(** A lower bound of the program and the cut it stands for. *)
Definition LowerIs (bound : option string) (c : option cut) : Prop :=
  match bound with
  | None => c = None
  | Some s => exists o k, comparator s = Some (o, k) /\ (o = OpGt \/ o = OpGe)
                          /\ c = lowerCut o k
  end.

Definition UpperIs (bound : option string) (c : option cut) : Prop :=
  match bound with
  | None => c = None
  | Some s => exists o k, comparator s = Some (o, k) /\ (o = OpLt \/ o = OpLe)
                          /\ c = upperCut o k
  end.

Definition BoundsAre (b : Bounds) (st : Order.interval (T := cut)) : Prop :=
  LowerIs (lowerBound b) (fst st) /\ UpperIs (upperBound b) (snd st).

(** The check of [ensureCompatible] that does not look at prerelease
    tags: the version satisfies the bound and the ranges intersect. *)
Definition checkOK (o : operator) (v : SemVer) (ob : operator) (vb : SemVer) : bool :=
  cmp v ob vb && comparatorIntersects (mkComparator o v) (mkComparator ob vb).

Definition isLt (c : comparison) : bool := match c with Lt => true | _ => false end.
Definition isGt (c : comparison) : bool := match c with Gt => true | _ => false end.
Definition isEq (c : comparison) : bool := match c with Eq => true | _ => false end.

(** The operators of a clause and of a bound it is checked against. *)
Definition opposite (o ob : operator) : bool :=
  match o, ob with
  | (OpGt | OpGe), (OpLt | OpLe) => true
  | (OpLt | OpLe), (OpGt | OpGe) => true
  | OpNone, (OpGt | OpGe | OpLt | OpLe) => true
  | _, _ => false
  end.

(** The cuts of a bound of the program. *)
Definition boundCuts (bound : option string) : Order.interval (T := cut) :=
  match bound with
  | None => (None, None)
  | Some s => interval s
  end.

(** A bound is missing or a plain comparator opposite to the operator. *)
Definition OppositeBound (o : operator) (bound : option string) : Prop :=
  match bound with
  | None => True
  | Some s => exists ob kb, comparator s = Some (ob, kb) /\ opposite o ob = true
  end.

End Plain.

(* ===================================================================== *)
(** ** Comparators in canonical form *)

Module Canon.
Import NodeSemver.

(** A comparator [op M.m.p] or [op M.m.p-tag] in the form [validRange]
    prints, whose version [regex.version] of the program matches as a
    whole (the tag is made of letters, digits and dots), as operator and
    version. *)
Definition comparator (c : string) : option (operator * SemVer) :=
  let (o, r) := parseOperator c in
  if (formatOperator o ++ r =? c) && Regex.wholeVersion r then
    match parseVersion r with
    | Some v => Some (o, v)
    | None => None
    end
  else None.

Definition isCanonical (c : string) : bool :=
  match comparator c with
  | Some _ => true
  | None => false
  end.

(** An exact version: a canonical comparator without operator. *)
Definition isExact (c : string) : bool :=
  match comparator c with
  | Some (OpNone, _) => true
  | _ => false
  end.

(** [c] is the operator [o] followed by the version [r], which parses to
    [v]. *)
Definition CanonAt (c : string) (o : operator) (r : string) (v : SemVer) : Prop :=
  c = formatOperator o ++ r /\ Regex.wholeVersion r = true /\ parseVersion r = Some v.


(** The order of versions as a lexicographic order: the numbers, then the
    prerelease tags, where no tag comes after every tag. *)
Definition comparePreLists (pa pb : list identifier) : comparison :=
  match pa, pb with
  | [], [] => Eq
  | _ :: _, [] => Lt
  | [], _ :: _ => Gt
  | _, _ => compareIdentifierLists pa pb
  end.

Definition key : Type := (N * (N * N)) * list identifier.

Definition keyOf (v : SemVer) : key := ((major v, (minor v, patch v)), pre v).

Definition compareKey : key -> key -> comparison :=
  Order.lex (Order.lex N.compare (Order.lex N.compare N.compare)) comparePreLists.

(** A cut just below ([false]) or just above ([true]) a version. *)
Definition cut : Type := SemVer * bool.

Definition compareCut : cut -> cut -> comparison := Order.lex compareSemVer Bool.compare.

Definition lowerCut (o : operator) (v : SemVer) : option cut :=
  match o with
  | OpGe | OpNone => Some (v, false)
  | OpGt => Some (v, true)
  | OpLt | OpLe => None
  end.

Definition upperCut (o : operator) (v : SemVer) : option cut :=
  match o with
  | OpLt => Some (v, false)
  | OpLe | OpNone => Some (v, true)
  | OpGt | OpGe => None
  end.

Definition interval (c : string) : Order.interval (T := cut) :=
  match comparator c with
  | Some (o, v) => (lowerCut o v, upperCut o v)
  | None => (None, None)
  end.

(** A lower bound of the program and the cut it stands for. *)
Definition LowerIs (bound : option string) (c : option cut) : Prop :=
  match bound with
  | None => c = None
  | Some s => exists o v, comparator s = Some (o, v) /\ (o = OpGt \/ o = OpGe)
                          /\ c = lowerCut o v
  end.

Definition UpperIs (bound : option string) (c : option cut) : Prop :=
  match bound with
  | None => c = None
  | Some s => exists o v, comparator s = Some (o, v) /\ (o = OpLt \/ o = OpLe)
                          /\ c = upperCut o v
  end.

Definition BoundsAre (b : Bounds) (st : Order.interval (T := cut)) : Prop :=
  LowerIs (lowerBound b) (fst st) /\ UpperIs (upperBound b) (snd st).



End Canon.

(* ===================================================================== *)
(** ** What the regular expressions denote *)

Module Pattern.
Import JS.

(** The fragment of regular expressions the program uses, with the usual
    language semantics. *)
Inductive regex : Type :=
| Class (p : ascii -> bool)
| Lit (s : string)
| Cat (r1 r2 : regex)
| Opt (r : regex)
| Plus (r : regex).

Inductive Matches : regex -> string -> Prop :=
| MClass p c : p c = true -> Matches (Class p) (String c "")
| MLit s : Matches (Lit s) s
| MCat r1 r2 s1 s2 : Matches r1 s1 -> Matches r2 s2 -> Matches (Cat r1 r2) (s1 ++ s2)
| MOptNone r : Matches (Opt r) ""
| MOptSome r s : Matches r s -> Matches (Opt r) s
| MPlusOne r s : Matches r s -> Matches (Plus r) s
| MPlusMore r s1 s2 : Matches r s1 -> Matches (Plus r) s2 -> Matches (Plus r) (s1 ++ s2).

(** [[\d]+] *)
Definition number : regex := Plus (Class isDigit).

(** [[\d]+\.[\d]+\.[\d]+] *)
Definition core : regex :=
  Cat number (Cat (Lit ".") (Cat number (Cat (Lit ".") number))).

(** [(?:-[\w.]+)?] *)
Definition tag : regex := Opt (Cat (Lit "-") (Plus (Class isWordDot))).

(** [[\d]+\.[\d]+\.[\d]+(?:-[\w.]+)?] *)
Definition version : regex := Cat core tag.

(** [range] is [>=MIN <MAX], or [>=MIN <=MAX] when [inclusive]. *)
Definition MinMax (range min max : string) (inclusive : bool) : Prop :=
  Matches version min /\ Matches core max /\
  range = ">=" ++ min ++ " <" ++ (if inclusive then "=" else "") ++ max.

(** [v] is the trailing version of [s]: the longest suffix of [s] that is a
    version. *)
Definition TrailingVersion (s v : string) : Prop :=
  (exists before, s = before ++ v) /\ Matches version v /\
  forall before' v', s = before' ++ v' -> Matches version v' ->
                     String.length v' <= String.length v.

(** The next character of [s], if any, is outside the class [p]. *)
Definition stops (p : ascii -> bool) (s : string) : Prop :=
  forall c r, s = String c r -> p c = false.

(** A number: a non-empty string of digits. *)
Definition Number (s : string) : Prop := s <> "" /\ all isDigit s = true.

(** The character [-]. *)
Definition isDash : ascii -> bool := fun c => (code c =? 45)%N.

(** The characters of a version: [[\w.]] and [-]. *)
Definition isVersionChar (c : ascii) : bool := isWordDot c || isDash c.

(** [run] is the longest prefix of [s] made of [<], [=] and [>]. *)
Definition LeadingRun (s run : string) : Prop :=
  exists rest, s = run ++ rest /\ all isCond run = true /\
               forall c rest', rest = String c rest' -> isCond c = false.

End Pattern.

(* ===================================================================== *)
(** ** The rules of the specification, as functions *)

Module Spec.

(** The shorthand of [>=min <max] (section 4.6), from the major and minor
    numbers of the two versions. *)
Definition shorthand (min max : string) (inclusive : bool) (M1 M2 m1 m2 : N) : string :=
  if min =? max then min
  else if inclusive then min ++ " - " ++ max
  else if ((M1 =? 0) && (M2 =? 0))%N then
    if ((m1 =? 0) && (m2 =? 0))%N then "^" ++ min
    else if (m1 =? 0)%N then "~" ++ min
    else "^" ++ min
  else if negb (M1 =? M2)%N then
    if (M1 =? 0)%N then "0" else "^" ++ min
  else "~" ++ min.

(** Which of a new clause and an existing bound is kept (section 4.3):
    [c] compares the version of the clause with that of the bound. *)
Definition tighter (lower strict : bool) (c : comparison) (range bound : string) : string :=
  match c with
  | Eq => if strict then range else bound
  | Gt => if lower then range else bound
  | Lt => if lower then bound else range
  end.

(** The wildcard comparators: [x], [X], [*], and the empty comparator,
    which is what [semver.validRange] prints for a [*] alternative of a
    union ([* || 2.2.*] is printed [||>=2.2.0 <2.3.0]). *)
Definition wildcard (s : string) : Prop :=
  s = "x" \/ s = "X" \/ s = "*" \/ s = "".

End Spec.

Section EngineSpec.
Context {sv : semver.API}.

(** One pair of the cross product, folded on its own. *)
Definition foldPair (boundAndRanges : Bounds * list string) : outcome Bounds :=
  reduceM updateBounds (snd boundAndRanges) (fst boundAndRanges).

(** The folded pairs that did not throw, in order. *)
Definition survivors (pairs : list (Bounds * list string)) : list Bounds :=
  flat_map (fun pr => match foldPair pr with Ret b => [b] | Throw _ => [] end) pairs.

(** What the others threw, in order. *)
Definition failures (pairs : list (Bounds * list string)) : list exn :=
  flat_map (fun pr => match foldPair pr with Ret _ => [] | Throw e => [e] end) pairs.

End EngineSpec.

Section CrossSpec.
Context {sv : semver.API}.

(** The bound pair a conjunction folds to from [bound]: one or none. *)
Definition foldedFrom (bound : Bounds) (ranges : list string) : list Bounds :=
  match reduceM updateBounds ranges bound with
  | Ret b => [b]
  | Throw _ => []
  end.


End CrossSpec.

(* ===================================================================== *)
(** ** Notions used in the statements about the rest of the program *)

Module Notions.

(** A token: a non-empty string without white space. *)
Definition Token (s : string) : Prop :=
  s <> "" /\ JS.all (fun c => negb (JS.isSpace c)) s = true.



(** A collaborator whose operations throw nothing but [TypeError], as the
    [semver] package does on a malformed version or range. *)
Definition ThrowsTypeErrors (sv : semver.API) : Prop :=
  forall e,
    (forall a b, semver.satisfies a b = Throw e -> e = TypeError) /\
    (forall a b, semver.intersects a b = Throw e -> e = TypeError) /\
    (forall a b, semver.compare a b = Throw e -> e = TypeError) /\
    (forall a, semver.major a = Throw e -> e = TypeError) /\
    (forall a, semver.minor a = Throw e -> e = TypeError) /\
    (forall a, semver.patch a = Throw e -> e = TypeError).

(** The ways of choosing one element from each list, the choice from the
    first list varying slowest. *)
Fixpoint choices {A : Type} (l : list (list A)) : list (list A) :=
  match l with
  | [] => [[]]
  | u :: us => flat_map (fun c => map (cons c) (choices us)) u
  end.

End Notions.

Section ChoicesSpec.
Context {sv : semver.API}.

(** The bound pairs that the choices of one conjunction per union fold to,
    from [bound]. *)
Definition foldedChoices (bound : Bounds) (rangeUnions : list (list (list string)))
  : list Bounds :=
  flat_map (fun choice => foldedFrom bound (concat choice)) (Notions.choices rangeUnions).

End ChoicesSpec.

(** What bounds mean for versions without prerelease tag, on the reference
    instance. *)
Module Meaning.
Import NodeSemver Plain.

(** The version with numbers [k] lies above the lower cut and below the
    upper cut of an interval. *)
Definition within (k : key) (iv : Order.interval (T := cut)) : bool :=
  Order.olt compareCut (fst iv) (Some (k, true))
  && Order.olt compareCut (Some (k, false)) (snd iv).

(** [semver.satisfies(version, range)] is [true]. *)
Definition Satisfies (version range : string) : Prop :=
  semver.satisfies (API := api) version range = Ret true.

(** The version satisfies the bounds that are present. *)
Definition SatisfiesBounds (version : string) (b : Bounds) : Prop :=
  (forall s, lowerBound b = Some s -> Satisfies version s) /\
  (forall s, upperBound b = Some s -> Satisfies version s).

End Meaning.

(* ===================================================================== *)
(** * Proofs *)

(** ** Strings and the regular expressions *)

Module Facts.
Import JS Pattern.

Ltac char_cases c :=
  destruct c as [[] [] [] [] [] [] [] []]; try reflexivity; try discriminate.

Lemma append_nil_r (s : string) : s ++ "" = s.
Proof. induction s; simpl; congruence. Qed.

Lemma append_assoc (a b c : string) : (a ++ b) ++ c = a ++ b ++ c.
Proof. induction a; simpl; congruence. Qed.

Ltac str_norm := repeat (rewrite ?append_assoc; simpl).

Lemma length_append (a b : string) :
  String.length (a ++ b) = String.length a + String.length b.
Proof. induction a; simpl; congruence. Qed.

Lemma all_append p a b : all p (a ++ b) = all p a && all p b.
Proof. induction a; simpl; [reflexivity|]. rewrite IHa, andb_assoc. reflexivity. Qed.

Lemma all_impl (p q : ascii -> bool) s :
  (forall c, p c = true -> q c = true) -> all p s = true -> all q s = true.
Proof.
  intros H. induction s; simpl; [reflexivity|].
  rewrite !andb_true_iff. intros [? ?]. auto.
Qed.


Lemma stops_nil p : stops p "".
Proof. intros c r H. discriminate. Qed.

Lemma stops_cons p c r : p c = false -> stops p (String c r).
Proof. intros H c' r' E. inversion E. subst. assumption. Qed.

Lemma span_spec p s a b :
  span p s = (a, b) -> s = a ++ b /\ all p a = true /\ stops p b.
Proof.
  revert a b. induction s as [|c s IH]; simpl; intros a b H.
  - inversion H. subst. repeat split. apply stops_nil.
  - destruct (p c) eqn:Hc.
    + destruct (span p s) as [a' b'] eqn:E. inversion H. subst.
      destruct (IH _ _ eq_refl) as (-> & Ha & Hb).
      simpl. rewrite Hc, Ha. auto.
    + inversion H. subst. repeat split. apply stops_cons. assumption.
Qed.

Lemma span_append p a b :
  all p a = true -> stops p b -> span p (a ++ b) = (a, b).
Proof.
  induction a as [|c a IH]; simpl; intros Ha Hb.
  - destruct b as [|c r]; simpl; [reflexivity|].
    rewrite (Hb c r eq_refl). reflexivity.
  - apply andb_true_iff in Ha. destruct Ha as [Hc Ha].
    rewrite Hc, (IH Ha Hb). reflexivity.
Qed.


Lemma matches_lit l s : Matches (Lit l) s <-> s = l.
Proof. split; intros H; [inversion H; reflexivity | subst; constructor]. Qed.

Lemma matches_cat r1 r2 s :
  Matches (Cat r1 r2) s <->
  exists s1 s2, s = s1 ++ s2 /\ Matches r1 s1 /\ Matches r2 s2.
Proof.
  split.
  - intros H. inversion H. subst. eauto.
  - intros (s1 & s2 & -> & H1 & H2). constructor; assumption.
Qed.

Lemma matches_opt r s : Matches (Opt r) s <-> s = "" \/ Matches r s.
Proof.
  split.
  - intros H. inversion H; subst; auto.
  - intros [-> | H]; [apply MOptNone | apply MOptSome; assumption].
Qed.

Lemma matches_class p s :
  Matches (Class p) s <-> exists c, s = String c "" /\ p c = true.
Proof.
  split.
  - intros H. inversion H. subst. eauto.
  - intros (c & -> & H). constructor. assumption.
Qed.

Lemma matches_plus_class p s :
  Matches (Plus (Class p)) s <-> s <> "" /\ all p s = true.
Proof.
  split.
  - intros H. remember (Plus (Class p)) as r eqn:E.
    induction H; inversion E; subst.
    + apply matches_class in H. destruct H as (c & -> & Hc).
      simpl. rewrite Hc. split; [discriminate | reflexivity].
    + apply matches_class in H. destruct H as (c & -> & Hc).
      destruct (IHMatches2 eq_refl) as [_ Hs].
      simpl. rewrite Hc, Hs. split; [discriminate | reflexivity].
  - intros [Hne Hall]. induction s as [|c s IH]; [congruence|].
    simpl in Hall. apply andb_true_iff in Hall. destruct Hall as [Hc Hs].
    destruct s as [|c' s'].
    + apply MPlusOne. constructor. assumption.
    + change (String c (String c' s')) with (String c "" ++ String c' s').
      apply MPlusMore; [constructor; assumption | apply IH; [discriminate | assumption]].
Qed.


Lemma matches_number s : Matches number s <-> Number s.
Proof. apply matches_plus_class. Qed.

Lemma matches_core v :
  Matches core v <->
  exists a b c, Number a /\ Number b /\ Number c /\ v = a ++ "." ++ b ++ "." ++ c.
Proof.
  unfold core. split.
  - intros H.
    apply matches_cat in H. destruct H as (a & r1 & -> & Ha & H).
    apply matches_cat in H. destruct H as (d1 & r2 & -> & Hd1 & H).
    apply matches_cat in H. destruct H as (b & r3 & -> & Hb & H).
    apply matches_cat in H. destruct H as (d2 & c & -> & Hd2 & Hc).
    apply matches_lit in Hd1, Hd2. subst.
    exists a, b, c. rewrite <- !matches_number. auto.
  - intros (a & b & c & Ha & Hb & Hc & ->).
    rewrite <- matches_number in Ha, Hb, Hc.
    repeat (constructor; try assumption).
Qed.

Lemma matches_tag t :
  Matches tag t <->
  t = "" \/ exists w, w <> "" /\ all isWordDot w = true /\ t = "-" ++ w.
Proof.
  unfold tag. rewrite matches_opt, matches_cat. split.
  - intros [-> | (s1 & w & -> & H1 & H2)]; [auto|].
    apply matches_lit in H1. subst. apply matches_plus_class in H2.
    right. exists w. tauto.
  - intros [-> | (w & Hne & Hw & ->)]; [auto|].
    right. exists "-", w. rewrite matches_lit, matches_plus_class. auto.
Qed.

Lemma matches_version v :
  Matches version v <->
  exists c t, v = c ++ t /\ Matches core c /\ Matches tag t.
Proof. apply matches_cat. Qed.

(** *** The recognisers agree with the patterns *)

Lemma digits_sound s d r :
  Regex.digits s = Some (d, r) -> s = d ++ r /\ Number d /\ stops isDigit r.
Proof.
  unfold Regex.digits. destruct (span isDigit s) as [a b] eqn:E.
  apply span_spec in E. destruct E as (-> & Ha & Hb).
  destruct a; intros H; inversion H; subst.
  repeat split; try assumption. discriminate.
Qed.

Lemma digits_complete d r :
  Number d -> stops isDigit r -> Regex.digits (d ++ r) = Some (d, r).
Proof.
  intros [Hne Hd] Hr. unfold Regex.digits.
  rewrite (span_append _ _ _ Hd Hr). destruct d; congruence.
Qed.

Lemma dot_spec s r : Regex.dot s = Some r <-> s = "." ++ r.
Proof.
  destruct s as [|c s]; simpl; [split; discriminate|].
  destruct (code c =? 46)%N eqn:E.
  - apply N.eqb_eq in E. assert (c = "."%char).
    { rewrite <- (ascii_N_embedding c). unfold code in E. rewrite E. reflexivity. }
    subst. split; intros H; inversion H; reflexivity.
  - split; [discriminate|]. intros H. inversion H. subst. discriminate.
Qed.

Lemma stops_digit_dot r : stops isDigit ("." ++ r).
Proof. apply stops_cons. reflexivity. Qed.

Lemma core_sound s v r :
  Regex.core s = Some (v, r) -> s = v ++ r /\ Matches core v /\ stops isDigit r.
Proof.
  unfold Regex.core.
  destruct (Regex.digits s) as [[a r1]|] eqn:E1; [|discriminate].
  destruct (Regex.dot r1) as [r2|] eqn:E2; [|discriminate].
  destruct (Regex.digits r2) as [[b r3]|] eqn:E3; [|discriminate].
  destruct (Regex.dot r3) as [r4|] eqn:E4; [|discriminate].
  destruct (Regex.digits r4) as [[c r5]|] eqn:E5; [|discriminate].
  intros H. inversion H. subst. clear H.
  apply digits_sound in E1, E3, E5. apply dot_spec in E2, E4.
  destruct E1 as (-> & Ha & _), E3 as (-> & Hb & _), E5 as (-> & Hc & Hr).
  subst. repeat split.
  - str_norm. reflexivity.
  - apply matches_core. exists a, b, c. auto.
  - assumption.
Qed.

Lemma core_complete v r :
  Matches core v -> stops isDigit r -> Regex.core (v ++ r) = Some (v, r).
Proof.
  intros H Hr. apply matches_core in H.
  destruct H as (a & b & c & Ha & Hb & Hc & ->).
  unfold Regex.core. str_norm.
  rewrite (digits_complete a (String "." (b ++ String "." (c ++ r))) Ha (stops_digit_dot _)).
  simpl Regex.dot. cbv iota beta.
  rewrite (digits_complete b (String "." (c ++ r)) Hb (stops_digit_dot _)).
  simpl Regex.dot. cbv iota beta.
  rewrite (digits_complete _ _ Hc Hr). reflexivity.
Qed.

Lemma code_eqb_true c n :
  (code c =? n)%N = true -> c = ascii_of_N n.
Proof.
  intros E. apply N.eqb_eq in E. unfold code in E.
  rewrite <- (ascii_N_embedding c), E. reflexivity.
Qed.

Lemma tag_sound s t r :
  Regex.tag s = (t, r) -> s = t ++ r /\ Matches tag t.
Proof.
  unfold Regex.tag. destruct s as [|c s].
  - intros H. inversion H. subst. split; [reflexivity | apply matches_tag; auto].
  - destruct (code c =? 45)%N eqn:Ec.
    + apply code_eqb_true in Ec. simpl in Ec. subst c.
      destruct (span isWordDot s) as [w r'] eqn:E.
      apply span_spec in E. destruct E as (-> & Hw & _).
      destruct w; intros H; inversion H; subst.
      * split; [reflexivity | apply matches_tag; auto].
      * split; [reflexivity|]. apply matches_tag. right.
        eexists. repeat split; [|exact Hw]. discriminate.
    + intros H. inversion H. subst. split; [reflexivity | apply matches_tag; auto].
Qed.


Lemma tag_complete t r :
  Matches tag t -> stops isWordDot r -> stops isDash r ->
  Regex.tag (t ++ r) = (t, r).
Proof.
  intros H Hr Hd. apply matches_tag in H.
  destruct H as [-> | (w & Hne & Hw & ->)].
  - simpl. destruct r as [|c r]; [reflexivity|].
    unfold Regex.tag. specialize (Hd c r eq_refl). unfold isDash in Hd.
    rewrite Hd. reflexivity.
  - unfold Regex.tag. str_norm. rewrite (span_append _ _ _ Hw Hr).
    destruct w; congruence.
Qed.

Lemma wholeVersion_iff s : Regex.wholeVersion s = true <-> Matches version s.
Proof.
  unfold Regex.wholeVersion. split.
  - destruct (Regex.core s) as [[v r]|] eqn:E; [|discriminate].
    destruct (Regex.tag r) as [t r'] eqn:Et.
    destruct r'; [|discriminate]. intros _.
    apply core_sound in E. destruct E as (-> & Hv & _).
    apply tag_sound in Et. destruct Et as (-> & Ht).
    rewrite append_nil_r. apply matches_version. eauto.
  - intros H. apply matches_version in H. destruct H as (c & t & -> & Hc & Ht).
    assert (Hs : stops isDigit t).
    { apply matches_tag in Ht. destruct Ht as [-> | (w & _ & _ & ->)].
      - apply stops_nil.
      - apply stops_cons. reflexivity. }
    rewrite (core_complete _ _ Hc Hs).
    rewrite <- (append_nil_r t) at 1.
    rewrite (tag_complete _ _ Ht (stops_nil _) (stops_nil _)). reflexivity.
Qed.

Lemma version_sound s v : Regex.version s = Some v -> TrailingVersion s v.
Proof.
  revert v. induction s as [|c s IH]; intros v; simpl.
  - destruct (Regex.wholeVersion "") eqn:E; [|discriminate].
    apply wholeVersion_iff in E. apply matches_version in E.
    destruct E as (c & t & E & Hc & _). apply matches_core in Hc.
    destruct Hc as (a & b & c' & [Ha _] & _ & _ & ->).
    destruct a; [congruence | discriminate].
  - destruct (Regex.wholeVersion (String c s)) eqn:E.
    + intros H. inversion H. subst. apply wholeVersion_iff in E.
      split; [exists ""; reflexivity|]. split; [assumption|].
      intros before' v' Hs _. rewrite Hs, length_append. lia.
    + intros H. destruct (IH _ H) as ((before & Hb) & Hv & Hmax).
      split; [exists (String c before); simpl; congruence|].
      split; [assumption|].
      intros before' v' Hs Hv'. destruct before' as [|c' before'].
      * simpl in Hs. subst v'. apply wholeVersion_iff in Hv'. congruence.
      * simpl in Hs. inversion Hs. subst. eapply Hmax; eauto.
Qed.

Lemma version_none s :
  Regex.version s = None ->
  forall before v, s = before ++ v -> ~ Matches version v.
Proof.
  induction s as [|c s IH]; simpl.
  - destruct (Regex.wholeVersion "") eqn:E; [discriminate|]. intros _ before v Hs Hv.
    destruct before; [|discriminate]. simpl in Hs. subst.
    apply wholeVersion_iff in Hv. congruence.
  - destruct (Regex.wholeVersion (String c s)) eqn:E; [discriminate|].
    intros H before v Hs Hv. destruct before as [|c' before].
    + simpl in Hs. subst. apply wholeVersion_iff in Hv. congruence.
    + simpl in Hs. inversion Hs. subst. eapply IH; eauto.
Qed.

Lemma trailingVersion_unique s v w :
  TrailingVersion s v -> TrailingVersion s w -> v = w.
Proof.
  intros ((b1 & H1) & Hv & Mv) ((b2 & H2) & Hw & Mw).
  assert (L : String.length v = String.length w).
  { apply Nat.le_antisymm; [eapply Mw | eapply Mv]; eauto. }
  clear Mv Mw Hv Hw. subst s. revert b2 H2 L.
  induction b1 as [|c b1 IH]; intros b2 H2 L.
  - destruct b2 as [|c2 b2]; [exact H2|].
    simpl in H2. rewrite H2 in L. simpl in L. rewrite length_append in L. lia.
  - destruct b2 as [|c2 b2].
    + simpl in H2. rewrite <- H2 in L. simpl in L. rewrite length_append in L. lia.
    + simpl in H2. inversion H2. eapply IH; eauto.
Qed.

Lemma version_complete s v : TrailingVersion s v -> Regex.version s = Some v.
Proof.
  intros H. destruct (Regex.version s) as [w|] eqn:E.
  - f_equal. eapply trailingVersion_unique; [apply version_sound|]; eassumption.
  - destruct H as ((b & Hb) & Hv & _). exfalso. eapply version_none; eauto.
Qed.

Lemma condition_sound s :
  match Regex.condition s with
  | Some run => run <> "" /\ LeadingRun s run
  | None => LeadingRun s ""
  end.
Proof.
  unfold Regex.condition. destruct (span isCond s) as [a b] eqn:E.
  apply span_spec in E. destruct E as (-> & Ha & Hb).
  destruct a.
  - exists b. auto.
  - split; [discriminate|]. exists b. auto.
Qed.

Lemma leadingRun_unique s r1 r2 : LeadingRun s r1 -> LeadingRun s r2 -> r1 = r2.
Proof.
  intros (t1 & H1 & A1 & S1) (t2 & H2 & A2 & S2).
  pose proof (span_append _ _ _ A1 S1) as E1.
  pose proof (span_append _ _ _ A2 S2) as E2.
  rewrite <- H1 in E1. rewrite <- H2 in E2. congruence.
Qed.

Lemma core_head v :
  Matches core v -> exists c r, v = String c r /\ isDigit c = true.
Proof.
  intros H. apply matches_core in H.
  destruct H as (a & b & c & [Hne Ha] & _ & _ & ->).
  destruct a as [|x a]; [congruence|]. simpl in Ha.
  apply andb_true_iff in Ha. destruct Ha as [Hx _].
  exists x. eexists. split; [reflexivity | assumption].
Qed.

Lemma version_head v :
  Matches version v -> exists c r, v = String c r /\ isDigit c = true.
Proof.
  intros H. apply matches_version in H. destruct H as (c & t & -> & Hc & _).
  apply core_head in Hc. destruct Hc as (x & r & -> & Hx).
  exists x. eexists. split; [reflexivity | assumption].
Qed.

Lemma minMax_sound range min max :
  Regex.minMax range = Some (min, max) ->
  exists inclusive, MinMax range min max inclusive.
Proof.
  unfold Regex.minMax.
  destruct range as [|c1 [|c2 r0]]; try discriminate.
  destruct ((code c1 =? 62) && (code c2 =? 61))%N eqn:E12; [|discriminate].
  apply andb_true_iff in E12. destruct E12 as [E1 E2].
  apply code_eqb_true in E1, E2. simpl in E1, E2. subst c1 c2.
  destruct (Regex.core r0) as [[v r1]|] eqn:Ev; [|discriminate].
  destruct (Regex.tag r1) as [t r2] eqn:Et.
  destruct r2 as [|c3 [|c4 r3]]; try discriminate.
  destruct ((code c3 =? 32) && (code c4 =? 60))%N eqn:E34; [|discriminate].
  apply andb_true_iff in E34. destruct E34 as [E3 E4].
  apply code_eqb_true in E3, E4. simpl in E3, E4. subst c3 c4.
  apply core_sound in Ev. destruct Ev as (-> & Hv & _).
  apply tag_sound in Et. destruct Et as (-> & Ht).
  assert (Hmin : Matches version (v ++ t)) by (apply matches_version; eauto).
  destruct r3 as [|c5 r'].
  - simpl. discriminate.
  - destruct (code c5 =? 61)%N eqn:E5.
    + apply code_eqb_true in E5. simpl in E5. subst c5.
      destruct (Regex.core r') as [[w r6]|] eqn:Ew; [|discriminate].
      destruct r6; [|discriminate]. intros H. injection H as <- <-.
      apply core_sound in Ew. destruct Ew as (Ew & Hw & _).
      rewrite append_nil_r in Ew. subst r'.
      exists true. repeat split; try assumption.
      str_norm. reflexivity.
    + destruct (Regex.core (String c5 r')) as [[w r6]|] eqn:Ew; [|discriminate].
      destruct r6; [|discriminate]. intros H. injection H as <- <-.
      apply core_sound in Ew. destruct Ew as (Ew & Hw & _).
      rewrite append_nil_r in Ew. subst w.
      exists false. repeat split; try assumption.
      str_norm. reflexivity.
Qed.

Lemma minMax_complete range min max inclusive :
  MinMax range min max inclusive -> Regex.minMax range = Some (min, max).
Proof.
  intros (Hmin & Hmax & ->).
  apply matches_version in Hmin. destruct Hmin as (v & t & -> & Hv & Ht).
  unfold Regex.minMax. str_norm.
  assert (S1 : stops isDigit (t ++ String " " (String "<"
                 ((if inclusive then "=" else "") ++ max)))).
  { apply matches_tag in Ht. destruct Ht as [-> | (w & _ & _ & ->)];
      apply stops_cons; reflexivity. }
  rewrite (core_complete _ _ Hv S1).
  rewrite (tag_complete _ _ Ht); [|apply stops_cons; reflexivity ..].
  cbv iota beta. simpl andb. cbv iota.
  destruct (core_head _ Hmax) as (x & r & Ex & Hx).
  assert (Hc : Regex.core max = Some (max, "")).
  { rewrite <- (append_nil_r max) at 1. apply core_complete; [assumption | apply stops_nil]. }
  destruct inclusive; simpl.
  - rewrite Hc. reflexivity.
  - rewrite Ex. rewrite <- Ex.
    replace (code x =? 61)%N with false.
    + rewrite Hc. reflexivity.
    + symmetry. clear - Hx. char_cases x.
Qed.


Lemma digit_versionChar c : isDigit c = true -> isVersionChar c = true.
Proof. intros H. unfold isVersionChar, isWordDot, isWord. rewrite H. reflexivity. Qed.

Lemma core_chars v : Matches core v -> all isVersionChar v = true.
Proof.
  intros H. apply matches_core in H.
  destruct H as (a & b & c & [_ Ha] & [_ Hb] & [_ Hc] & ->).
  rewrite !all_append. simpl.
  rewrite (all_impl _ _ _ digit_versionChar Ha), (all_impl _ _ _ digit_versionChar Hb),
    (all_impl _ _ _ digit_versionChar Hc). reflexivity.
Qed.

Lemma version_chars v : Matches version v -> all isVersionChar v = true.
Proof.
  intros H. apply matches_version in H. destruct H as (c & t & -> & Hc & Ht).
  rewrite all_append, (core_chars _ Hc). simpl.
  apply matches_tag in Ht. destruct Ht as [-> | (w & _ & Hw & ->)]; [reflexivity|].
  simpl. eapply all_impl; [|exact Hw].
  intros x Hx. unfold isVersionChar. rewrite Hx. reflexivity.
Qed.

Lemma startsWith_le_head c s :
  (code c =? 60)%N = false -> startsWith "<=" (String c s) = false.
Proof.
  intros H. cbn [startsWith].
  replace ("<" =? c)%char with false; [reflexivity|].
  symmetry. apply Ascii.eqb_neq. intros <-. discriminate.
Qed.

Lemma includes_le_skip a s :
  all (fun c => negb (code c =? 60)%N) a = true ->
  includes "<=" (a ++ s) = includes "<=" s.
Proof.
  induction a as [|c a IH]; [reflexivity|]. intros H.
  simpl in H. apply andb_true_iff in H. destruct H as [Hc Ha].
  apply negb_true_iff in Hc.
  change (includes "<=" (String c a ++ s))
    with (startsWith "<=" (String c (a ++ s)) || includes "<=" (a ++ s)).
  rewrite (startsWith_le_head _ _ Hc), (IH Ha). reflexivity.
Qed.

Lemma includes_le_none a :
  all (fun c => negb (code c =? 60)%N) a = true -> includes "<=" a = false.
Proof.
  intros H. rewrite <- (append_nil_r a), (includes_le_skip _ _ H). reflexivity.
Qed.

Lemma versionChar_not_lt c :
  isVersionChar c = true -> negb (code c =? 60)%N = true.
Proof. char_cases c. Qed.

Lemma minMax_includes range min max inclusive :
  MinMax range min max inclusive -> includes "<=" range = inclusive.
Proof.
  intros (Hmin & Hmax & ->).
  pose proof (all_impl _ _ _ versionChar_not_lt (version_chars _ Hmin)) as Cmin.
  pose proof (all_impl _ _ _ versionChar_not_lt (core_chars _ Hmax)) as Cmax.
  replace (">=" ++ min ++ " <" ++ (if inclusive then "=" else "") ++ max)
    with ((">=" ++ min ++ " ") ++ "<" ++ (if inclusive then "=" else "") ++ max)
    by (str_norm; reflexivity).
  rewrite includes_le_skip.
  - destruct inclusive; [reflexivity|].
    destruct (core_head _ Hmax) as (x & r & -> & Hx).
    change (includes "<=" ("<" ++ "" ++ String x r))
      with (startsWith "<=" (String "<" (String x r)) || includes "<=" (String x r)).
    rewrite (includes_le_none _ Cmax), orb_false_r.
    cbn [startsWith]. rewrite Ascii.eqb_refl.
    replace ("=" =? x)%char with false; [reflexivity|].
    symmetry. apply Ascii.eqb_neq. intros <-. discriminate.
  - simpl. rewrite all_append, Cmin. reflexivity.
Qed.

End Facts.

Import JS Facts.

(** ** The shorthand *)

Section Shorthand.
Context {sv : semver.API}.

Lemma minMax_head c s :
  (code c =? 62)%N = false -> Regex.minMax (String c s) = None.
Proof.
  intros H. unfold Regex.minMax. destruct s; [reflexivity|]. rewrite H. reflexivity.
Qed.

Lemma minMax_digit_head c s : isDigit c = true -> Regex.minMax (String c s) = None.
Proof. intros H. apply minMax_head. clear - H. char_cases c. Qed.

Lemma createShorthand_unmatched range :
  Regex.minMax range = None -> createShorthand range = Ret range.
Proof. intros H. unfold createShorthand. rewrite H. reflexivity. Qed.

(** Whatever [createShorthand] returns is left alone by [regex.minMax]. *)
Lemma createShorthand_output range out :
  createShorthand range = Ret out -> Regex.minMax out = None.
Proof.
  unfold createShorthand.
  destruct (Regex.minMax range) as [[min max]|] eqn:E.
  - destruct (minMax_sound _ _ _ E) as (inclusive & Hmin & _ & _).
    destruct (version_head _ Hmin) as (c & r & -> & Hc).
    pose proof (minMax_digit_head c r Hc) as Hm.
    destruct (String c r =? max); [intros H; injection H as <-; exact Hm|].
    destruct (includes "<=" range);
      [intros H; injection H as <-; apply minMax_digit_head; exact Hc|].
    unfold andM, bind.
    repeat match goal with
           | |- context [match ?x with _ => _ end] =>
               match type of x with
               | outcome _ => destruct x
               | bool => destruct x
               end
           end;
      intros H; try discriminate; injection H as <-; reflexivity.
  - intros H. injection H as <-. exact E.
Qed.

(** C9: [createShorthand] is idempotent: applied to its own output, it
    returns that output; where it throws, so does the composition. *)
Theorem createShorthand_idempotent (range : string) :
  (out <- createShorthand range ;; createShorthand out) = createShorthand range.
Proof.
  destruct (createShorthand range) as [out|e] eqn:E; simpl; [|reflexivity].
  apply createShorthand_output in E. apply createShorthand_unmatched. exact E.
Qed.

(** C3: the value of [createShorthand] on [>=MIN <MAX] and [>=MIN <=MAX],
    case by case, and on every other string. *)
Theorem createShorthand_rules (range : string) :
  (forall min max inclusive,
      Pattern.MinMax range min max inclusive ->
      (min = max -> createShorthand range = Ret min) /\
      (min <> max -> inclusive = true ->
       createShorthand range = Ret (min ++ " - " ++ max)) /\
      (forall M1 M2 m1 m2,
          semver.major min = Ret M1 -> semver.major max = Ret M2 ->
          semver.minor min = Ret m1 -> semver.minor max = Ret m2 ->
          createShorthand range = Ret (Spec.shorthand min max inclusive M1 M2 m1 m2)))
  /\ ((forall min max inclusive, ~ Pattern.MinMax range min max inclusive) ->
      createShorthand range = Ret range).
Proof.
  split.
  - intros min max inclusive H.
    pose proof (minMax_complete _ _ _ _ H) as E.
    pose proof (minMax_includes _ _ _ _ H) as I.
    unfold createShorthand. rewrite E, I. repeat split.
    + intros ->. rewrite String.eqb_refl. reflexivity.
    + intros Hne ->. apply String.eqb_neq in Hne. rewrite Hne. reflexivity.
    + intros M1 M2 m1 m2 HM1 HM2 Hm1 Hm2. unfold Spec.shorthand.
      destruct (min =? max); [reflexivity|].
      destruct inclusive; [reflexivity|].
      unfold andM. rewrite HM1, HM2, Hm1, Hm2. simpl.
      destruct (M1 =? 0)%N, (M2 =? 0)%N, (m1 =? 0)%N, (m2 =? 0)%N; simpl;
        try reflexivity; rewrite ?HM1, ?HM2; simpl;
        destruct (M1 =? M2)%N; reflexivity.
  - intros H. apply createShorthand_unmatched.
    destruct (Regex.minMax range) as [[min max]|] eqn:E; [|reflexivity].
    destruct (minMax_sound _ _ _ E) as (inclusive & Hm). exfalso. eapply H; eauto.
Qed.

End Shorthand.

Section Bounds.
Context {sv : semver.API}.

Lemma falsy_cases bound :
  falsy bound = true <-> bound = None \/ bound = Some "".
Proof.
  destruct bound as [b|]; simpl.
  - rewrite String.eqb_eq. split; [intros ->; auto | intros [H|H]; congruence].
  - split; auto.
Qed.

Lemma startsWith_gt_not_lt c :
  startsWith ">" c = true -> startsWith "<" c = false.
Proof.
  destruct c as [|x c]; [discriminate|]. cbn [startsWith]. rewrite !andb_true_r.
  intros H. apply Ascii.eqb_eq in H. subst x. reflexivity.
Qed.





End Bounds.

(** ** Arrays, splitting and the expansion into normal forms *)

(** *** Arrays *)

Lemma setAdd_in acc v x : In x (setAdd acc v) <-> In x acc \/ x = v.
Proof.
  unfold setAdd. destruct (existsb (String.eqb v) acc) eqn:E.
  - split; [auto|]. intros [H | ->]; [assumption|].
    apply existsb_exists in E. destruct E as (y & Hy & E).
    apply String.eqb_eq in E. subst. assumption.
  - rewrite in_app_iff. simpl. intuition auto.
Qed.

Lemma setAdd_nodup acc v : NoDup acc -> NoDup (setAdd acc v).
Proof.
  intros H. unfold setAdd. destruct (existsb (String.eqb v) acc) eqn:E; [assumption|].
  apply NoDup_app; [assumption | repeat constructor; intros [] |].
  intros x Hx [<- | []].
  assert (existsb (String.eqb v) acc = true); [|congruence].
  apply existsb_exists. exists v. split; [assumption | apply String.eqb_refl].
Qed.

Lemma fold_setAdd_in l acc x :
  In x (fold_left setAdd l acc) <-> In x acc \/ In x l.
Proof.
  revert acc. induction l as [|v l IH]; intros acc; simpl.
  - tauto.
  - rewrite IH, setAdd_in. intuition.
Qed.

Lemma fold_setAdd_nodup l acc : NoDup acc -> NoDup (fold_left setAdd l acc).
Proof.
  revert acc. induction l as [|v l IH]; intros acc H; simpl; [assumption|].
  apply IH, setAdd_nodup, H.
Qed.

Lemma distinct_in l x : In x (distinct l) <-> In x l.
Proof. unfold distinct. rewrite fold_setAdd_in. simpl. tauto. Qed.

Lemma distinct_nodup l : NoDup (distinct l).
Proof. apply fold_setAdd_nodup. constructor. Qed.

Lemma allPairs_inner {A B : Type} (cur : A) (arr2 : list B) acc :
  fold_left (fun acc' y => (acc' ++ [(cur, y)])%list) arr2 acc
  = (acc ++ map (fun y => (cur, y)) arr2)%list.
Proof.
  revert acc. induction arr2 as [|y l IH]; intros acc; simpl.
  - rewrite app_nil_r. reflexivity.
  - rewrite IH, <- app_assoc. reflexivity.
Qed.

Lemma allPairs_list_prod {A B : Type} (arr1 : list A) (arr2 : list B) :
  allPairs arr1 arr2 = list_prod arr1 arr2.
Proof.
  unfold allPairs.
  assert (G : forall acc,
             fold_left (fun acc cur =>
                          fold_left (fun acc' y => (acc' ++ [(cur, y)])%list) arr2 acc)
               arr1 acc = (acc ++ list_prod arr1 arr2)%list).
  { induction arr1 as [|x l IH]; intros acc; simpl.
    - rewrite app_nil_r. reflexivity.
    - rewrite IH, allPairs_inner, <- app_assoc. reflexivity. }
  apply G.
Qed.

(** *** Splitting *)

Lemma join_consHead sep c l :
  l <> [] -> join sep (consHead c l) = String c (join sep l).
Proof.
  destruct l as [|h t]; [congruence|]. intros _. simpl.
  destruct t; reflexivity.
Qed.

Lemma consHead_nonempty c l : consHead c l <> [].
Proof. destruct l; discriminate. Qed.

Lemma splitOr_cons c c' s :
  splitOr (String c (String c' s))
  = if ((code c =? 124) && (code c' =? 124))%N
    then "" :: splitOr s
    else consHead c (splitOr (String c' s)).
Proof. reflexivity. Qed.

Lemma splitOr_nonempty s : splitOr s <> [].
Proof.
  destruct s as [|c [|c' s]]; rewrite ?splitOr_cons; try discriminate.
  destruct ((code c =? 124) && (code c' =? 124))%N; [discriminate|].
  apply consHead_nonempty.
Qed.

Lemma splitOr_join_upto n s :
  String.length s <= n -> join "||" (splitOr s) = s.
Proof.
  revert s. induction n as [|n IH]; intros s Hn.
  - destruct s; [reflexivity | simpl in Hn; lia].
  - destruct s as [|c [|c' s]]; [reflexivity | reflexivity |].
    rewrite splitOr_cons.
    destruct ((code c =? 124) && (code c' =? 124))%N eqn:E.
    + apply andb_true_iff in E. destruct E as [E1 E2].
      apply code_eqb_true in E1, E2. simpl in E1, E2. subst.
      assert (Hs : join "||" (splitOr s) = s) by (apply IH; simpl in Hn; lia).
      unfold join in *.
      destruct (splitOr s) as [|h t] eqn:Es; [exfalso; eapply splitOr_nonempty; eauto|].
      change (String.concat "||" ("" :: h :: t))
        with ("" ++ "||" ++ String.concat "||" (h :: t)).
      rewrite Hs. reflexivity.
    + rewrite join_consHead by apply splitOr_nonempty.
      rewrite IH by (simpl in *; lia). reflexivity.
Qed.

Lemma splitOr_join s : join "||" (splitOr s) = s.
Proof. eapply splitOr_join_upto. apply Nat.le_refl. Qed.

Lemma splitOr_head c s :
  exists h r, splitOr (String c s) = h :: r /\ (h = "" \/ exists h', h = String c h').
Proof.
  destruct s as [|c' s].
  - exists (String c ""), []. split; [reflexivity | right; eauto].
  - rewrite splitOr_cons. destruct ((code c =? 124) && (code c' =? 124))%N.
    + exists "", (splitOr s). auto.
    + destruct (splitOr (String c' s)) as [|h r]; simpl.
      * exists (String c ""), []. split; [reflexivity | right; eauto].
      * exists (String c h), r. split; [reflexivity | right; eauto].
Qed.

(** No piece of the split holds the separator. *)
Lemma splitOr_pieces_upto n s t :
  String.length s <= n -> In t (splitOr s) -> includes "||" t = false.
Proof.
  revert s t. induction n as [|n IH]; intros s t Hn.
  - destruct s; [|simpl in Hn; lia]. intros [<- | []]. reflexivity.
  - destruct s as [|c [|c' s]].
    + intros [<- | []]. reflexivity.
    + intros [<- | []]. cbn [includes startsWith]. rewrite andb_false_r. reflexivity.
    + rewrite splitOr_cons.
      destruct ((code c =? 124) && (code c' =? 124))%N eqn:E.
      * intros [<- | H]; [reflexivity|]. apply (IH s); [simpl in Hn; lia | exact H].
      * assert (Hs : String.length (String c' s) <= n) by (simpl in Hn; simpl; lia).
        destruct (splitOr_head c' s) as (h & r & Eh & Hh). rewrite Eh. simpl.
        intros [<- | H].
        -- cbn [includes]. rewrite (IH (String c' s) h Hs) by (rewrite Eh; left; reflexivity).
           rewrite orb_false_r. cbn [startsWith].
           destruct Hh as [-> | (h' & ->)]; [apply andb_false_r|].
           cbn [startsWith]. rewrite andb_true_r.
           destruct (Ascii.eqb_spec "|" c) as [<-|]; [|reflexivity].
           destruct (Ascii.eqb_spec "|" c') as [<-|]; [discriminate E | reflexivity].
        -- apply (IH (String c' s) t Hs). rewrite Eh. right. exact H.
Qed.

Lemma splitOr_pieces s t : In t (splitOr s) -> includes "||" t = false.
Proof. eapply splitOr_pieces_upto. apply Nat.le_refl. Qed.

Lemma in_consHead c l t :
  In t (consHead c l) ->
  (exists h, t = String c h /\ (l = [] /\ h = "" \/ exists r, l = h :: r))
  \/ (exists h r, l = h :: r /\ In t r).
Proof.
  destruct l as [|h r]; simpl.
  - intros [<- | []]. left. exists "". auto.
  - intros [<- | H].
    + left. exists h. split; [reflexivity|]. right. eauto.
    + right. eauto.
Qed.

Lemma splitSpace_tokens inSep s t :
  In t (splitSpaceFrom inSep s) -> all (fun c => negb (isSpace c)) t = true.
Proof.
  revert inSep t. induction s as [|c s IH]; intros inSep t; simpl.
  - intros [<- | []]. reflexivity.
  - destruct (isSpace c) eqn:Ec.
    + destruct inSep.
      * apply IH.
      * intros [<- | H]; [reflexivity | eapply IH; eauto].
    + intros H. apply in_consHead in H.
      destruct H as [(h & -> & [[E ->] | (r & E)]) | (h & r & E & H)].
      * simpl. rewrite Ec. reflexivity.
      * simpl. rewrite Ec. simpl. apply (IH false). rewrite E. left. reflexivity.
      * apply (IH false). rewrite E. right. assumption.
Qed.

Lemma coerceRange_wildcard t :
  Spec.wildcard t -> t <> "" -> coerceRange t = ">=0.0.0".
Proof. intros [-> | [-> | [-> | ->]]] H; reflexivity || congruence. Qed.

(** The only wildcard [coerceRange] leaves is the empty comparator. *)
Lemma coerceRange_leaves_empty t : Spec.wildcard (coerceRange t) -> t = "".
Proof.
  unfold coerceRange. destruct (Regex.x t) eqn:E.
  - intros [H | [H | [H | H]]]; discriminate.
  - intros [-> | [-> | [-> | ->]]]; reflexivity || discriminate.
Qed.

Section Expand.
Context {sv : semver.API}.

Lemma mapM_Forall2 {A B : Type} (f : A -> outcome B) l ys :
  mapM f l = Ret ys -> Forall2 (fun x y => f x = Ret y) l ys.
Proof.
  revert ys. induction l as [|x l IH]; intros ys; simpl.
  - intros H. injection H as <-. constructor.
  - destruct (f x) as [y|] eqn:E; [|discriminate]. simpl.
    destruct (mapM f l) as [ys'|]; [|discriminate]. simpl.
    intros H. injection H as <-. constructor; auto.
Qed.

Lemma Forall2_map_r {A B : Type} (f : A -> B) (P : A -> B -> Prop) l :
  (forall x, In x l -> P x (f x)) -> Forall2 P l (map f l).
Proof.
  induction l as [|x l IH]; intros H; simpl; constructor.
  - apply H. left. reflexivity.
  - apply IH. intros y Hy. apply H. right. assumption.
Qed.

(** Each argument is normalised, split on the union separator and then on
    white space; the wildcards [x], [X] and [*] become [>=0.0.0]; no
    duplicate is left in any conjunction of the result, and no wildcard but
    the empty comparator. *)
Lemma expandRanges_conjunctions (ranges : list string)
        (rangeUnions : list (list (list string))) :
  expandRanges ranges = Ret rangeUnions ->
  Forall2 (fun range rangeUnion =>
    exists validRange,
      semver.validRange range = Some validRange /\
      join "||" (splitOr validRange) = validRange /\
      (forall part, In part (splitOr validRange) -> includes "||" part = false) /\
      Forall2 (fun part conjunction =>
        (forall c, In c conjunction <-> In c (map coerceRange (splitSpace part))) /\
        (forall t, In t (splitSpace part) ->
                   all (fun c => negb (isSpace c)) t = true) /\
        (forall t, In t (splitSpace part) -> Spec.wildcard t -> t <> "" ->
                   coerceRange t = ">=0.0.0" /\ In ">=0.0.0" conjunction) /\
        (forall c, In c conjunction -> Spec.wildcard c -> c = "") /\
        NoDup conjunction)
        (splitOr validRange) rangeUnion)
    ranges rangeUnions.
Proof.
  intros H. apply mapM_Forall2 in H.
  eapply Forall2_impl; [|exact H]. clear H.
  intros range rangeUnion H. unfold expandRange in H.
  destruct (semver.validRange range) as [validRange|]; [|discriminate].
  injection H as <-. exists validRange. split; [reflexivity|].
  split; [apply splitOr_join|].
  split; [apply splitOr_pieces|].
  apply Forall2_map_r. intros part _. repeat split.
  - apply distinct_in.
  - apply distinct_in.
  - intros t Ht. eapply splitSpace_tokens. exact Ht.
  - apply coerceRange_wildcard; assumption.
  - apply distinct_in. rewrite <- (coerceRange_wildcard t) by assumption.
    apply in_map. assumption.
  - intros c Hc W. apply (proj1 (distinct_in _ _)) in Hc. apply in_map_iff in Hc.
    destruct Hc as (t & <- & _). rewrite (coerceRange_leaves_empty _ W). reflexivity.
  - apply distinct_nodup.
Qed.

End Expand.

(** ** The intersection engine *)

Section Engine.
Context {sv : semver.API}.

Lemma reduceM_app {A B : Type} (f : B -> A -> outcome B) l1 l2 acc :
  reduceM f (l1 ++ l2)%list acc = (acc' <- reduceM f l1 acc ;; reduceM f l2 acc').
Proof.
  revert acc. induction l1 as [|x l1 IH]; intros acc; simpl; [reflexivity|].
  destruct (f acc x); simpl; [apply IH | reflexivity].
Qed.

Lemma mapPairs_spec error pairs :
  mapPairs error pairs =
  (match error with
   | Some e => Some e
   | None => hd_error (failures pairs)
   end,
   map (fun pr => match foldPair pr with Ret b => Some b | Throw _ => None end) pairs).
Proof.
  revert error. induction pairs as [|[bound ranges] pairs IH]; intros error.
  - destruct error; reflexivity.
  - cbn [mapPairs tryPair]. unfold failures, foldPair. cbn [flat_map map fst snd].
    destruct (reduceM updateBounds ranges bound) as [b|e].
    + rewrite IH. reflexivity.
    + rewrite IH. destruct error; reflexivity.
Qed.

Lemma filterBoolean_survivors pairs :
  filterBoolean
    (map (fun pr => match foldPair pr with Ret b => Some b | Throw _ => None end) pairs)
  = survivors pairs.
Proof.
  induction pairs as [|pr pairs IH]; [reflexivity|].
  unfold survivors. cbn [map flat_map]. 
  destruct (foldPair pr); cbn [filterBoolean app]; rewrite IH; reflexivity.
Qed.

Lemma intersectStep_spec boundsUnion rangeUnion :
  intersectStep boundsUnion rangeUnion =
  match survivors (list_prod boundsUnion rangeUnion),
        failures (list_prod boundsUnion rangeUnion) with
  | b :: bs, _ => Ret (b :: bs)
  | [], e :: _ => Throw e
  | [], [] => Throw ThrownUndefined
  end.
Proof.
  unfold intersectStep. rewrite allPairs_list_prod, mapPairs_spec, filterBoolean_survivors.
  destruct (survivors (list_prod boundsUnion rangeUnion)); [|reflexivity].
  destruct (failures (list_prod boundsUnion rangeUnion)); reflexivity.
Qed.

Lemma reduceM_throws {A B : Type} (f : B -> A -> outcome B) l acc e :
  reduceM f l acc = Throw e ->
  exists done x rest acc',
    l = (done ++ x :: rest)%list /\ reduceM f done acc = Ret acc' /\ f acc' x = Throw e.
Proof.
  revert acc. induction l as [|x l IH]; intros acc; simpl; [discriminate|].
  destruct (f acc x) as [acc1|e1] eqn:E; simpl.
  - intros H. destruct (IH _ H) as (done & y & rest & acc' & -> & Hd & Hy).
    exists (x :: done), y, rest, acc'. simpl. rewrite E. simpl. auto.
  - intros H. injection H as <-. exists [], x, l, acc. auto.
Qed.

Lemma expandRanges_nonempty ranges rangeUnions :
  expandRanges ranges = Ret rangeUnions -> Forall (fun u => u <> []) rangeUnions.
Proof.
  intros H. apply mapM_Forall2 in H. induction H as [|range u l us Hu _ IH]; constructor.
  - unfold expandRange in Hu. destruct (semver.validRange range) as [v|]; [|discriminate].
    injection Hu as <-. intros E. apply map_eq_nil in E. eapply splitOr_nonempty; eauto.
  - exact IH.
Qed.

Lemma intersectUnions_nonempty rangeUnions boundsUnion result :
  reduceM intersectStep rangeUnions boundsUnion = Ret result ->
  boundsUnion <> [] -> result <> [].
Proof.
  revert boundsUnion. induction rangeUnions as [|u l IH]; intros bu; simpl.
  - intros H. injection H as <-. auto.
  - rewrite intersectStep_spec.
    destruct (survivors (list_prod bu u)) as [|b bs].
    + destruct (failures (list_prod bu u)); discriminate.
    + simpl. intros H _. apply (IH _ H). discriminate.
Qed.

Lemma list_prod_nonempty {A B : Type} (l1 : list A) (l2 : list B) :
  l1 <> [] -> l2 <> [] -> list_prod l1 l2 <> [].
Proof.
  destruct l1 as [|x l1]; [congruence|]. destruct l2 as [|y l2]; [congruence|].
  discriminate.
Qed.

Lemma failures_nonempty pairs :
  pairs <> [] -> survivors pairs = [] -> exists e others, failures pairs = e :: others.
Proof.
  destruct pairs as [|pr pairs]; [congruence|]. intros _.
  unfold survivors, failures. simpl. destruct (foldPair pr); [discriminate|].
  simpl. eauto.
Qed.

(** C1: the union of bound pairs starts as [[{}]]; at each input every pair
    is folded on its own, those that throw are dropped, and the step throws
    only when none is left, with the first error caught at that step. *)
Theorem intersect_folding :
  intersectUnions [] = Ret [noBounds] /\
  (forall rangeUnions rangeUnion,
      intersectUnions (rangeUnions ++ [rangeUnion]) =
      (boundsUnion <- intersectUnions rangeUnions ;; intersectStep boundsUnion rangeUnion)) /\
  (forall boundsUnion rangeUnion,
      intersectStep boundsUnion rangeUnion =
      match survivors (list_prod boundsUnion rangeUnion),
            failures (list_prod boundsUnion rangeUnion) with
      | b :: bs, _ => Ret (b :: bs)
      | [], e :: _ => Throw e
      | [], [] => Throw ThrownUndefined
      end) /\
  (forall rangeUnions e,
      intersectUnions rangeUnions = Throw e ->
      exists done rangeUnion rest boundsUnion,
        rangeUnions = (done ++ rangeUnion :: rest)%list /\
        intersectUnions done = Ret boundsUnion /\
        survivors (list_prod boundsUnion rangeUnion) = [] /\
        e = hd ThrownUndefined (failures (list_prod boundsUnion rangeUnion))) /\
  (forall ranges rangeUnions e,
      expandRanges ranges = Ret rangeUnions ->
      intersectUnions rangeUnions = Throw e ->
      intersect ranges = Throw e /\
      exists done rangeUnion rest boundsUnion others,
        rangeUnions = (done ++ rangeUnion :: rest)%list /\
        intersectUnions done = Ret boundsUnion /\
        survivors (list_prod boundsUnion rangeUnion) = [] /\
        failures (list_prod boundsUnion rangeUnion) = e :: others).
Proof.
  split; [reflexivity|]. split.
  { intros rangeUnions rangeUnion. unfold intersectUnions.
    rewrite reduceM_app. destruct (reduceM intersectStep rangeUnions [noBounds]); simpl;
      [|reflexivity].
    destruct (intersectStep a rangeUnion); reflexivity. }
  split; [apply intersectStep_spec|]. split.
  - intros rangeUnions e H. unfold intersectUnions in H.
    apply reduceM_throws in H.
    destruct H as (done & rangeUnion & rest & boundsUnion & -> & Hd & Hs).
    exists done, rangeUnion, rest, boundsUnion. repeat split; [assumption | |].
    + rewrite intersectStep_spec in Hs.
      destruct (survivors (list_prod boundsUnion rangeUnion)); [reflexivity|].
      discriminate.
    + rewrite intersectStep_spec in Hs.
      destruct (survivors (list_prod boundsUnion rangeUnion)); [|discriminate].
      destruct (failures (list_prod boundsUnion rangeUnion)); simpl; congruence.
  - intros ranges rangeUnions e H1 H2. split.
    + unfold intersect. rewrite H1. simpl. rewrite H2. reflexivity.
    + pose proof (expandRanges_nonempty _ _ H1) as Hne.
      unfold intersectUnions in H2. apply reduceM_throws in H2.
      destruct H2 as (done & rangeUnion & rest & boundsUnion & -> & Hd & Hs).
      rewrite intersectStep_spec in Hs.
      destruct (survivors (list_prod boundsUnion rangeUnion)) eqn:Es; [|discriminate].
      assert (Hp : list_prod boundsUnion rangeUnion <> []).
      { apply list_prod_nonempty.
        - eapply intersectUnions_nonempty; [exact Hd | discriminate].
        - apply Forall_app in Hne. destruct Hne as [_ Hne]. inversion Hne. assumption. }
      destruct (failures_nonempty _ Hp Es) as (e' & others & Ef).
      rewrite Ef in Hs. injection Hs as ->.
      exists done, rangeUnion, rest, boundsUnion, others. auto.
Qed.

(** C10: without arguments the union stays [[{}]], which is formatted as
    the empty string. *)
Theorem intersect_no_arguments :
  intersectUnions [] = Ret [noBounds] /\
  formatIntersection noBounds = "" /\
  intersect [] = Ret "".
Proof. repeat split. Qed.

End Engine.

(** ** The comparator parser *)

Section Parse.
Context {sv : semver.API}.

Lemma condition_of_run range run :
  Pattern.LeadingRun range run ->
  match Regex.condition range with
  | Some c => c
  | None => "="
  end = if run =? "" then "=" else run.
Proof.
  intros H. pose proof (condition_sound range) as S.
  destruct (Regex.condition range) as [c|].
  - destruct S as [Hne S]. rewrite (leadingRun_unique _ _ _ H S).
    apply String.eqb_neq in Hne. rewrite Hne. reflexivity.
  - rewrite (leadingRun_unique _ _ _ H S). reflexivity.
Qed.



Lemma parseRange_no_version range :
  (forall v, ~ Pattern.TrailingVersion range v) -> parseRange range = Throw TypeError.
Proof.
  intros H. unfold parseRange. destruct (Regex.version range) as [v|] eqn:E; [|reflexivity].
  exfalso. apply (H v). apply version_sound. assumption.
Qed.

End Parse.

(** ** Total orders and the narrowing of intervals *)

Module OrderFacts.
Import Order.

Lemma N_total : TotalCompare N.compare.
Proof.
  split.
  - apply N.compare_eq_iff.
  - intros a b. apply N.compare_antisym.
  - intros a b c. rewrite !N.compare_lt_iff. apply N.lt_trans.
Qed.

Lemma bool_total : TotalCompare Bool.compare.
Proof.
  split.
  - intros [] []; simpl; split; congruence.
  - intros [] []; reflexivity.
  - intros [] [] []; simpl; congruence.
Qed.

Lemma lex_total {A B : Type} (ca : A -> A -> comparison) (cb : B -> B -> comparison) :
  TotalCompare ca -> TotalCompare cb -> TotalCompare (lex ca cb).
Proof.
  intros Ha Hb. split.
  - intros [a1 b1] [a2 b2]. unfold lex. simpl.
    destruct (ca a1 a2) eqn:E.
    + apply (cmp_eq Ha) in E. subst. rewrite (cmp_eq Hb). split; congruence.
    + split; [discriminate|]. intros H. injection H as -> ->.
      rewrite (proj2 (cmp_eq Ha a2 a2) eq_refl) in E. discriminate.
    + split; [discriminate|]. intros H. injection H as -> ->.
      rewrite (proj2 (cmp_eq Ha a2 a2) eq_refl) in E. discriminate.
  - intros [a1 b1] [a2 b2]. unfold lex. simpl.
    rewrite (cmp_opp Ha a1 a2). destruct (ca a1 a2); simpl; [apply (cmp_opp Hb) | reflexivity ..].
  - intros [a1 b1] [a2 b2] [a3 b3]. unfold lex. simpl.
    destruct (ca a1 a2) eqn:E12; try discriminate.
    + apply (cmp_eq Ha) in E12. subst.
      destruct (ca a2 a3) eqn:E23; try discriminate; [|reflexivity].
      apply (cmp_trans Hb).
    + destruct (ca a2 a3) eqn:E23; try discriminate.
      * apply (cmp_eq Ha) in E23. subst. rewrite E12. reflexivity.
      * rewrite (cmp_trans Ha _ _ _ E12 E23). reflexivity.
Qed.

Section Facts.
Context {T : Type} (cmp : T -> T -> comparison) (total : TotalCompare cmp).

#[local] Abbreviation ltb := (ltb cmp).
#[local] Abbreviation max := (max cmp).
#[local] Abbreviation min := (min cmp).

Lemma cmp_refl a : cmp a a = Eq.
Proof. apply (cmp_eq total). reflexivity. Qed.

Lemma ltb_trans a b c : ltb a b = true -> ltb b c = true -> ltb a c = true.
Proof.
  unfold Order.ltb. destruct (cmp a b) eqn:E1; try discriminate.
  destruct (cmp b c) eqn:E2; try discriminate.
  rewrite (cmp_trans total _ _ _ E1 E2). reflexivity.
Qed.

Lemma ltb_asym a b : ltb a b = true -> ltb b a = false.
Proof.
  unfold Order.ltb. rewrite (cmp_opp total a b). destruct (cmp a b); simpl; congruence.
Qed.

(** Neither below the other: equal. *)
Lemma ltb_total a b : ltb a b = false -> ltb b a = false -> a = b.
Proof.
  unfold Order.ltb. rewrite (cmp_opp total a b). destruct (cmp a b) eqn:E; simpl; try discriminate.
  intros _ _. apply (cmp_eq total). assumption.
Qed.

(** [a <= b < c] *)
Lemma le_ltb_trans a b c : ltb b a = false -> ltb b c = true -> ltb a c = true.
Proof.
  intros H1 H2. destruct (ltb a b) eqn:E.
  - eapply ltb_trans; eassumption.
  - rewrite (ltb_total _ _ E H1). assumption.
Qed.

(** [a < b <= c] *)
Lemma ltb_le_trans a b c : ltb a b = true -> ltb c b = false -> ltb a c = true.
Proof.
  intros H1 H2. destruct (ltb b c) eqn:E.
  - eapply ltb_trans; eassumption.
  - rewrite <- (ltb_total _ _ E H2). assumption.
Qed.

Lemma max_ltb a b x : ltb (max a b) x = ltb a x && ltb b x.
Proof.
  unfold Order.max. destruct (ltb a b) eqn:E.
  - destruct (ltb b x) eqn:Eb; [|rewrite andb_false_r; reflexivity].
    rewrite (ltb_trans _ _ _ E Eb). reflexivity.
  - destruct (ltb a x) eqn:Ea; [|reflexivity].
    rewrite (le_ltb_trans _ _ _ E Ea). reflexivity.
Qed.

Lemma ltb_min x a b : ltb x (min a b) = ltb x a && ltb x b.
Proof.
  unfold Order.min. destruct (ltb b a) eqn:E.
  - destruct (ltb x b) eqn:Eb; [|rewrite andb_false_r; reflexivity].
    rewrite (ltb_trans _ _ _ Eb E). reflexivity.
  - destruct (ltb x a) eqn:Ea; [|reflexivity].
    rewrite (ltb_le_trans _ _ _ Ea E). reflexivity.
Qed.

Lemma max_comm a b : max a b = max b a.
Proof.
  unfold Order.max. destruct (ltb a b) eqn:E1.
  - rewrite (ltb_asym _ _ E1). reflexivity.
  - destruct (ltb b a) eqn:E2; [reflexivity|]. apply ltb_total; assumption.
Qed.

Lemma min_comm a b : min a b = min b a.
Proof.
  unfold Order.min. destruct (ltb b a) eqn:E1.
  - rewrite (ltb_asym _ _ E1). reflexivity.
  - destruct (ltb a b) eqn:E2; [reflexivity|]. symmetry. apply ltb_total; assumption.
Qed.

Lemma max_assoc a b c : max (max a b) c = max a (max b c).
Proof.
  unfold Order.max at 1 3. rewrite max_ltb.
  unfold Order.max.
  destruct (ltb a b) eqn:Eab, (ltb b c) eqn:Ebc, (ltb a c) eqn:Eac; simpl;
    rewrite ?Eab, ?Ebc, ?Eac; try reflexivity;
    try (rewrite (ltb_trans _ _ _ Eab Ebc) in Eac; discriminate);
    try (rewrite (le_ltb_trans _ _ _ Eab Ebc) in Eac; discriminate).
Qed.

Lemma min_assoc a b c : min (min a b) c = min a (min b c).
Proof.
  unfold Order.min at 1 3. rewrite ltb_min.
  unfold Order.min.
  destruct (ltb b a) eqn:Eab, (ltb c b) eqn:Ebc, (ltb c a) eqn:Eac; simpl;
    rewrite ?Eab, ?Ebc, ?Eac; try reflexivity;
    try (rewrite (ltb_trans _ _ _ Ebc Eab) in Eac; discriminate);
    try (rewrite (ltb_le_trans _ _ _ Ebc Eab) in Eac; discriminate).
Qed.

#[local] Abbreviation olt := (olt cmp).
#[local] Abbreviation omax := (omax cmp).
#[local] Abbreviation omin := (omin cmp).

Lemma omax_olt a b x : olt (omax a b) x = olt a x && olt b x.
Proof.
  destruct a as [a|], b as [b|], x as [x|]; simpl; rewrite ?andb_true_r; try reflexivity.
  apply max_ltb.
Qed.

Lemma olt_omin x a b : olt x (omin a b) = olt x a && olt x b.
Proof.
  destruct a as [a|], b as [b|], x as [x|]; simpl; rewrite ?andb_true_r; try reflexivity.
  apply ltb_min.
Qed.

Lemma omax_swap a b c : omax (omax a b) c = omax (omax a c) b.
Proof.
  destruct a as [a|], b as [b|], c as [c|]; simpl; try reflexivity.
  - f_equal. rewrite !max_assoc. f_equal. apply max_comm.
  - f_equal. apply max_comm.
Qed.

Lemma omin_swap a b c : omin (omin a b) c = omin (omin a c) b.
Proof.
  destruct a as [a|], b as [b|], c as [c|]; simpl; try reflexivity.
  - f_equal. rewrite !min_assoc. f_equal. apply min_comm.
  - f_equal. apply min_comm.
Qed.

(** Narrowing by two intervals does not depend on their order. *)
Lemma narrow_swap st c1 c2 :
  match narrow cmp st c1 with Some s => narrow cmp s c2 | None => None end
  = match narrow cmp st c2 with Some s => narrow cmp s c1 | None => None end.
Proof.
  destruct st as [lo hi], c1 as [nl1 nh1], c2 as [nl2 nh2]. unfold narrow. simpl.
  destruct (olt nl1 hi) eqn:A1, (olt lo nh1) eqn:B1,
           (olt nl2 hi) eqn:A2, (olt lo nh2) eqn:B2; simpl;
    rewrite ?olt_omin, ?omax_olt, ?A1, ?B1, ?A2, ?B2; simpl;
    rewrite ?andb_false_r; try reflexivity.
  rewrite (omax_swap lo nl1 nl2), (omin_swap hi nh1 nh2).
  destruct (olt nl2 nh1), (olt nl1 nh2); reflexivity.
Qed.

Lemma narrowAll_permutation l1 l2 :
  Permutation l1 l2 -> forall st, narrowAll cmp l1 st = narrowAll cmp l2 st.
Proof.
  induction 1 as [|x l1 l2 _ IH|x y l|l1 l2 l3 _ IH1 _ IH2]; intros st; simpl.
  - reflexivity.
  - destruct (narrow cmp st x); [apply IH | reflexivity].
  - pose proof (narrow_swap st y x) as S.
    destruct (narrow cmp st y) as [s1|], (narrow cmp st x) as [s2|];
      try rewrite S; try rewrite <- S; reflexivity.
  - rewrite IH1. apply IH2.
Qed.

End Facts.
End OrderFacts.

(** ** Plain comparators on the reference instance *)

Module PlainFacts.

#[local] Abbreviation parseComparatorString := parseRange.

Import NodeSemver Plain.

Lemma compareKey_total : Order.TotalCompare compareKey.
Proof.
  repeat apply OrderFacts.lex_total; apply OrderFacts.N_total.
Qed.

Lemma compareCut_total : Order.TotalCompare compareCut.
Proof.
  apply OrderFacts.lex_total; [apply compareKey_total | apply OrderFacts.bool_total].
Qed.

(** *** Numbers *)

Lemma all_digits_uint s :
  all isDigit s = true -> exists d, NilEmpty.uint_of_string s = Some d.
Proof.
  induction s as [|c s IH]; simpl; [eauto|].
  intros H. apply andb_true_iff in H. destruct H as [Hc Hs].
  destruct (IH Hs) as (d & ->). clear - Hc.
  char_cases c; simpl; eauto.
Qed.

Lemma numeric_digits s : numeric s = true -> s <> "" /\ all isDigit s = true.
Proof.
  destruct s as [|c [|c' s]]; simpl; [discriminate| |].
  - intros ->. split; [discriminate | reflexivity].
  - intros H. split; [discriminate|].
    apply andb_true_iff in H. destruct H as [_ H]. exact H.
Qed.

(** A numeral without leading zero is its own normal form. *)
Lemma numeric_uint s :
  numeric s = true ->
  exists d, NilZero.uint_of_string s = Some d /\ Decimal.unorm d = d.
Proof.
  intros H. destruct (numeric_digits _ H) as [Hne Hd].
  destruct (all_digits_uint _ Hd) as (d & E).
  exists d. split; [destruct s; [congruence | exact E]|].
  destruct s as [|c [|c' s]]; [congruence | |].
  - simpl in E. clear - E H. simpl in H. revert E. char_cases c; intros E; injection E as <-; reflexivity.
  - simpl in H. apply andb_true_iff in H. destruct H as [H _].
    apply andb_true_iff in H. destruct H as [Hc Hz].
    change (NilEmpty.uint_of_string (String c (String c' s)))
      with (uint_of_char c (NilEmpty.uint_of_string (String c' s))) in E.
    destruct (NilEmpty.uint_of_string (String c' s)) as [d'|]; [|discriminate].
    clear - E Hc Hz. revert E Hz. char_cases c; intros E; injection E as <-; intros; reflexivity || discriminate.
Qed.

Lemma numberOf_inj a b :
  numeric a = true -> numeric b = true -> numberOf a = numberOf b -> a = b.
Proof.
  intros Ha Hb. unfold numberOf.
  destruct (numeric_uint _ Ha) as (da & Ea & Na), (numeric_uint _ Hb) as (db & Eb & Nb).
  rewrite Ea, Eb. intros H. apply DecimalN.Unsigned.of_inj in H.
  rewrite Na, Nb in H. subst db.
  apply NilZero.sus in Ea, Eb. congruence.
Qed.

(** *** Versions without prerelease tag *)

Lemma splitDot_nonempty s : splitDot s <> [].
Proof.
  destruct s as [|c s]; simpl; [discriminate|].
  destruct (code c =? 46)%N; [discriminate | apply consHead_nonempty].
Qed.

Lemma mapOption_nil {A B : Type} (f : A -> option B) l :
  mapOption f l = Some [] -> l = [].
Proof.
  destruct l as [|x l]; [reflexivity|]. simpl.
  destruct (f x); [|discriminate]. destruct (mapOption f l); discriminate.
Qed.

Lemma parseVersion_plain r v :
  parseVersion r = Some v -> pre v = [] ->
  exists a b c,
    r = a ++ "." ++ b ++ "." ++ c /\
    numeric a = true /\ numeric b = true /\ numeric c = true /\
    v = mkSemVer (numberOf a) (numberOf b) (numberOf c) [].
Proof.
  unfold parseVersion.
  destruct (Regex.digits r) as [[a r1]|] eqn:E1; [|discriminate].
  destruct (Regex.dot r1) as [r2|] eqn:E2; [|discriminate].
  destruct (Regex.digits r2) as [[b r3]|] eqn:E3; [|discriminate].
  destruct (Regex.dot r3) as [r4|] eqn:E4; [|discriminate].
  destruct (Regex.digits r4) as [[c r5]|] eqn:E5; [|discriminate].
  destruct (numeric a && numeric b && numeric c) eqn:En; [|discriminate].
  apply andb_true_iff in En. destruct En as [En Hc].
  apply andb_true_iff in En. destruct En as [Ha Hb].
  apply digits_sound in E1, E3, E5. apply dot_spec in E2, E4.
  destruct E1 as (-> & _ & _), E3 as (-> & _ & _), E5 as (-> & _ & _). subst.
  destruct r5 as [|h t].
  - intros H _. injection H as <-. exists a, b, c. repeat split; try assumption.
    rewrite append_nil_r. str_norm. reflexivity.
  - destruct (code h =? 45)%N; [|discriminate].
    destruct (mapOption parseIdentifier (splitDot t)) as [ids|] eqn:Ei; [|discriminate].
    intros H Hp. injection H as <-. simpl in Hp. subst ids.
    apply mapOption_nil in Ei. exfalso. eapply splitDot_nonempty; eauto.
Qed.

Lemma parseVersion_plain_inj r1 r2 v1 v2 :
  parseVersion r1 = Some v1 -> pre v1 = [] ->
  parseVersion r2 = Some v2 -> pre v2 = [] ->
  keyOf v1 = keyOf v2 -> r1 = r2.
Proof.
  intros H1 P1 H2 P2 K.
  destruct (parseVersion_plain _ _ H1 P1) as (a1 & b1 & c1 & -> & A1 & B1 & C1 & ->).
  destruct (parseVersion_plain _ _ H2 P2) as (a2 & b2 & c2 & -> & A2 & B2 & C2 & ->).
  unfold keyOf in K. simpl in K. injection K as Ka Kb Kc.
  apply numberOf_inj in Ka, Kb, Kc; try assumption. subst. reflexivity.
Qed.

Lemma parseVersion_plain_core r v :
  parseVersion r = Some v -> pre v = [] -> Pattern.Matches Pattern.core r.
Proof.
  intros H P. destruct (parseVersion_plain _ _ H P) as (a & b & c & -> & A & B & C & _).
  apply matches_core. exists a, b, c.
  unfold Pattern.Number. repeat split; try apply numeric_digits; assumption.
Qed.

Lemma compareSemVer_plain v w :
  pre v = [] -> pre w = [] -> compareSemVer v w = compareKey (keyOf v) (keyOf w).
Proof.
  intros Pv Pw. unfold compareSemVer, compareMain, comparePre, compareKey, Order.lex, keyOf.
  rewrite Pv, Pw. simpl.
  destruct (major v ?= major w)%N; try reflexivity.
  destruct (minor v ?= minor w)%N; try reflexivity.
  destruct (patch v ?= patch w)%N; reflexivity.
Qed.

(** *** Comparators *)

Lemma comparator_plainAt c o k :
  comparator c = Some (o, k) ->
  exists r v, PlainAt c o r v /\ keyOf v = k /\ parseOperator c = (o, r).
Proof.
  unfold comparator. destruct (parseOperator c) as [o' r] eqn:E.
  destruct (formatOperator o' ++ r =? c) eqn:Ec; [|discriminate].
  apply String.eqb_eq in Ec.
  destruct (parseVersion r) as [v|] eqn:Ev; [|discriminate].
  destruct (pre v) eqn:Ep; [|discriminate].
  intros H. injection H as <- <-. exists r, v. unfold PlainAt. auto.
Qed.

Lemma plainAt_head c o r v :
  PlainAt c o r v -> exists x r', r = String x r' /\ isDigit x = true.
Proof.
  intros (_ & H & P). apply core_head. eapply parseVersion_plain_core; eauto.
Qed.

Lemma parseOperator_format o r x r' :
  r = String x r' -> isDigit x = true -> parseOperator (formatOperator o ++ r) = (o, r).
Proof.
  intros -> Hx.
  assert (E1 : (code x =? 61)%N = false) by (clear - Hx; char_cases x).
  assert (E2 : (code x =? 60)%N = false) by (clear - Hx; char_cases x).
  assert (E3 : (code x =? 62)%N = false) by (clear - Hx; char_cases x).
  destruct o; simpl; rewrite ?E1, ?E2, ?E3; reflexivity.
Qed.

Lemma plainAt_comparator c o r v :
  PlainAt c o r v -> comparator c = Some (o, keyOf v).
Proof.
  intros H. destruct (plainAt_head _ _ _ _ H) as (x & r' & Er & Hx).
  destruct H as (-> & Hv & Hp). unfold comparator.
  rewrite (parseOperator_format o _ _ _ Er Hx), String.eqb_refl, Hv, Hp. reflexivity.
Qed.

Lemma version_whole s : Regex.wholeVersion s = true -> Regex.version s = Some s.
Proof.
  intros H. destruct s; [discriminate H|]. cbn [Regex.version]. rewrite H. reflexivity.
Qed.

Lemma version_skip x s :
  isDigit x = false -> Regex.version (String x s) = Regex.version s.
Proof.
  intros H. cbn [Regex.version].
  replace (Regex.wholeVersion (String x s)) with false; [reflexivity|].
  unfold Regex.wholeVersion, Regex.core, Regex.digits. simpl. rewrite H. reflexivity.
Qed.

Lemma plainAt_version c o r v : PlainAt c o r v -> Regex.version c = Some r.
Proof.
  intros (-> & Hv & Hp).
  assert (W : Regex.version r = Some r).
  { apply version_whole, wholeVersion_iff, matches_version.
    exists r, "". rewrite append_nil_r. repeat split.
    - eapply parseVersion_plain_core; eauto.
    - apply matches_tag. auto. }
  destruct o; simpl; rewrite ?version_skip by reflexivity; exact W.
Qed.

Lemma plainAt_condition c o r v :
  PlainAt c o r v ->
  match Regex.condition c with Some x => x | None => "=" end = conditionOf o.
Proof.
  intros H. destruct (plainAt_head _ _ _ _ H) as (x & r' & -> & Hx).
  destruct H as (-> & _ & _).
  assert (E : isCond x = false) by (clear - Hx; char_cases x).
  unfold Regex.condition. destruct o; simpl; rewrite E; reflexivity.
Qed.

Lemma plainAt_prerelease c o r v : PlainAt c o r v -> NodeSemver.prerelease r = None.
Proof. intros (_ & Hv & Hp). unfold NodeSemver.prerelease. rewrite Hv, Hp. reflexivity. Qed.

Lemma plainAt_parseRange c o r v :
  PlainAt c o r v ->
  parseComparatorString (sv := api) c = Ret (mkParsed (conditionOf o) None r).
Proof.
  intros H. unfold parseComparatorString.
  rewrite (plainAt_version _ _ _ _ H), (plainAt_condition _ _ _ _ H).
  simpl. rewrite (plainAt_prerelease _ _ _ _ H). reflexivity.
Qed.

(** *** The reference instance on plain comparators *)

Lemma plainChar_not_space x : isPlainChar x = true -> negb (isSpace x) = true.
Proof. char_cases x. Qed.

Lemma plainChar_not_bar x : isPlainChar x = true -> negb (code x =? 124)%N = true.
Proof. char_cases x. Qed.

Lemma digit_plainChar x : isDigit x = true -> isPlainChar x = true.
Proof. intros H. unfold isPlainChar. rewrite H. reflexivity. Qed.

Lemma core_plainChars v : Pattern.Matches Pattern.core v -> all isPlainChar v = true.
Proof.
  intros H. apply matches_core in H.
  destruct H as (a & b & c & [_ Ha] & [_ Hb] & [_ Hc] & ->).
  rewrite !all_append. simpl.
  rewrite (all_impl _ _ _ digit_plainChar Ha), (all_impl _ _ _ digit_plainChar Hb),
    (all_impl _ _ _ digit_plainChar Hc). reflexivity.
Qed.

Lemma plainAt_chars c o r v : PlainAt c o r v -> all isPlainChar c = true.
Proof.
  intros (-> & Hv & Hp). rewrite all_append.
  rewrite (core_plainChars _ (parseVersion_plain_core _ _ Hv Hp)), andb_true_r.
  destruct o; reflexivity.
Qed.

Lemma splitOr_plain s :
  all (fun x => negb (code x =? 124)%N) s = true -> splitOr s = [s].
Proof.
  induction s as [|c s IH]; [reflexivity|]. intros H.
  simpl in H. apply andb_true_iff in H. destruct H as [Hc Hs].
  apply negb_true_iff in Hc. destruct s as [|c' s].
  - reflexivity.
  - rewrite splitOr_cons, Hc. simpl andb. cbv iota. rewrite (IH Hs). reflexivity.
Qed.

Lemma splitSpace_plain s :
  all (fun x => negb (isSpace x)) s = true -> splitSpace s = [s].
Proof.
  unfold splitSpace. induction s as [|c s IH]; [reflexivity|]. intros H.
  simpl in H. apply andb_true_iff in H. destruct H as [Hc Hs].
  apply negb_true_iff in Hc. simpl. rewrite Hc, (IH Hs). reflexivity.
Qed.

Lemma trimEnd_plain s : all (fun x => negb (isSpace x)) s = true -> trimEnd s = s.
Proof.
  induction s as [|c s IH]; [reflexivity|]. intros H.
  simpl in H. apply andb_true_iff in H. destruct H as [Hc Hs].
  apply negb_true_iff in Hc. simpl. rewrite (IH Hs), Hc. destruct s; reflexivity.
Qed.

Lemma trim_plain s : all (fun x => negb (isSpace x)) s = true -> trim s = s.
Proof.
  intros H. unfold trim.
  assert (E : trimStart s = s).
  { destruct s as [|c s]; [reflexivity|]. simpl in *.
    apply andb_true_iff in H. destruct H as [Hc _].
    apply negb_true_iff in Hc. rewrite Hc. reflexivity. }
  rewrite E. apply trimEnd_plain. assumption.
Qed.

Lemma plainAt_parseComparator c o r v :
  PlainAt c o r v -> parseComparator c = Some (mkComparator o v).
Proof.
  intros H. destruct (plainAt_head _ _ _ _ H) as (x & r' & Er & Hx).
  destruct H as (-> & Hv & _). unfold parseComparator.
  rewrite (parseOperator_format o _ _ _ Er Hx), Hv. reflexivity.
Qed.

Lemma plainAt_range c o r v :
  PlainAt c o r v -> NodeSemver.parseRange c = Some [[mkComparator o v]].
Proof.
  intros H. pose proof (plainAt_chars _ _ _ _ H) as Hc.
  unfold NodeSemver.parseRange.
  rewrite (splitOr_plain c (all_impl _ _ _ plainChar_not_bar Hc)).
  cbn [mapOption]. unfold parseSet.
  rewrite (trim_plain c (all_impl _ _ _ plainChar_not_space Hc)).
  replace (c =? "") with false.
  - rewrite (splitSpace_plain c (all_impl _ _ _ plainChar_not_space Hc)).
    cbn [hyphenRange glue mapOption]. unfold desugar.
    rewrite (plainAt_parseComparator _ _ _ _ H). reflexivity.
  - symmetry. apply String.eqb_neq. intros ->.
    destruct (plainAt_head _ _ _ _ H) as (x & r' & -> & _).
    destruct H as (E & _). destruct o; discriminate.
Qed.

Lemma plainAt_satisfies c o r v r' v' :
  PlainAt c o r v -> parseVersion r' = Some v' -> pre v' = [] ->
  semver.satisfies (API := api) r' c = Ret (cmp v' o v).
Proof.
  intros H Hv' Hp'. simpl. unfold satisfies.
  rewrite (plainAt_range _ _ _ _ H), Hv'. cbn [existsb]. unfold testSet, hasPre.
  rewrite Hp'. simpl. rewrite !andb_true_r, orb_false_r. reflexivity.
Qed.

Lemma plainAt_intersects c1 o1 r1 v1 c2 o2 r2 v2 :
  PlainAt c1 o1 r1 v1 -> PlainAt c2 o2 r2 v2 ->
  semver.intersects (API := api) c1 c2
  = Ret (comparatorIntersects (mkComparator o1 v1) (mkComparator o2 v2)).
Proof.
  intros H1 H2. simpl. unfold intersects.
  rewrite (plainAt_range _ _ _ _ H1), (plainAt_range _ _ _ _ H2).
  simpl. rewrite !andb_true_r, !orb_false_r. reflexivity.
Qed.

Lemma plain_compare r1 v1 r2 v2 :
  parseVersion r1 = Some v1 -> pre v1 = [] ->
  parseVersion r2 = Some v2 -> pre v2 = [] ->
  semver.compare (API := api) r1 r2 = Ret (compareKey (keyOf v1) (keyOf v2)).
Proof.
  intros H1 P1 H2 P2. simpl. unfold compare. rewrite H1, H2.
  rewrite (compareSemVer_plain _ _ P1 P2). reflexivity.
Qed.

(** *** The checks and the merge on plain comparators *)


Lemma plainAt_nonempty c o r v : PlainAt c o r v -> (c =? "") = false.
Proof.
  intros H. apply String.eqb_neq. intros ->.
  destruct (plainAt_head _ _ _ _ H) as (x & r' & -> & _).
  destruct H as (E & _). destruct o; discriminate.
Qed.

Lemma checkBound_plain c o r v s ob rb vb :
  PlainAt c o r v -> PlainAt s ob rb vb ->
  checkBound (sv := api) c (mkParsed (conditionOf o) None r) (Some s)
  = if checkOK o v ob vb then Ret tt else Throw (incompatible c s).
Proof.
  intros H Hs. unfold checkBound. rewrite (plainAt_nonempty _ _ _ _ Hs).
  cbn [version prerelease]. unfold andM.
  destruct H as (Ec & Hv & Hp).
  rewrite (plainAt_satisfies _ _ _ _ _ _ Hs Hv Hp). cbn [bind].
  unfold checkOK. destruct (cmp v ob vb); cbn [andb]; [|reflexivity].
  rewrite (plainAt_intersects _ _ _ _ _ _ _ _ (conj Ec (conj Hv Hp)) Hs). cbn [bind].
  destruct (comparatorIntersects _ _); reflexivity.
Qed.


Lemma mergeBounds_plain c o r v s ob rb vb :
  PlainAt c o r v -> PlainAt s ob rb vb ->
  mergeBounds (sv := api) c (Some s)
  = Ret (let x := compareKey (keyOf v) (keyOf vb) in
         let strict := (conditionOf o =? "<") || (conditionOf o =? ">") in
         if (if startsWith "<" (conditionOf o) then isLt x else isGt x) then c
         else if strict && isEq x then c else s).
Proof.
  intros H Hs. unfold mergeBounds. rewrite (plainAt_nonempty _ _ _ _ Hs).
  rewrite (plainAt_parseRange _ _ _ _ H), (plainAt_parseRange _ _ _ _ Hs).
  cbn [bind version condition].
  destruct H as (Ec & Hv & Hp), Hs as (Es & Hvb & Hpb).
  unfold semver.lt, semver.gt, semver.eq, andM.
  pose proof (plain_compare _ _ _ _ Hv Hp Hvb Hpb) as C.
  set (x := compareKey (keyOf v) (keyOf vb)) in *. clearbody x.
  destruct (startsWith "<" (conditionOf o)); rewrite C; cbn [bind];
    destruct x; cbn [bind isLt isGt isEq]; try reflexivity;
    destruct ((conditionOf o =? "<") || (conditionOf o =? ">")); cbn [bind andb];
    rewrite ?C; reflexivity.
Qed.


Lemma ltb_cut k1 s1 k2 s2 :
  Order.ltb compareCut (k1, s1) (k2, s2)
  = match compareKey k1 k2 with
    | Lt => true
    | Eq => negb s1 && s2
    | Gt => false
    end.
Proof.
  unfold Order.ltb, compareCut, Order.lex. simpl.
  destruct (compareKey k1 k2); try reflexivity. destruct s1, s2; reflexivity.
Qed.

(** The check of a clause against an opposite bound succeeds exactly when
    the lower cut is below the upper cut. *)
Lemma checkOK_cut o v ob vb :
  pre v = [] -> pre vb = [] -> opposite o ob = true ->
  checkOK o v ob vb
  = Order.olt compareCut (lowerCut o (keyOf v)) (upperCut ob (keyOf vb))
    && Order.olt compareCut (lowerCut ob (keyOf vb)) (upperCut o (keyOf v)).
Proof.
  intros Pv Pb Hop.
  unfold checkOK, comparatorIntersects, cmp, testSet, hasPre. simpl.
  rewrite Pv, (compareSemVer_plain _ _ Pv Pb).
  destruct o, ob; try discriminate Hop; simpl; rewrite ?ltb_cut;
    rewrite ?(compareSemVer_plain _ _ Pv Pb);
    rewrite ?(Order.cmp_opp compareKey_total (keyOf v) (keyOf vb));
    destruct (compareKey (keyOf v) (keyOf vb)); reflexivity.
Qed.


Lemma checkBound_cuts c o r v bound :
  PlainAt c o r v -> OppositeBound o bound ->
  exists e,
    checkBound (sv := api) c (mkParsed (conditionOf o) None r) bound
    = if Order.olt compareCut (lowerCut o (keyOf v)) (snd (boundCuts bound))
         && Order.olt compareCut (fst (boundCuts bound)) (upperCut o (keyOf v))
      then Ret tt else Throw e.
Proof.
  intros H Hb. destruct bound as [s|].
  - destruct Hb as (ob & kb & Hs & Hop).
    destruct (comparator_plainAt _ _ _ Hs) as (rb & vb & Ps & <- & _).
    exists (incompatible c s). rewrite (checkBound_plain _ _ _ _ _ _ _ _ H Ps).
    destruct H as (_ & _ & Pv). pose proof Ps as (_ & _ & Pb).
    rewrite (checkOK_cut _ _ _ _ Pv Pb Hop).
    unfold boundCuts, interval. rewrite Hs. reflexivity.
  - exists TypeError. simpl. destruct (lowerCut o (keyOf v)), (upperCut o (keyOf v)); reflexivity.
Qed.

Lemma ensureCompatible_cuts1 c o r v bound :
  PlainAt c o r v -> OppositeBound o bound ->
  exists e,
    ensureCompatible (sv := api) c [bound]
    = if Order.olt compareCut (lowerCut o (keyOf v)) (snd (boundCuts bound))
         && Order.olt compareCut (fst (boundCuts bound)) (upperCut o (keyOf v))
      then Ret tt else Throw e.
Proof.
  intros H Hb. destruct (checkBound_cuts _ _ _ _ _ H Hb) as (e & E).
  exists e. unfold ensureCompatible. rewrite (plainAt_parseRange _ _ _ _ H).
  cbn [bind forEachM]. rewrite E.
  destruct (_ && _); reflexivity.
Qed.

Lemma ensureCompatible_cuts2 c o r v b1 b2 :
  PlainAt c o r v -> OppositeBound o b1 -> OppositeBound o b2 ->
  exists e,
    ensureCompatible (sv := api) c [b1; b2]
    = if (Order.olt compareCut (lowerCut o (keyOf v)) (snd (boundCuts b1))
          && Order.olt compareCut (fst (boundCuts b1)) (upperCut o (keyOf v)))
         && (Order.olt compareCut (lowerCut o (keyOf v)) (snd (boundCuts b2))
             && Order.olt compareCut (fst (boundCuts b2)) (upperCut o (keyOf v)))
      then Ret tt else Throw e.
Proof.
  intros H H1 H2.
  destruct (checkBound_cuts _ _ _ _ _ H H1) as (e1 & E1).
  destruct (checkBound_cuts _ _ _ _ _ H H2) as (e2 & E2).
  unfold ensureCompatible. rewrite (plainAt_parseRange _ _ _ _ H).
  cbn [bind forEachM]. rewrite E1, E2.
  destruct (Order.olt compareCut (lowerCut o (keyOf v)) (snd (boundCuts b1))
            && Order.olt compareCut (fst (boundCuts b1)) (upperCut o (keyOf v)));
    cbn [bind andb]; [|exists e1; reflexivity].
  exists e2. destruct (_ && _); reflexivity.
Qed.

Lemma lowerIs_plain c o r v :
  PlainAt c o r v -> (o = OpGt \/ o = OpGe) -> LowerIs (Some c) (lowerCut o (keyOf v)).
Proof.
  intros H Ho. exists o, (keyOf v). split; [apply (plainAt_comparator _ _ _ _ H) | auto].
Qed.

Lemma upperIs_plain c o r v :
  PlainAt c o r v -> (o = OpLt \/ o = OpLe) -> UpperIs (Some c) (upperCut o (keyOf v)).
Proof.
  intros H Ho. exists o, (keyOf v). split; [apply (plainAt_comparator _ _ _ _ H) | auto].
Qed.

Ltac key_cases x y :=
  let E := fresh "E" in
  destruct (compareKey x y) eqn:E;
  [apply (Order.cmp_eq compareKey_total) in E | | ].

Lemma merge_lower c o r v bound lo :
  PlainAt c o r v -> (o = OpGt \/ o = OpGe) -> LowerIs bound lo ->
  exists t, mergeBounds (sv := api) c bound = Ret t
            /\ LowerIs (Some t) (Order.omax compareCut lo (lowerCut o (keyOf v))).
Proof.
  intros H Ho Hl. destruct bound as [s|].
  - destruct Hl as (ol & kl & Hs & Hol & ->).
    destruct (comparator_plainAt _ _ _ Hs) as (rl & vl & Ps & <- & _).
    rewrite (mergeBounds_plain _ _ _ _ _ _ _ _ H Ps).
    eexists. split; [reflexivity|].
    pose proof (lowerIs_plain _ _ _ _ H Ho) as Lc.
    pose proof (lowerIs_plain _ _ _ _ Ps Hol) as Ls.
    destruct Ho as [-> | ->], Hol as [-> | ->]; simpl in *;
      unfold Order.max; rewrite ltb_cut;
      rewrite (Order.cmp_opp compareKey_total (keyOf v) (keyOf vl));
      key_cases (keyOf v) (keyOf vl); simpl; try assumption;
      rewrite <- E; assumption.
  - simpl in Hl. subst lo. exists c. split; [reflexivity|].
    simpl. destruct (lowerCut o (keyOf v)) eqn:E; rewrite <- E; apply (lowerIs_plain _ _ _ _ H Ho).
Qed.

Lemma merge_upper c o r v bound hi :
  PlainAt c o r v -> (o = OpLt \/ o = OpLe) -> UpperIs bound hi ->
  exists t, mergeBounds (sv := api) c bound = Ret t
            /\ UpperIs (Some t) (Order.omin compareCut hi (upperCut o (keyOf v))).
Proof.
  intros H Ho Hl. destruct bound as [s|].
  - destruct Hl as (ol & kl & Hs & Hol & ->).
    destruct (comparator_plainAt _ _ _ Hs) as (rl & vl & Ps & <- & _).
    rewrite (mergeBounds_plain _ _ _ _ _ _ _ _ H Ps).
    eexists. split; [reflexivity|].
    pose proof (upperIs_plain _ _ _ _ H Ho) as Lc.
    pose proof (upperIs_plain _ _ _ _ Ps Hol) as Ls.
    destruct Ho as [-> | ->], Hol as [-> | ->]; simpl in *;
      unfold Order.min; rewrite ltb_cut;
      key_cases (keyOf v) (keyOf vl); simpl; try assumption;
      rewrite <- E; assumption.
  - simpl in Hl. subst hi. exists c. split; [reflexivity|].
    simpl. destruct (upperCut o (keyOf v)) eqn:E; rewrite <- E; apply (upperIs_plain _ _ _ _ H Ho).
Qed.

Lemma lowerIs_opposite o bound lo :
  (o = OpLt \/ o = OpLe \/ o = OpNone) -> LowerIs bound lo ->
  OppositeBound o bound /\ boundCuts bound = (lo, None).
Proof.
  intros Ho H. destruct bound as [s|]; simpl in *.
  - destruct H as (ol & kl & Hs & Hol & ->). split.
    + exists ol, kl. split; [assumption|].
      destruct Ho as [-> | [-> | ->]], Hol as [-> | ->]; reflexivity.
    + unfold interval. rewrite Hs. destruct Hol as [-> | ->]; reflexivity.
  - subst. auto.
Qed.

Lemma upperIs_opposite o bound hi :
  (o = OpGt \/ o = OpGe \/ o = OpNone) -> UpperIs bound hi ->
  OppositeBound o bound /\ boundCuts bound = (None, hi).
Proof.
  intros Ho H. destruct bound as [s|]; simpl in *.
  - destruct H as (ol & kl & Hs & Hol & ->). split.
    + exists ol, kl. split; [assumption|].
      destruct Ho as [-> | [-> | ->]], Hol as [-> | ->]; reflexivity.
    + unfold interval. rewrite Hs. destruct Hol as [-> | ->]; reflexivity.
  - subst. auto.
Qed.

Lemma olt_none_r (a : option cut) : Order.olt compareCut a None = true.
Proof. destruct a; reflexivity. Qed.

Lemma exact_lower c r v :
  PlainAt c OpNone r v -> LowerIs (Some (">=" ++ c)) (Some (keyOf v, false)).
Proof.
  intros (-> & Hv & Hp). exists OpGe, (keyOf v). split; [|auto].
  unfold comparator. simpl. rewrite String.eqb_refl, Hv, Hp. reflexivity.
Qed.

Lemma exact_upper c r v :
  PlainAt c OpNone r v -> UpperIs (Some ("<=" ++ c)) (Some (keyOf v, true)).
Proof.
  intros (-> & Hv & Hp). exists OpLe, (keyOf v). split; [|auto].
  unfold comparator. simpl. rewrite String.eqb_refl, Hv, Hp. reflexivity.
Qed.

(** Below the cut above [k]: not above the cut below [k]. *)
Lemma omax_exact lo k :
  Order.olt compareCut lo (Some (k, true)) = true ->
  Order.omax compareCut lo (Some (k, false)) = Some (k, false).
Proof.
  destruct lo as [[kl sl]|]; [|reflexivity]. simpl.
  unfold Order.max. rewrite !ltb_cut. key_cases kl k; try discriminate.
  - subst. destruct sl; [discriminate | reflexivity].
  - reflexivity.
Qed.

Lemma omin_exact hi k :
  Order.olt compareCut (Some (k, false)) hi = true ->
  Order.omin compareCut hi (Some (k, true)) = Some (k, true).
Proof.
  destruct hi as [[kh sh]|]; [|reflexivity]. simpl.
  unfold Order.min. rewrite !ltb_cut.
  key_cases k kh; try discriminate; simpl.
  - subst. destruct sh; [reflexivity | discriminate].
  - reflexivity.
Qed.

(** One step of the fold on a plain comparator narrows the interval of the
    bounds by the interval of the comparator, and throws exactly when the
    narrowing fails. *)
Lemma updateBounds_plain b c st o k :
  comparator c = Some (o, k) -> BoundsAre b st ->
  match updateBounds (sv := api) b c with
  | Ret b' => exists st', Order.narrow compareCut st (lowerCut o k, upperCut o k) = Some st'
                          /\ BoundsAre b' st'
  | Throw _ => Order.narrow compareCut st (lowerCut o k, upperCut o k) = None
  end.
Proof.
  intros Hc [Hlo Hhi]. destruct st as [lo hi]. simpl in Hlo, Hhi.
  destruct (comparator_plainAt _ _ _ Hc) as (r & v & H & <- & _).
  unfold updateBounds. rewrite (plainAt_parseRange _ _ _ _ H).
  cbn [bind prerelease condition]. unfold Order.narrow. cbn [fst snd].
  destruct o.
  - (* an exact version *)
    destruct (lowerIs_opposite OpNone _ _ (or_intror (or_intror eq_refl)) Hlo) as [O1 C1].
    destruct (upperIs_opposite OpNone _ _ (or_intror (or_intror eq_refl)) Hhi) as [O2 C2].
    destruct (ensureCompatible_cuts2 _ _ _ _ _ _ H O1 O2) as (e & E).
    rewrite C1, C2 in E. cbn [fst snd lowerCut upperCut] in E.
    rewrite !olt_none_r in E. cbn [conditionOf String.eqb Ascii.eqb Bool.eqb].
    cbn [lowerCut upperCut]. rewrite E. clear E.
    rewrite andb_true_l, andb_true_r, andb_comm.
    destruct (Order.olt compareCut (Some (keyOf v, false)) hi) eqn:A;
      [|reflexivity].
    destruct (Order.olt compareCut lo (Some (keyOf v, true))) eqn:B;
      [|reflexivity].
    cbn [andb bind startsWith]. eexists. split; [reflexivity|].
    rewrite (omax_exact _ _ B), (omin_exact _ _ A).
    split; [apply (exact_lower _ _ _ H) | apply (exact_upper _ _ _ H)].
  - (* < *)
    destruct (lowerIs_opposite OpLt _ _ (or_introl eq_refl) Hlo) as [O1 C1].
    destruct (ensureCompatible_cuts1 _ _ _ _ _ H O1) as (e & E).
    rewrite C1 in E. cbn [fst snd lowerCut upperCut] in E.
    cbn [conditionOf formatOperator String.eqb Ascii.eqb Bool.eqb startsWith andb bind
           lowerBound upperBound lowerCut upperCut Order.olt].
    rewrite E. clear E. rewrite andb_true_l.
    destruct (Order.olt compareCut lo (Some (keyOf v, false))); [|reflexivity].
    cbn [bind].
    destruct (merge_upper _ _ _ _ _ _ H (or_introl eq_refl) Hhi) as (t & -> & Ht).
    cbn [bind]. eexists. split; [reflexivity|].
    split; [|exact Ht]. simpl. destruct lo; exact Hlo.
  - (* > *)
    destruct (upperIs_opposite OpGt _ _ (or_introl eq_refl) Hhi) as [O1 C1].
    destruct (ensureCompatible_cuts1 _ _ _ _ _ H O1) as (e & E).
    rewrite C1 in E. cbn [fst snd lowerCut upperCut] in E.
    cbn [conditionOf formatOperator String.eqb Ascii.eqb Bool.eqb startsWith andb bind
           lowerBound upperBound lowerCut upperCut].
    rewrite E. clear E. rewrite !olt_none_r, !andb_true_r.
    destruct (Order.olt compareCut (Some (keyOf v, true)) hi); [|reflexivity].
    cbn [bind].
    destruct (merge_lower _ _ _ _ _ _ H (or_introl eq_refl) Hlo) as (t & -> & Ht).
    cbn [bind]. eexists. split; [reflexivity|].
    split; [exact Ht|]. simpl. destruct hi; exact Hhi.
  - (* <= *)
    destruct (lowerIs_opposite OpLe _ _ (or_intror (or_introl eq_refl)) Hlo) as [O1 C1].
    destruct (ensureCompatible_cuts1 _ _ _ _ _ H O1) as (e & E).
    rewrite C1 in E. cbn [fst snd lowerCut upperCut] in E.
    cbn [conditionOf formatOperator String.eqb Ascii.eqb Bool.eqb startsWith andb bind
           lowerBound upperBound lowerCut upperCut Order.olt].
    rewrite E. clear E. rewrite andb_true_l.
    destruct (Order.olt compareCut lo (Some (keyOf v, true))); [|reflexivity].
    cbn [bind].
    destruct (merge_upper _ _ _ _ _ _ H (or_intror eq_refl) Hhi) as (t & -> & Ht).
    cbn [bind]. eexists. split; [reflexivity|].
    split; [|exact Ht]. simpl. destruct lo; exact Hlo.
  - (* >= *)
    destruct (upperIs_opposite OpGe _ _ (or_intror (or_introl eq_refl)) Hhi) as [O1 C1].
    destruct (ensureCompatible_cuts1 _ _ _ _ _ H O1) as (e & E).
    rewrite C1 in E. cbn [fst snd lowerCut upperCut] in E.
    cbn [conditionOf formatOperator String.eqb Ascii.eqb Bool.eqb startsWith andb bind
           lowerBound upperBound lowerCut upperCut].
    rewrite E. clear E. rewrite !olt_none_r, !andb_true_r.
    destruct (Order.olt compareCut (Some (keyOf v, false)) hi); [|reflexivity].
    cbn [bind].
    destruct (merge_lower _ _ _ _ _ _ H (or_intror eq_refl) Hlo) as (t & -> & Ht).
    cbn [bind]. eexists. split; [reflexivity|].
    split; [exact Ht|]. simpl. destruct hi; exact Hhi.
Qed.

(** *** Conjunctions of plain comparators *)

Lemma isPlain_comparator c : isPlain c = true -> exists o k, comparator c = Some (o, k).
Proof.
  unfold isPlain. destruct (comparator c) as [[o k]|]; [eauto | discriminate].
Qed.

Lemma reduce_plain l b st :
  Forall (fun c => isPlain c = true) l -> BoundsAre b st ->
  match reduceM (updateBounds (sv := api)) l b with
  | Ret b' => exists st', Order.narrowAll compareCut (map interval l) st = Some st'
                          /\ BoundsAre b' st'
  | Throw _ => Order.narrowAll compareCut (map interval l) st = None
  end.
Proof.
  intros Hl. revert b st. induction Hl as [|c l Hc _ IH]; intros b st Hb.
  - simpl. eauto.
  - destruct (isPlain_comparator _ Hc) as (o & k & E).
    pose proof (updateBounds_plain _ _ _ _ _ E Hb) as S.
    assert (I : interval c = (lowerCut o k, upperCut o k))
      by (unfold interval; rewrite E; reflexivity).
    cbn [reduceM map Order.narrowAll]. rewrite I.
    destruct (updateBounds b c) as [b'|e]; cbn [bind].
    + destruct S as (st' & -> & Hb'). apply IH. assumption.
    + rewrite S. reflexivity.
Qed.

Lemma lowerIs_inj s1 s2 c : LowerIs s1 c -> LowerIs s2 c -> s1 = s2.
Proof.
  destruct s1 as [s1|], s2 as [s2|]; simpl.
  - intros (o1 & k1 & H1 & L1 & ->) (o2 & k2 & H2 & L2 & E). f_equal.
    destruct (comparator_plainAt _ _ _ H1) as (r1 & v1 & (-> & P1 & Q1) & <- & _).
    destruct (comparator_plainAt _ _ _ H2) as (r2 & v2 & (-> & P2 & Q2) & <- & _).
    destruct L1 as [-> | ->], L2 as [-> | ->]; cbn [lowerCut upperCut] in E;
      try discriminate;
      assert (K : keyOf v1 = keyOf v2) by congruence;
      rewrite (parseVersion_plain_inj _ _ _ _ P1 Q1 P2 Q2 K); reflexivity.
  - intros (o1 & k1 & _ & [-> | ->] & ->); discriminate.
  - intros -> (o2 & k2 & _ & [-> | ->] & E); discriminate.
  - reflexivity.
Qed.

Lemma upperIs_inj s1 s2 c : UpperIs s1 c -> UpperIs s2 c -> s1 = s2.
Proof.
  destruct s1 as [s1|], s2 as [s2|]; simpl.
  - intros (o1 & k1 & H1 & L1 & ->) (o2 & k2 & H2 & L2 & E). f_equal.
    destruct (comparator_plainAt _ _ _ H1) as (r1 & v1 & (-> & P1 & Q1) & <- & _).
    destruct (comparator_plainAt _ _ _ H2) as (r2 & v2 & (-> & P2 & Q2) & <- & _).
    destruct L1 as [-> | ->], L2 as [-> | ->]; cbn [lowerCut upperCut] in E;
      try discriminate;
      assert (K : keyOf v1 = keyOf v2) by congruence;
      rewrite (parseVersion_plain_inj _ _ _ _ P1 Q1 P2 Q2 K); reflexivity.
  - intros (o1 & k1 & _ & [-> | ->] & ->); discriminate.
  - intros -> (o2 & k2 & _ & [-> | ->] & E); discriminate.
  - reflexivity.
Qed.

Lemma boundsAre_inj b1 b2 st : BoundsAre b1 st -> BoundsAre b2 st -> b1 = b2.
Proof.
  intros [L1 U1] [L2 U2]. destruct b1 as [l1 u1], b2 as [l2 u2]. simpl in *.
  rewrite (lowerIs_inj _ _ _ L1 L2), (upperIs_inj _ _ _ U1 U2). reflexivity.
Qed.



End PlainFacts.

(** ** Two unions *)

Lemma flat_map_swap {A B C : Type} (g : A -> B -> list C) la lb :
  Permutation (flat_map (fun a => flat_map (g a) lb) la)
              (flat_map (fun b => flat_map (fun a => g a b) la) lb).
Proof.
  induction la as [|a la IH]; simpl.
  - induction lb as [|b lb IHb]; simpl; [constructor | exact IHb].
  - etransitivity; [apply Permutation_app_head, IH|]. clear IH.
    induction lb as [|b lb IHb]; simpl; [constructor|].
    rewrite <- !app_assoc. apply Permutation_app_head.
    etransitivity; [|apply Permutation_app_head, IHb].
    rewrite !app_assoc. apply Permutation_app_tail, Permutation_app_comm.
Qed.

Lemma flat_map_ext_in {A B : Type} (f g : A -> list B) l :
  (forall x, In x l -> f x = g x) -> flat_map f l = flat_map g l.
Proof.
  induction l as [|x l IH]; intros H; simpl; [reflexivity|].
  rewrite (H x (or_introl eq_refl)), IH; [reflexivity|].
  intros y Hy. apply H. right. assumption.
Qed.

Lemma list_prod_app_l {A B : Type} (l1 l2 : list A) (l : list B) :
  list_prod (l1 ++ l2) l = (list_prod l1 l ++ list_prod l2 l)%list.
Proof.
  induction l1 as [|x l1 IH]; simpl; [reflexivity|].
  rewrite IH, app_assoc. reflexivity.
Qed.

Section Cross.
Context {sv : semver.API}.

Lemma survivors_app p1 p2 : survivors (p1 ++ p2) = (survivors p1 ++ survivors p2)%list.
Proof. unfold survivors. apply flat_map_app. Qed.

Lemma survivors_single b u :
  survivors (list_prod [b] u) = flat_map (foldedFrom b) u.
Proof.
  simpl. rewrite app_nil_r. unfold survivors. rewrite flat_map_concat_map, map_map.
  rewrite <- flat_map_concat_map. reflexivity.
Qed.




Lemma mapM_map {A B : Type} (f : A -> outcome B) (d : B) l ys :
  mapM f l = Ret ys ->
  ys = map (fun x => match f x with Ret y => y | Throw _ => d end) l.
Proof.
  revert ys. induction l as [|x l IH]; intros ys; simpl.
  - intros H. injection H as <-. reflexivity.
  - destruct (f x) as [y|]; [|discriminate]. simpl.
    destruct (mapM f l) as [ys'|]; [|discriminate]. simpl.
    intros H. injection H as <-. rewrite <- (IH _ eq_refl). reflexivity.
Qed.



End Cross.


(** ** Runs on the reference instance *)

(** The scenarios of the specification and of the project's tests. *)

Example scenario_caret :
  intersect (sv := NodeSemver.api) ["^4.0.0"; "^4.3.0"] = Ret "^4.3.0".
Proof. reflexivity. Qed.

Example scenario_tilde :
  intersect (sv := NodeSemver.api) ["^4.0.0"; "~4.3.0"] = Ret "~4.3.0"
  /\ intersect (sv := NodeSemver.api) ["4.x"; "~4.3.0"] = Ret "~4.3.0"
  /\ intersect (sv := NodeSemver.api) ["^4.1.2 || ^5.2.3"; "~4.3.0"] = Ret "~4.3.0".
Proof. repeat split. Qed.

Example scenario_exact :
  intersect (sv := NodeSemver.api) ["1.5.16"; "^1.0.0"] = Ret "1.5.16"
  /\ intersect (sv := NodeSemver.api) ["1.0.0 - 1.5.3"] = Ret "1.0.0 - 1.5.3".
Proof. split; reflexivity. Qed.

Example scenario_incompatible :
  intersect (sv := NodeSemver.api) ["^4.0.0"; "~4.3.0"; "^4.4.0"]
  = Throw (Error "Range >=4.4.0 is not compatible with <4.4.0").
Proof. reflexivity. Qed.

Example scenario_no_branch :
  intersect (sv := NodeSemver.api) ["^1.0.0 || ^3.0.0"; "^2.0.0"]
  = Throw (Error "Range >=2.0.0 is not compatible with <2.0.0").
Proof. reflexivity. Qed.

Example scenario_two_unions :
  intersect (sv := NodeSemver.api) ["^4.0.0 || ^5.1.2"; "^4.1.2 || ^5.0.0"]
  = Ret "^4.1.2 || ^5.1.2".
Proof. reflexivity. Qed.

Example scenario_prerelease :
  intersect (sv := NodeSemver.api) ["^1.9.0-beta"; "^1.9.0-alpha"] = Ret "^1.9.0-beta"
  /\ intersect (sv := NodeSemver.api) ["^1.9.0-alpha"; "^1.9.0-beta"] = Ret "^1.9.0-beta"
  /\ intersect (sv := NodeSemver.api) ["^0.14.0-beta2"; "^0.14.0-beta3"]
     = Ret "^0.14.0-beta3"
  /\ intersect (sv := NodeSemver.api) ["1.9.0-rc3"; "^1.9.0-rc4"]
     = Throw (Error "Range >=1.9.0-rc4 is not compatible with <=1.9.0-rc3").
Proof. repeat split. Qed.

(** What the reference instance prints for ranges in the notations of the
    package. *)
Example scenario_validRange :
  map (semver.validRange (API := NodeSemver.api))
    ["^1.2.3"; "^0.1.2"; "^0.0.1-beta"; "^0"; "~1.2.3"; "~>1"; "~ 1.0"; "1.2.x";
     "2.*"; "2.3"; "*"; ""; ">=*"; "<X"; ">1.2"; "<=7.x"; ">= 1.0.0"; "=1.2.3";
     "v1.2.3"; "1.2.3+build"; "1.2 - 3.4.5"; "1.2.3 - 3.4"; "x - 1.x";
     "0.1.20 || 1.2.4"; "* || 2.2.*"; "^ 1.2 ^ 1"; "latest"; "1.2.3.4"; "01.2.3"]
  = [Some ">=1.2.3 <2.0.0"; Some ">=0.1.2 <0.2.0"; Some ">=0.0.1-beta <0.0.2";
     Some ">=0.0.0 <1.0.0"; Some ">=1.2.3 <1.3.0"; Some ">=1.0.0 <2.0.0";
     Some ">=1.0.0 <1.1.0"; Some ">=1.2.0 <1.3.0"; Some ">=2.0.0 <3.0.0";
     Some ">=2.3.0 <2.4.0"; Some "*"; Some "*"; Some "*"; Some "<0.0.0";
     Some ">=1.3.0"; Some "<8.0.0"; Some ">=1.0.0"; Some "1.2.3"; Some "1.2.3";
     Some "1.2.3"; Some ">=1.2.0 <=3.4.5"; Some ">=1.2.3 <3.5.0"; Some "<2.0.0";
     Some "0.1.20||1.2.4"; Some "||>=2.2.0 <2.3.0";
     Some ">=1.2.0 <2.0.0 >=1.0.0 <2.0.0"; None; None; None].
Proof. reflexivity. Qed.

(** The normal forms the tests of [expandRanges] expect. *)
Example scenario_expand :
  expandRanges (sv := NodeSemver.api) ["1.* || 3.2.*"; "*"]
  = Ret [[[">=1.0.0"; "<2.0.0"]; [">=3.2.0"; "<3.3.0"]]; [[">=0.0.0"]]]
  /\ expandRanges (sv := NodeSemver.api) [">=2.* <3.5.5 || ~3.6.0"]
     = Ret [[[">=2.0.0"; "<3.5.5"]; [">=3.6.0"; "<3.7.0"]]]
  /\ expandRanges (sv := NodeSemver.api) ["1.0.0 - 1.5.3"] = Ret [[[">=1.0.0"; "<=1.5.3"]]].
Proof. repeat split. Qed.

Example scenario_hyphen :
  createShorthand (sv := NodeSemver.api) ">=1.0.0 <=1.5.3" = Ret "1.0.0 - 1.5.3"
  /\ createShorthand (sv := NodeSemver.api) ">=0.0.0 <1.0.0" = Ret "0".
Proof. split; reflexivity. Qed.

(** [regex.x] is the alternation of [^x], [X] and [\*$], so it also matches
    a comparator that merely contains an [X]. *)
Example coerceRange_contains_X : coerceRange ">=1.0.0-X" = ">=0.0.0".
Proof. reflexivity. Qed.

(** With a prerelease tag the check of [ensureCompatible] depends on which
    of the two comparators comes first, and so does the set of branches. *)
Example prerelease_branch_lost :
  intersect (sv := NodeSemver.api) [">=1.0.0-alpha||>=2.0.0"; ">=1.0.0"]
  = Ret ">=1.0.0 || >=2.0.0"
  /\ intersect (sv := NodeSemver.api) [">=1.0.0"; ">=1.0.0-alpha||>=2.0.0"]
     = Ret ">=2.0.0".
Proof. split; reflexivity. Qed.

Lemma core_whole s : Regex.core s = Some (s, "") -> Pattern.Matches Pattern.core s.
Proof. intros H. apply core_sound in H. tauto. Qed.


Lemma createShorthand_rules_witness :
  createShorthand (sv := NodeSemver.api) ">=0.0.5 <0.1.0" = Ret "~0.0.5".
Proof.
  refine (proj2 (proj2 (proj1 (createShorthand_rules (sv := NodeSemver.api) ">=0.0.5 <0.1.0")
                          "0.0.5" "0.1.0" false _))
            0%N 0%N 0%N 1%N eq_refl eq_refl eq_refl eq_refl).
  split; [apply wholeVersion_iff; reflexivity|].
  split; [apply core_whole; reflexivity | reflexivity].
Defined.





(** C6, where the code departs from it: [semver.validRange] prints the
    [*] alternative of a union as the empty string, which [regex.x] does
    not match.  On the example of the comment above [expandRanges] the
    normal form of [* || 2.2.*] therefore holds the empty comparator
    where the comment (and the claim) has [>=0.0.0]; this wildcard reaches
    the fold, where [parseRange] throws a [TypeError] on it whatever the
    collaborator, and the branch is lost: the intersection with [^1.0.0]
    throws although [1.5.0] satisfies both ranges. *)
Theorem expandRanges_star_alternative :
  expandRanges (sv := NodeSemver.api) ["1.* || 3.*"; "* || 2.2.*"]
  = Ret [[[">=1.0.0"; "<2.0.0"]; [">=3.0.0"; "<4.0.0"]]; [[""]; [">=2.2.0"; "<2.3.0"]]]
  /\ Spec.wildcard ""
  /\ coerceRange "" = ""
  /\ (forall (sv : semver.API) (bounds : Bounds),
        updateBounds bounds "" = Throw TypeError)
  /\ intersect (sv := NodeSemver.api) ["* || 2.2.*"; "^1.0.0"]
     = Throw (Error "Range <2.0.0 is not compatible with >=2.2.0")
  /\ semver.satisfies (API := NodeSemver.api) "1.5.0" "* || 2.2.*" = Ret true
  /\ semver.satisfies (API := NodeSemver.api) "1.5.0" "^1.0.0" = Ret true.
Proof.
  split; [reflexivity|]. split; [right; right; right; reflexivity|].
  split; [reflexivity|]. split; [intros sv bounds; reflexivity|].
  repeat split.
Qed.

Lemma intersect_folding_witness :
  intersect (sv := NodeSemver.api) [">=1.0.0 <2.0.0||>=3.0.0 <4.0.0"; ">=2.0.0 <3.0.0"]
  = Throw (Error "Range >=2.0.0 is not compatible with <2.0.0").
Proof.
  apply (proj2 (proj2 (proj2 (proj2 (intersect_folding (sv := NodeSemver.api)))))
           [">=1.0.0 <2.0.0||>=3.0.0 <4.0.0"; ">=2.0.0 <3.0.0"]
           [[[">=1.0.0"; "<2.0.0"]; [">=3.0.0"; "<4.0.0"]]; [[">=2.0.0"; "<3.0.0"]]]).
  - reflexivity.
  - reflexivity.
Defined.




(* ===================================================================== *)
(** * The rest of the program *)

Import Notions Meaning.

(** ** Arrays: [distinct] and [allPairs] on their own *)

Lemma fold_setAdd_cons x l acc :
  fold_left setAdd l (x :: acc)
  = x :: fold_left setAdd (filter (fun y => negb (y =? x)) l) acc.
Proof.
  revert acc. induction l as [|y l IH]; intros acc; [reflexivity|].
  cbn [fold_left filter]. unfold setAdd at 2. cbn [existsb].
  destruct (y =? x) eqn:E; cbn [negb orb].
  - apply IH.
  - cbn [fold_left]. rewrite <- IH. f_equal.
    unfold setAdd. destruct (existsb (String.eqb y) acc); reflexivity.
Qed.

Lemma filter_absent x l :
  ~ In x l -> filter (fun y => negb (y =? x)) l = l.
Proof.
  induction l as [|y l IH]; intros H; [reflexivity|]. simpl.
  destruct (String.eqb_spec y x) as [->|_]; simpl.
  - exfalso. apply H. left. reflexivity.
  - rewrite IH; [reflexivity|]. intros Hx. apply H. right. assumption.
Qed.

Lemma distinct_fixes l : NoDup l -> distinct l = l.
Proof.
  induction 1 as [|x l Hx _ IH]; [reflexivity|].
  unfold distinct. cbn [fold_left]. change (setAdd [] x) with [x].
  rewrite fold_setAdd_cons, (filter_absent _ _ Hx). f_equal. exact IH.
Qed.

(** [distinct] keeps the first occurrence of every element, in the order of
    the input, and drops the later ones. *)
Theorem distinct_first_occurrences (x : string) (l : list string) :
  distinct [] = []
  /\ distinct (x :: l) = x :: distinct (filter (fun y => negb (y =? x)) l)
  /\ length (distinct l) <= length l.
Proof.
  split; [reflexivity|]. split.
  - unfold distinct. cbn [fold_left]. change (setAdd [] x) with [x].
    apply fold_setAdd_cons.
  - clear x. remember (length l) as n eqn:En.
    assert (G : length l <= n) by lia. clear En. revert l G.
    induction n as [|n IH]; intros l G.
    + destruct l; [simpl; lia | simpl in G; lia].
    + destruct l as [|y l]; [simpl; lia|].
      unfold distinct. cbn [fold_left]. change (setAdd [] y) with [y].
      rewrite fold_setAdd_cons. cbn [length]. apply le_n_S.
      apply IH. simpl in G.
      pose proof (filter_length_le (fun z => negb (z =? y)) l). lia.
Qed.

(** An array without duplicates is returned as it is, so [distinct] applied
    twice is [distinct] applied once. *)
Theorem distinct_idempotent (l : list string) :
  (NoDup l -> distinct l = l) /\ distinct (distinct l) = distinct l.
Proof.
  split; [apply distinct_fixes|]. apply distinct_fixes, distinct_nodup.
Qed.

Lemma list_prod_nth {A B : Type} (arr1 : list A) (arr2 : list B) i j x y :
  nth_error arr1 i = Some x -> nth_error arr2 j = Some y ->
  nth_error (list_prod arr1 arr2) (i * length arr2 + j) = Some (x, y).
Proof.
  revert i. induction arr1 as [|a arr1 IH]; intros i Hx Hy.
  - destruct i; discriminate.
  - assert (Hj : j < length arr2) by (apply nth_error_Some; congruence).
    destruct i as [|i]; cbn [list_prod].
    + injection Hx as ->. simpl.
      rewrite nth_error_app1 by (rewrite length_map; exact Hj).
      rewrite nth_error_map, Hy. reflexivity.
    + simpl in Hx. rewrite nth_error_app2 by (rewrite length_map; simpl; lia).
      rewrite length_map.
      replace (S i * length arr2 + j - length arr2) with (i * length arr2 + j)
        by (simpl; lia).
      apply IH; assumption.
Qed.

(** [allPairs] lists the pairs row by row: the pair of the [i]-th element
    of the first array and the [j]-th of the second sits at index
    [i * arr2.length + j], and there are [arr1.length * arr2.length] pairs. *)
Theorem allPairs_row_major {A B : Type} (arr1 : list A) (arr2 : list B)
        (i j : nat) (x : A) (y : B) :
  nth_error arr1 i = Some x -> nth_error arr2 j = Some y ->
  nth_error (allPairs arr1 arr2) (i * length arr2 + j) = Some (x, y)
  /\ length (allPairs arr1 arr2) = length arr1 * length arr2.
Proof.
  intros Hx Hy. rewrite allPairs_list_prod. split.
  - apply list_prod_nth; assumption.
  - apply length_prod.
Qed.

Lemma distinct_idempotent_witness : distinct [">=1.0.0"; "<2.0.0"] = [">=1.0.0"; "<2.0.0"].
Proof.
  apply (proj1 (distinct_idempotent [">=1.0.0"; "<2.0.0"])).
  constructor; [intros [H | []]; discriminate H|].
  constructor; [intros []|]. constructor.
Defined.

Lemma allPairs_row_major_witness :
  nth_error (allPairs [noBounds; mkBounds (Some ">=1.0.0") None] ["a"; "b"; "c"]) (1 * 3 + 2)
  = Some (mkBounds (Some ">=1.0.0") None, "c")
  /\ length (allPairs [noBounds; mkBounds (Some ">=1.0.0") None] ["a"; "b"; "c"]) = 2 * 3.
Proof.
  apply (allPairs_row_major [noBounds; mkBounds (Some ">=1.0.0") None] ["a"; "b"; "c"] 1 2);
    reflexivity.
Defined.

(** ** Formatting a pair of bounds *)

Lemma trimEnd_space s : trimEnd (s ++ " ") = trimEnd s.
Proof.
  induction s as [|c s IH]; [reflexivity|].
  cbn [append trimEnd]. rewrite IH. reflexivity.
Qed.

Lemma trimStart_space s :
  trimStart (s ++ " ") = trimStart s ++ " "
  \/ (trimStart (s ++ " ") = "" /\ trimStart s = "").
Proof.
  induction s as [|c s IH]; [right; split; reflexivity|].
  cbn [append trimStart]. destruct (isSpace c); [exact IH | left; reflexivity].
Qed.

Lemma trim_space_r s : trim (s ++ " ") = trim s.
Proof.
  unfold trim. destruct (trimStart_space s) as [-> | [-> ->]].
  - apply trimEnd_space.
  - reflexivity.
Qed.

Lemma trimEnd_token s u : Token u -> trimEnd (s ++ u) = s ++ u.
Proof.
  intros [Hne Hu]. induction s as [|c s IH].
  - apply PlainFacts.trimEnd_plain. exact Hu.
  - cbn [append trimEnd]. rewrite IH.
    destruct (s ++ u) eqn:E; [|reflexivity].
    destruct s; [simpl in E; congruence | discriminate].
Qed.

Lemma trim_tokens l u : Token l -> Token u -> trim (l ++ " " ++ u) = l ++ " " ++ u.
Proof.
  intros [Hl Al] Hu. unfold trim.
  destruct l as [|c l]; [congruence|]. simpl in Al.
  apply andb_true_iff in Al. destruct Al as [Hc _]. apply negb_true_iff in Hc.
  assert (E : trimStart (String c l ++ " " ++ u) = String c l ++ " " ++ u)
    by (simpl; rewrite Hc; reflexivity).
  rewrite E, <- (append_assoc (String c l) " " u). apply trimEnd_token. exact Hu.
Qed.

Lemma splitSpaceFrom_token l r h t :
  all (fun c => negb (isSpace c)) l = true ->
  splitSpaceFrom false r = h :: t ->
  splitSpaceFrom false (l ++ r) = (l ++ h) :: t.
Proof.
  intros Hl Hr. induction l as [|c l IH]; [exact Hr|].
  simpl in Hl. apply andb_true_iff in Hl. destruct Hl as [Hc Hl].
  apply negb_true_iff in Hc. cbn [append splitSpaceFrom]. rewrite Hc, (IH Hl).
  reflexivity.
Qed.

Lemma splitSpace_two l u : Token l -> Token u -> splitSpace (l ++ " " ++ u) = [l; u].
Proof.
  intros [_ Hl] [Hne Hu]. unfold splitSpace.
  rewrite (splitSpaceFrom_token l (" " ++ u) "" [u] Hl).
  - rewrite append_nil_r. reflexivity.
  - destruct u as [|d u]; [congruence|]. simpl in Hu.
    apply andb_true_iff in Hu. destruct Hu as [Hd Hu]. apply negb_true_iff in Hd.
    cbn [append splitSpaceFrom isSpace]. simpl (isSpace " "). cbv iota.
    rewrite Hd. fold (splitSpace u). rewrite (PlainFacts.splitSpace_plain _ Hu).
    reflexivity.
Qed.

Lemma formatIntersection_lower l : formatIntersection (mkBounds (Some l) None) = trim l.
Proof.
  unfold formatIntersection. cbn [lowerBound upperBound].
  destruct (String.eqb_spec l "") as [->|_]; [reflexivity|].
  change (l ++ " " ++ "") with (l ++ " "). apply trim_space_r.
Qed.

Lemma formatIntersection_upper u : formatIntersection (mkBounds None (Some u)) = trim u.
Proof.
  unfold formatIntersection. cbn [lowerBound upperBound].
  destruct (String.eqb_spec "" u) as [<-|_]; reflexivity.
Qed.

Lemma formatIntersection_both l u :
  Token l -> Token u -> l <> u ->
  formatIntersection (mkBounds (Some l) (Some u)) = l ++ " " ++ u.
Proof.
  intros Hl Hu Hne. unfold formatIntersection. cbn [lowerBound upperBound].
  apply String.eqb_neq in Hne. rewrite Hne. apply trim_tokens; assumption.
Qed.

(** [formatIntersection]: a single bound is printed trimmed, two equal
    bounds as one, and two different tokens separated by one space, from
    which splitting on white space gives the two bounds back. *)
Theorem formatIntersection_cases (l u : string) :
  formatIntersection (mkBounds (Some l) None) = trim l
  /\ formatIntersection (mkBounds None (Some u)) = trim u
  /\ formatIntersection (mkBounds (Some l) (Some l)) = l
  /\ (Token l -> Token u -> l <> u ->
      formatIntersection (mkBounds (Some l) (Some u)) = l ++ " " ++ u
      /\ splitSpace (formatIntersection (mkBounds (Some l) (Some u))) = [l; u]).
Proof.
  split; [apply formatIntersection_lower|]. split; [apply formatIntersection_upper|].
  split.
  - unfold formatIntersection. cbn [lowerBound upperBound].
    rewrite String.eqb_refl. reflexivity.
  - intros Hl Hu Hne. rewrite (formatIntersection_both _ _ Hl Hu Hne).
    split; [reflexivity | apply splitSpace_two; assumption].
Qed.

Lemma formatIntersection_cases_witness :
  formatIntersection (mkBounds (Some ">=1.2.0") (Some "<2.0.0")) = ">=1.2.0 <2.0.0"
  /\ splitSpace (formatIntersection (mkBounds (Some ">=1.2.0") (Some "<2.0.0")))
     = [">=1.2.0"; "<2.0.0"].
Proof.
  apply (proj2 (proj2 (proj2 (formatIntersection_cases ">=1.2.0" "<2.0.0")))).
  - split; [discriminate | reflexivity].
  - split; [discriminate | reflexivity].
  - discriminate.
Defined.

(** ** One step of the fold *)

Section Step.
Context {sv : semver.API}.

Lemma forEachM_app {A : Type} (f : A -> outcome unit) l1 l2 :
  forEachM f (l1 ++ l2)%list = (forEachM f l1 ;;; forEachM f l2).
Proof.
  induction l1 as [|x l1 IH]; [reflexivity|]. cbn [app forEachM].
  destruct (f x); cbn [bind]; [exact IH | reflexivity].
Qed.

Lemma checkBound_falsy range p bound :
  falsy bound = true -> checkBound range p bound = Ret tt.
Proof.
  intros H. apply falsy_cases in H. destruct H as [-> | ->]; reflexivity.
Qed.

Lemma forEachM_truthy range p bounds :
  forEachM (checkBound range p) (filter (fun b => negb (falsy b)) bounds)
  = forEachM (checkBound range p) bounds.
Proof.
  induction bounds as [|b bounds IH]; [reflexivity|]. cbn [filter forEachM].
  destruct (falsy b) eqn:E; cbn [negb].
  - rewrite (checkBound_falsy _ _ _ E). exact IH.
  - cbn [forEachM]. rewrite IH. reflexivity.
Qed.

(** [ensureCompatible] checks the bounds one after the other, so the error
    is that of the first bound that fails; missing and empty bounds are
    skipped. *)
Theorem ensureCompatible_sequence (range : string) (bounds1 bounds2 : list (option string)) :
  ensureCompatible range (bounds1 ++ bounds2)%list
  = (ensureCompatible range bounds1 ;;; ensureCompatible range bounds2)
  /\ ensureCompatible range (filter (fun b => negb (falsy b)) bounds1)
     = ensureCompatible range bounds1.
Proof.
  unfold ensureCompatible. destruct (parseRange range) as [p|e]; cbn [bind].
  - split; [|apply forEachM_truthy]. rewrite forEachM_app.
    destruct (forEachM (checkBound range p) bounds1); reflexivity.
  - split; reflexivity.
Qed.


(** Folding a first comparator into [{}] throws only where [parseRange]
    does; a comparator [parseRange] accepts is never rejected: an exact
    version sets both bounds, a comparator starting with [>] the lower
    bound, one starting with [<] the upper bound. *)
Theorem updateBounds_first (range : string) :
  updateBounds noBounds range
  = (p <- parseRange range ;;
     Ret (if condition p =? "="
          then mkBounds (Some (">=" ++ range)) (Some ("<=" ++ range))
          else if startsWith ">" (condition p) then mkBounds (Some range) None
          else if startsWith "<" (condition p) then mkBounds None (Some range)
          else noBounds)).
Proof.
  unfold updateBounds, ensureCompatible, noBounds.
  destruct (parseRange range) as [p|e]; [|reflexivity].
  cbn [bind lowerBound upperBound forEachM checkBound].
  assert (P : match prerelease p with
              | Some _ => Ret tt
              | None => Ret tt
              end = Ret tt) by (destruct (prerelease p); reflexivity).
  rewrite P. cbn [bind].
  destruct (String.eqb_spec (condition p) "=") as [Ec|_].
  - rewrite Ec. reflexivity.
  - cbn [bind]. destruct (startsWith ">" (condition p)) eqn:G.
    + rewrite (startsWith_gt_not_lt _ G). reflexivity.
    + cbn [bind]. destruct (startsWith "<" (condition p)); reflexivity.
Qed.

Lemma mergeBounds_choice range bound r :
  mergeBounds range bound = Ret r -> r = range \/ bound = Some r.
Proof.
  unfold mergeBounds. destruct bound as [b|]; [|intros H; injection H as <-; auto].
  destruct (b =? ""); [intros H; injection H as <-; auto|].
  destruct (parseRange range) as [p|]; [|discriminate]. cbn [bind].
  destruct (parseRange b) as [pb|]; [|discriminate]. cbn [bind].
  destruct (if startsWith "<" (condition p) then semver.lt else semver.gt)
    as [[]|] ; [| |discriminate]; cbn [bind].
  - intros H. injection H as <-. auto.
  - unfold andM. cbn [bind].
    destruct ((condition p =? "<") || (condition p =? ">")).
    + destruct (semver.eq (version p) (version pb)) as [[]|]; [| |discriminate];
        intros H; injection H as <-; auto.
    + intros H. injection H as <-. auto.
Qed.

(** Where a bound of the result of one step comes from. *)
Lemma updateBounds_bounds b range b' :
  updateBounds b range = Ret b' ->
  exists p, parseRange range = Ret p /\
    (lowerBound b' = lowerBound b
     \/ (startsWith ">" (condition p) = true /\ lowerBound b' = Some range)
     \/ (condition p = "=" /\ lowerBound b' = Some (">=" ++ range))) /\
    (upperBound b' = upperBound b
     \/ (startsWith "<" (condition p) = true /\ upperBound b' = Some range)
     \/ (condition p = "=" /\ upperBound b' = Some ("<=" ++ range))).
Proof.
  unfold updateBounds. destruct (parseRange range) as [p|]; [|discriminate].
  cbn [bind]. intros H. exists p. split; [reflexivity|].
  destruct (match prerelease p with
            | Some _ => ensureCompatible range [lowerBound b; upperBound b]
            | None => Ret tt
            end); [|discriminate]. cbn [bind] in H.
  destruct (String.eqb_spec (condition p) "=") as [Ec|_].
  - destruct (ensureCompatible range [lowerBound b; upperBound b]); [|discriminate].
    cbn [bind] in H. rewrite Ec in H. cbn [startsWith] in H. cbn [bind] in H.
    simpl in H. injection H as <-. cbn [lowerBound upperBound]. auto.
  - cbn [bind] in H. destruct (startsWith ">" (condition p)) eqn:G.
    + rewrite (startsWith_gt_not_lt _ G) in H.
      destruct (ensureCompatible range [upperBound b]); [|discriminate].
      cbn [bind] in H. destruct (mergeBounds range (lowerBound b)) as [l|] eqn:M;
        [|discriminate].
      cbn [bind] in H. injection H as <-. cbn [lowerBound upperBound].
      split; [|auto]. destruct (mergeBounds_choice _ _ _ M) as [-> | ->]; auto.
    + cbn [bind] in H. destruct (startsWith "<" (condition p)) eqn:L.
      * destruct (ensureCompatible range [lowerBound b]); [|discriminate].
        cbn [bind] in H. destruct (mergeBounds range (upperBound b)) as [u|] eqn:M;
          [|discriminate].
        cbn [bind] in H. injection H as <-. cbn [lowerBound upperBound].
        split; [auto|]. destruct (mergeBounds_choice _ _ _ M) as [-> | ->]; auto.
      * injection H as <-. auto.
Qed.

(** The fold over a conjunction invents no bound and drops none: each
    bound of the result is the one it started from, or a comparator of the
    conjunction with the matching direction, or the [>=]/[<=] form of an
    exact version of the conjunction; a bound that was present is still
    present. *)
Theorem fold_bounds_provenance (ranges : list string) (b b' : Bounds) :
  reduceM updateBounds ranges b = Ret b' ->
  (lowerBound b' = lowerBound b
   \/ exists c p, In c ranges /\ parseRange c = Ret p /\
        ((startsWith ">" (condition p) = true /\ lowerBound b' = Some c)
         \/ (condition p = "=" /\ lowerBound b' = Some (">=" ++ c)))) /\
  (upperBound b' = upperBound b
   \/ exists c p, In c ranges /\ parseRange c = Ret p /\
        ((startsWith "<" (condition p) = true /\ upperBound b' = Some c)
         \/ (condition p = "=" /\ upperBound b' = Some ("<=" ++ c)))) /\
  (lowerBound b <> None -> lowerBound b' <> None) /\
  (upperBound b <> None -> upperBound b' <> None).
Proof.
  revert b. induction ranges as [|c ranges IH]; intros b H.
  - injection H as <-. auto.
  - cbn [reduceM] in H. destruct (updateBounds b c) as [b1|] eqn:E; [|discriminate].
    cbn [bind] in H. destruct (IH _ H) as (L & U & NL & NU).
    destruct (updateBounds_bounds _ _ _ E) as (p & Hp & L1 & U1).
    repeat split.
    + destruct L as [L | (c' & p' & Hc & Hp' & L)].
      * rewrite L. destruct L1 as [L1 | L1]; [auto|]. right. exists c, p.
        split; [left; reflexivity|]. split; [assumption|]. tauto.
      * right. exists c', p'. split; [right; assumption|]. auto.
    + destruct U as [U | (c' & p' & Hc & Hp' & U)].
      * rewrite U. destruct U1 as [U1 | U1]; [auto|]. right. exists c, p.
        split; [left; reflexivity|]. split; [assumption|]. tauto.
      * right. exists c', p'. split; [right; assumption|]. auto.
    + intros Hb. apply NL. destruct L1 as [-> | [[_ ->] | [_ ->]]];
        [assumption | discriminate | discriminate].
    + intros Hb. apply NU. destruct U1 as [-> | [[_ ->] | [_ ->]]];
        [assumption | discriminate | discriminate].
Qed.

End Step.

Lemma fold_bounds_provenance_witness :
  Some ">=1.2.0" = None
  \/ exists c p,
       In c [">=1.0.0"; "<2.0.0"; ">=1.2.0"] /\
       parseRange (sv := NodeSemver.api) c = Ret p /\
       ((startsWith ">" (condition p) = true /\ Some ">=1.2.0" = Some c)
        \/ (condition p = "=" /\ Some ">=1.2.0" = Some (">=" ++ c))).
Proof.
  apply (proj1 (fold_bounds_provenance (sv := NodeSemver.api)
                  [">=1.0.0"; "<2.0.0"; ">=1.2.0"] noBounds
                  (mkBounds (Some ">=1.2.0") (Some "<2.0.0")) eq_refl)).
Defined.

(** ** What the program throws *)

Lemma mapM_throws {A B : Type} (f : A -> outcome B) l e :
  mapM f l = Throw e -> exists x, In x l /\ f x = Throw e.
Proof.
  induction l as [|x l IH]; [discriminate|]. cbn [mapM].
  destruct (f x) as [y|e'] eqn:E; cbn [bind].
  - destruct (mapM f l); cbn [bind]; [discriminate|].
    intros H. destruct (IH H) as (x' & Hx & Hf). exists x'. split; [right|]; assumption.
  - intros H. injection H as <-. exists x. split; [left; reflexivity | assumption].
Qed.

Lemma forEachM_throws {A : Type} (f : A -> outcome unit) l e :
  forEachM f l = Throw e -> exists x, In x l /\ f x = Throw e.
Proof.
  induction l as [|x l IH]; [discriminate|]. cbn [forEachM].
  destruct (f x) as [y|e'] eqn:E; cbn [bind].
  - intros H. destruct (IH H) as (x' & Hx & Hf). exists x'. split; [right|]; assumption.
  - intros H. injection H as <-. exists x. split; [left; reflexivity | assumption].
Qed.

Section Throws.
Context {sv : semver.API}.
Hypothesis collaborator : Notions.ThrowsTypeErrors sv.

Lemma parseRange_throws range e : parseRange range = Throw e -> e = TypeError.
Proof.
  unfold parseRange. destruct (Regex.version range); [discriminate|].
  intros H. injection H as <-. reflexivity.
Qed.

Ltac collab H :=
  first [ apply (proj1 (collaborator _)) in H
        | apply (proj1 (proj2 (collaborator _))) in H
        | apply (proj1 (proj2 (proj2 (collaborator _)))) in H
        | apply (proj1 (proj2 (proj2 (proj2 (collaborator _))))) in H
        | apply (proj1 (proj2 (proj2 (proj2 (proj2 (collaborator _)))))) in H
        | apply (proj2 (proj2 (proj2 (proj2 (proj2 (collaborator _)))))) in H ].

Lemma checkBound_throws range p bound e :
  checkBound range p bound = Throw e ->
  e = TypeError \/ exists b, bound = Some b /\ b <> "" /\ e = incompatible range b.
Proof.
  unfold checkBound. destruct bound as [b|]; [|discriminate].
  destruct (String.eqb_spec b "") as [|Hb]; [discriminate|].
  assert (G : forall s : bool,
             (if s then Ret tt else Throw (incompatible range b)) = Throw e ->
             e = TypeError \/ exists b0, Some b = Some b0 /\ b0 <> "" /\ e = incompatible range b0).
  { intros [] H; [discriminate|]. injection H as <-. right. exists b. auto. }
  unfold andM.
  destruct (semver.satisfies (version p) b) as [s|e1] eqn:S; cbn [bind].
  2:{ intros H. injection H as <-. collab S. auto. }
  assert (K : (match prerelease p with
               | Some _ =>
                   pb <- parseRange b ;;
                   match prerelease pb with
                   | Some _ =>
                       pb' <- parseRange b ;;
                       s <- semver.satisfies (version pb') range ;;
                       if s then Ret tt else Throw (incompatible range b)
                   | None =>
                       s <- semver.satisfies (version p) (range ++ " " ++ b) ;;
                       if s then Ret tt else Throw (incompatible range b)
                   end
               | None => Throw (incompatible range b)
               end) = Throw e ->
              e = TypeError \/ exists b0, Some b = Some b0 /\ b0 <> "" /\ e = incompatible range b0).
  { destruct (prerelease p).
    - destruct (parseRange b) as [pb|e2] eqn:P; cbn [bind].
      + destruct (prerelease pb); rewrite ?P; cbn [bind].
        * destruct (semver.satisfies (version pb) range) as [s2|e3] eqn:S2; cbn [bind];
            [apply G|]. intros H. injection H as <-. collab S2. auto.
        * destruct (semver.satisfies (version p) (range ++ " " ++ b)) as [s2|e3] eqn:S2;
            cbn [bind]; [apply G|]. intros H. injection H as <-. collab S2. auto.
      + intros H. injection H as <-. apply parseRange_throws in P. auto.
    - intros H. injection H as <-. right. exists b. auto. }
  destruct s.
  - destruct (semver.intersects range b) as [i|e1] eqn:I; cbn [bind].
    + destruct i; [discriminate | exact K].
    + intros H. injection H as <-. collab I. auto.
  - cbn [bind]. exact K.
Qed.

Lemma ensureCompatible_throws range bounds e :
  ensureCompatible range bounds = Throw e ->
  e = TypeError
  \/ exists b, In (Some b) bounds /\ b <> "" /\ e = incompatible range b.
Proof.
  unfold ensureCompatible. destruct (parseRange range) as [p|e1] eqn:P; cbn [bind].
  - intros H. apply forEachM_throws in H. destruct H as (bound & Hin & H).
    apply checkBound_throws in H. destruct H as [-> | (b & -> & Hb & ->)]; [auto|].
    right. exists b. auto.
  - intros H. injection H as <-. apply parseRange_throws in P. auto.
Qed.

Lemma order_throws a b e :
  (semver.lt a b = Throw e -> e = TypeError) /\
  (semver.gt a b = Throw e -> e = TypeError) /\
  (semver.eq a b = Throw e -> e = TypeError).
Proof.
  unfold semver.lt, semver.gt, semver.eq.
  destruct (semver.compare a b) as [c|e1] eqn:C; cbn [bind].
  - repeat split; discriminate.
  - collab C. subst e1. repeat split; intros H; injection H as <-; reflexivity.
Qed.

Lemma mergeBounds_throws range bound e :
  mergeBounds range bound = Throw e -> e = TypeError.
Proof.
  unfold mergeBounds. destruct bound as [b|]; [|discriminate].
  destruct (b =? ""); [discriminate|].
  destruct (parseRange range) as [p|e1] eqn:P; cbn [bind];
    [|intros H; injection H as <-; apply (parseRange_throws _ _ P)].
  destruct (parseRange b) as [pb|e1] eqn:Pb; cbn [bind];
    [|intros H; injection H as <-; apply (parseRange_throws _ _ Pb)].
  destruct (order_throws (version p) (version pb) e) as (L & G & Q).
  assert (K : (tie <- andM (Ret ((condition p =? "<") || (condition p =? ">")))
                        (semver.eq (version p) (version pb)) ;;
               if tie then Ret range else Ret b) = Throw e -> e = TypeError).
  { unfold andM. cbn [bind].
    destruct ((condition p =? "<") || (condition p =? ">")); [|discriminate].
    destruct (semver.eq (version p) (version pb)) as [[]|e1]; cbn [bind];
      try discriminate. intros H. injection H as <-. apply Q. reflexivity. }
  destruct (startsWith "<" (condition p)).
  - destruct (semver.lt (version p) (version pb)) as [[]|e1]; cbn [bind];
      [discriminate | exact K | intros H; injection H as <-; apply L; reflexivity].
  - destruct (semver.gt (version p) (version pb)) as [[]|e1]; cbn [bind];
      [discriminate | exact K | intros H; injection H as <-; apply G; reflexivity].
Qed.

Lemma updateBounds_throws b range e :
  updateBounds b range = Throw e ->
  e = TypeError \/ exists bound, bound <> "" /\ e = incompatible range bound
                                 /\ (lowerBound b = Some bound \/ upperBound b = Some bound).
Proof.
  assert (EC : forall bounds,
             (forall x, In (Some x) bounds -> lowerBound b = Some x \/ upperBound b = Some x) ->
             ensureCompatible range bounds = Throw e ->
             e = TypeError \/ exists bound, bound <> "" /\ e = incompatible range bound
                                 /\ (lowerBound b = Some bound \/ upperBound b = Some bound)).
  { intros bounds Hb H. apply ensureCompatible_throws in H.
    destruct H as [-> | (x & Hx & Hne & ->)]; [auto|]. right. exists x. auto. }
  assert (B2 : forall x, In (Some x) [lowerBound b; upperBound b] ->
                         lowerBound b = Some x \/ upperBound b = Some x).
  { intros x [H | [H | []]]; auto. }
  assert (BL : forall x, In (Some x) [lowerBound b] ->
                         lowerBound b = Some x \/ upperBound b = Some x).
  { intros x [H | []]; auto. }
  assert (BU : forall x, In (Some x) [upperBound b] ->
                         lowerBound b = Some x \/ upperBound b = Some x).
  { intros x [H | []]; auto. }
  unfold updateBounds. destruct (parseRange range) as [p|e1] eqn:P; cbn [bind];
    [|intros H; injection H as <-; left; apply (parseRange_throws _ _ P)].
  destruct (match prerelease p with
            | Some _ => ensureCompatible range [lowerBound b; upperBound b]
            | None => Ret tt
            end) as [[]|e1] eqn:Q; cbn [bind].
  2:{ intros H. injection H as <-. destruct (prerelease p); [|discriminate].
      apply (EC _ B2 Q). }
  destruct (String.eqb_spec (condition p) "=") as [Ec|_].
  - destruct (ensureCompatible range [lowerBound b; upperBound b]) as [[]|e1] eqn:E2;
      cbn [bind].
    + rewrite Ec. cbn [startsWith Ascii.eqb Bool.eqb andb]. discriminate.
    + intros H. injection H as <-. apply (EC _ B2 E2).
  - cbn [bind]. destruct (startsWith ">" (condition p)) eqn:G.
    + rewrite (startsWith_gt_not_lt _ G).
      destruct (ensureCompatible range [upperBound b]) as [[]|e1] eqn:E1; cbn [bind].
      * destruct (mergeBounds range (lowerBound b)) as [l|e1] eqn:M; cbn [bind];
          [discriminate|].
        intros H. injection H as <-. left. apply (mergeBounds_throws _ _ _ M).
      * intros H. injection H as <-. apply (EC _ BU E1).
    + cbn [bind]. destruct (startsWith "<" (condition p)); [|discriminate].
      destruct (ensureCompatible range [lowerBound b]) as [[]|e1] eqn:E1; cbn [bind].
      * destruct (mergeBounds range (upperBound b)) as [u|e1] eqn:M; cbn [bind];
          [discriminate|].
        intros H. injection H as <-. left. apply (mergeBounds_throws _ _ _ M).
      * intros H. injection H as <-. apply (EC _ BL E1).
Qed.

Lemma fold_throws ranges b e :
  reduceM updateBounds ranges b = Throw e ->
  e = TypeError \/ exists c bound, In c ranges /\ bound <> "" /\ e = incompatible c bound.
Proof.
  intros H. apply reduceM_throws in H.
  destruct H as (done & c & rest & b1 & -> & _ & H).
  apply updateBounds_throws in H. destruct H as [-> | (bound & Hne & -> & _)]; [auto|].
  right. exists c, bound. split; [|auto]. apply in_or_app. right. left. reflexivity.
Qed.

Lemma failures_in pairs e :
  In e (failures pairs) -> exists pr, In pr pairs /\ foldPair pr = Throw e.
Proof.
  unfold failures. intros H. apply in_flat_map in H. destruct H as (pr & Hpr & H).
  exists pr. split; [assumption|]. destruct (foldPair pr); [destruct H|].
  destruct H as [-> | []]. reflexivity.
Qed.

Lemma createShorthand_throws range e : createShorthand range = Throw e -> e = TypeError.
Proof.
  pose proof (fun e a => proj1 (proj2 (proj2 (proj2 (collaborator e)))) a) as HM.
  pose proof (fun e a => proj1 (proj2 (proj2 (proj2 (proj2 (collaborator e))))) a) as Hm.
  unfold createShorthand. destruct (Regex.minMax range) as [[min max]|]; [|discriminate].
  destruct (min =? max); [discriminate|].
  destruct (includes "<=" range); [discriminate|].
  intros H.
  destruct (semver.major min) as [M1|e1] eqn:E1, (semver.major max) as [M2|e2] eqn:E2,
           (semver.minor min) as [m1|e3] eqn:E3, (semver.minor max) as [m2|e4] eqn:E4;
    unfold andM in H; cbn [bind] in H;
    repeat match type of H with
           | context [if ?c then _ else _] => destruct c; cbn [bind] in H
           end;
    try discriminate H; injection H as <-;
    first [apply (HM _ _ E1) | apply (HM _ _ E2) | apply (Hm _ _ E3) | apply (Hm _ _ E4)].
Qed.

(** With a collaborator that throws only [TypeError], [intersect] throws
    either a [TypeError] or the error of [ensureCompatible] for a
    comparator of the normalised arguments and a bound; it never throws
    [undefined]. *)
Theorem intersect_throws (ranges : list string) (e : exn) :
  intersect ranges = Throw e ->
  e = TypeError
  \/ exists rangeUnions rangeUnion conjunction c bound,
       expandRanges ranges = Ret rangeUnions /\
       In rangeUnion rangeUnions /\ In conjunction rangeUnion /\ In c conjunction /\
       bound <> "" /\
       e = Error ("Range " ++ c ++ " is not compatible with " ++ bound).
Proof.
  unfold intersect. destruct (expandRanges ranges) as [rangeUnions|e1] eqn:X; cbn [bind].
  2:{ intros H. injection H as <-. left. unfold expandRanges in X.
      apply mapM_throws in X. destruct X as (r & _ & X). unfold expandRange in X.
      destruct (semver.validRange r); [discriminate|]. injection X as <-. reflexivity. }
  destruct (intersectUnions rangeUnions) as [resultUnion|e1] eqn:U; cbn [bind].
  - destruct (mapM _ resultUnion) as [shorthands|e1] eqn:S; cbn [bind]; [discriminate|].
    intros H. injection H as <-. left. apply mapM_throws in S.
    destruct S as (bound & _ & S). apply (createShorthand_throws _ _ S).
  - intros H. injection H as H. subst e1.
    pose proof (expandRanges_nonempty _ _ X) as Hne.
    unfold intersectUnions in U. apply reduceM_throws in U.
    destruct U as (done & rangeUnion & rest & boundsUnion & -> & Hd & Hs).
    rewrite intersectStep_spec in Hs.
    destruct (survivors (list_prod boundsUnion rangeUnion)) eqn:Es; [|discriminate].
    assert (Hp : list_prod boundsUnion rangeUnion <> []).
    { apply list_prod_nonempty.
      - eapply intersectUnions_nonempty; [exact Hd | discriminate].
      - apply Forall_app in Hne. destruct Hne as [_ Hne]. inversion Hne. assumption. }
    destruct (failures_nonempty _ Hp Es) as (e' & others & Ef).
    rewrite Ef in Hs. injection Hs as Hs. subst e'.
    assert (Hin : In e (failures (list_prod boundsUnion rangeUnion)))
      by (rewrite Ef; left; reflexivity).
    apply failures_in in Hin. destruct Hin as ([b conjunction] & Hpr & Hf).
    apply in_prod_iff in Hpr. destruct Hpr as [_ Hc].
    unfold foldPair in Hf. cbn [fst snd] in Hf. apply fold_throws in Hf.
    destruct Hf as [-> | (c & bound & Hcin & Hb & ->)]; [auto|]. right.
    exists (done ++ rangeUnion :: rest)%list, rangeUnion, conjunction, c, bound.
    repeat split; try assumption. apply in_or_app. right. left. reflexivity.
Qed.

End Throws.

Lemma nodeSemver_throws : Notions.ThrowsTypeErrors NodeSemver.api.
Proof.
  intros e. cbn. unfold NodeSemver.satisfies, NodeSemver.intersects, NodeSemver.compare,
    NodeSemver.field.
  repeat split; intros;
    repeat match goal with
           | H : context [match ?x with _ => _ end] |- _ => destruct x
           end;
    congruence.
Qed.

Lemma intersect_throws_witness :
  Error "Range >=4.4.0 is not compatible with <4.4.0" = TypeError
  \/ exists rangeUnions rangeUnion conjunction c bound,
       expandRanges (sv := NodeSemver.api) [">=4.3.0 <4.4.0"; ">=4.4.0 <5.0.0"]
       = Ret rangeUnions /\
       In rangeUnion rangeUnions /\ In conjunction rangeUnion /\ In c conjunction /\
       bound <> "" /\
       Error "Range >=4.4.0 is not compatible with <4.4.0"
       = Error ("Range " ++ c ++ " is not compatible with " ++ bound).
Proof.
  apply (intersect_throws (sv := NodeSemver.api) nodeSemver_throws
           [">=4.3.0 <4.4.0"; ">=4.4.0 <5.0.0"]).
  reflexivity.
Defined.

(** ** Any number of unions *)

Section Choices.
Context {sv : semver.API}.

Lemma foldedFrom_app_from b l1 l2 :
  foldedFrom b (l1 ++ l2)%list = flat_map (fun s => foldedFrom s l2) (foldedFrom b l1).
Proof.
  unfold foldedFrom. rewrite reduceM_app.
  destruct (reduceM updateBounds l1 b); simpl; [|reflexivity].
  rewrite app_nil_r. reflexivity.
Qed.

Lemma foldedFrom_cases b l : foldedFrom b l = [] \/ exists s, foldedFrom b l = [s].
Proof. unfold foldedFrom. destruct (reduceM updateBounds l b); eauto. Qed.

Lemma flat_map_flat_map {A B C : Type} (f : A -> list B) (g : B -> list C) l :
  flat_map g (flat_map f l) = flat_map (fun x => flat_map g (f x)) l.
Proof.
  induction l as [|x l IH]; [reflexivity|]. simpl. rewrite flat_map_app, IH. reflexivity.
Qed.

Lemma flat_map_map {A B C : Type} (f : A -> B) (g : B -> list C) l :
  flat_map g (map f l) = flat_map (fun x => g (f x)) l.
Proof. induction l as [|x l IH]; [reflexivity|]. simpl. rewrite IH. reflexivity. Qed.

Lemma flat_map_nil {A B : Type} (l : list A) : flat_map (fun _ => @nil B) l = [].
Proof. induction l; auto. Qed.

Lemma foldedChoices_cons b u us :
  foldedChoices b (u :: us)
  = flat_map (fun s => foldedChoices s us) (flat_map (foldedFrom b) u).
Proof.
  unfold foldedChoices. cbn [choices].
  rewrite !flat_map_flat_map. apply flat_map_ext_in. intros c _.
  rewrite flat_map_map. cbn [concat].
  etransitivity; [apply flat_map_ext_in; intros ch _; apply foldedFrom_app_from|].
  destruct (foldedFrom_cases b c) as [-> | (s & ->)]; cbn [flat_map].
  - apply flat_map_nil.
  - rewrite app_nil_r. apply flat_map_ext_in. intros ch _. apply app_nil_r.
Qed.

Lemma survivors_prod bu u :
  survivors (list_prod bu u) = flat_map (fun b => flat_map (foldedFrom b) u) bu.
Proof.
  induction bu as [|b bu IH]; [reflexivity|].
  change (b :: bu) with ([b] ++ bu)%list at 1.
  rewrite list_prod_app_l, survivors_app, survivors_single, IH. reflexivity.
Qed.

Lemma reduce_choices us bu :
  (forall r, reduceM intersectStep us bu = Ret r ->
             r = flat_map (fun b => foldedChoices b us) bu) /\
  (flat_map (fun b => foldedChoices b us) bu <> [] ->
   reduceM intersectStep us bu = Ret (flat_map (fun b => foldedChoices b us) bu)).
Proof.
  revert bu. induction us as [|u us IH]; intros bu.
  - assert (E : flat_map (fun b => foldedChoices b []) bu = bu).
    { unfold foldedChoices. simpl. induction bu as [|b bu IHb]; [reflexivity|].
      simpl. rewrite IHb. reflexivity. }
    rewrite E. simpl. split; [intros r H; injection H as <-|]; reflexivity.
  - assert (E : flat_map (fun b => foldedChoices b (u :: us)) bu
                = flat_map (fun s => foldedChoices s us) (survivors (list_prod bu u))).
    { rewrite survivors_prod, flat_map_flat_map. apply flat_map_ext_in. intros b _.
      apply foldedChoices_cons. }
    rewrite E. cbn [reduceM]. rewrite intersectStep_spec.
    destruct (survivors (list_prod bu u)) as [|s ss] eqn:S.
    + split.
      * intros r H. destruct (failures (list_prod bu u)); discriminate.
      * intros H. exfalso. apply H. reflexivity.
    + cbn [bind]. apply IH.
Qed.

(** The branches [intersect] folds to are the choices of one conjunction
    from each argument whose comparators, taken in a row, fold without
    error, in the order of the choices; the reduction throws exactly when
    there is none. *)
Theorem intersectUnions_choices (rangeUnions : list (list (list string))) :
  (forall resultUnion,
      intersectUnions rangeUnions = Ret resultUnion ->
      resultUnion = foldedChoices noBounds rangeUnions) /\
  (foldedChoices noBounds rangeUnions <> [] ->
   intersectUnions rangeUnions = Ret (foldedChoices noBounds rangeUnions)) /\
  (forall resultUnion,
      intersectUnions rangeUnions = Ret resultUnion ->
      1 <= length resultUnion <= fold_right Nat.mul 1 (map (@length _) rangeUnions)).
Proof.
  destruct (reduce_choices rangeUnions [noBounds]) as [H1 H2].
  cbn [flat_map] in H1, H2. rewrite app_nil_r in H1, H2.
  split; [exact H1|]. split; [exact H2|].
  intros r H. split.
  - assert (N : r <> []) by (apply (intersectUnions_nonempty _ _ _ H); discriminate).
    destruct r; [congruence | simpl; lia].
  - rewrite (H1 _ H). unfold foldedChoices. clear.
    assert (L : forall {A} (f : A -> list Bounds) l,
               (forall x, length (f x) <= 1) -> length (flat_map f l) <= length l).
    { intros A f l Hf. induction l as [|x l IH]; [simpl; lia|].
      simpl. rewrite length_app. specialize (Hf x). lia. }
    etransitivity; [apply L|].
    + intros ch. unfold foldedFrom. destruct (reduceM _ _ _); simpl; lia.
    + induction rangeUnions as [|u us IH]; [simpl; lia|]. cbn [choices map fold_right].
      induction u as [|c u IHu]; [simpl; lia|].
      cbn [flat_map]. rewrite length_app, length_map. simpl length. lia.
Qed.

End Choices.

Lemma intersectUnions_choices_witness :
  [mkBounds (Some ">=1.0.0") (Some "<3.0.0"); mkBounds (Some ">=2.0.0") (Some "<3.0.0")]
  = foldedChoices (sv := NodeSemver.api) noBounds
      [[[">=1.0.0"]; [">=2.0.0"]]; [["<3.0.0"]; ["<1.0.0"]]].
Proof.
  apply (proj1 (intersectUnions_choices (sv := NodeSemver.api)
                  [[[">=1.0.0"]; [">=2.0.0"]]; [["<3.0.0"]; ["<1.0.0"]]])).
  reflexivity.
Defined.

(** ** Arguments without alternatives, and the shape of the normal forms *)

Section Shape.
Context {sv : semver.API}.

Lemma reduce_singletons conjunctions b :
  reduceM intersectStep (map (fun c => [c]) conjunctions) [b]
  = (b' <- reduceM updateBounds (concat conjunctions) b ;; Ret [b']).
Proof.
  revert b. induction conjunctions as [|c l IH]; intros b; [reflexivity|].
  cbn [map reduceM concat]. rewrite intersectStep_spec, reduceM_app.
  unfold survivors, failures, foldPair. cbn [list_prod map app flat_map fst snd].
  destruct (reduceM updateBounds c b) as [b1|e]; cbn [app bind]; [apply IH | reflexivity].
Qed.

(** When no argument has alternatives, [intersect] is one fold of
    [updateBounds] over the comparators of all arguments in a row, and
    what that fold throws is what [intersect] throws. *)
Theorem intersect_without_alternatives (ranges : list string)
        (conjunctions : list (list string)) :
  expandRanges ranges = Ret (map (fun c => [c]) conjunctions) ->
  intersect ranges
  = (bound <- reduceM updateBounds (concat conjunctions) noBounds ;;
     createShorthand (formatIntersection bound)).
Proof.
  intros H. unfold intersect, intersectUnions. rewrite H. cbn [bind].
  rewrite reduce_singletons.
  destruct (reduceM updateBounds (concat conjunctions) noBounds) as [b|e]; cbn [bind mapM];
    [|reflexivity].
  destruct (createShorthand (formatIntersection b)); reflexivity.
Qed.

Lemma splitSpaceFrom_nonempty inSep s : splitSpaceFrom inSep s <> [].
Proof.
  revert inSep. induction s as [|c s IH]; intros inSep; simpl; [discriminate|].
  destruct (isSpace c); [destruct inSep; [apply IH | discriminate]|].
  apply consHead_nonempty.
Qed.

Lemma distinct_nonempty l : l <> [] -> distinct l <> [].
Proof.
  destruct l as [|x l]; [congruence|]. intros _ E.
  assert (H : In x (distinct (x :: l))) by (apply distinct_in; left; reflexivity).
  rewrite E in H. destruct H.
Qed.

Lemma mapM_length {A B : Type} (f : A -> outcome B) l ys :
  mapM f l = Ret ys -> length ys = length l.
Proof.
  intros H. apply mapM_Forall2 in H. symmetry. eapply Forall2_length. exact H.
Qed.

Lemma mapM_returns {A B : Type} (f : A -> outcome B) l :
  (forall x, In x l -> exists y, f x = Ret y) -> exists ys, mapM f l = Ret ys.
Proof.
  induction l as [|x l IH]; intros H; [eexists; reflexivity|].
  destruct (H x (or_introl eq_refl)) as (y & Hy).
  destruct IH as (ys & Hys); [intros z Hz; apply H; right; assumption|].
  exists (y :: ys). cbn [mapM]. rewrite Hy, Hys. reflexivity.
Qed.

(** [expandRanges] throws, and then a [TypeError], exactly when
    [semver.validRange] rejects one of the arguments; [intersect] throws
    the same.  Otherwise it returns one union per argument, no union
    without a conjunction and no conjunction without a comparator. *)
Theorem expandRanges_shape (ranges : list string) :
  ((exists range, In range ranges /\ semver.validRange range = None) <->
   expandRanges ranges = Throw TypeError) /\
  (forall e, expandRanges ranges = Throw e ->
             e = TypeError /\ intersect ranges = Throw TypeError) /\
  (forall rangeUnions,
      expandRanges ranges = Ret rangeUnions ->
      length rangeUnions = length ranges /\
      Forall (fun rangeUnion =>
                rangeUnion <> [] /\ Forall (fun conjunction => conjunction <> []) rangeUnion)
             rangeUnions).
Proof.
  assert (T : forall e, expandRanges ranges = Throw e ->
                        e = TypeError /\
                        exists range, In range ranges /\ semver.validRange range = None).
  { intros e H. unfold expandRanges in H. apply mapM_throws in H.
    destruct H as (r & Hr & H). unfold expandRange in H.
    destruct (semver.validRange r) eqn:V; [discriminate|]. injection H as <-.
    split; [reflexivity|]. exists r. auto. }
  split; [split|split].
  - intros (r & Hr & V). destruct (expandRanges ranges) as [us|e] eqn:X.
    + exfalso. unfold expandRanges in X. apply mapM_Forall2 in X.
      clear T. induction X as [|x u l us' Hx _ IH]; [destruct Hr|].
      destruct Hr as [-> | Hr]; [|auto].
      unfold expandRange in Hx. rewrite V in Hx. discriminate.
    + destruct (T _ eq_refl) as [-> _]. reflexivity.
  - intros H. apply (T _ H).
  - intros e H. destruct (T _ H) as [-> _]. split; [reflexivity|].
    unfold intersect. rewrite H. reflexivity.
  - intros us H. split; [apply (mapM_length _ _ _ H)|].
    unfold expandRanges in H. apply mapM_Forall2 in H. clear T.
    induction H as [|range u l us' Hu _ IH]; constructor; [|exact IH].
    unfold expandRange in Hu. destruct (semver.validRange range) as [v|]; [|discriminate].
    injection Hu as <-. split.
    + intros E. apply map_eq_nil in E. eapply splitOr_nonempty; eauto.
    + apply Forall_map, Forall_forall. intros part _. apply distinct_nonempty.
      intros E. apply map_eq_nil in E. eapply splitSpaceFrom_nonempty. exact E.
Qed.

End Shape.

Lemma expandRanges_shape_witness :
  expandRanges (sv := NodeSemver.api) ["^1.0.0"; "latest"] = Throw TypeError
  /\ intersect (sv := NodeSemver.api) ["^1.0.0"; "latest"] = Throw TypeError.
Proof.
  pose proof (expandRanges_shape (sv := NodeSemver.api) ["^1.0.0"; "latest"]) as [H1 [H2 _]].
  assert (E : expandRanges (sv := NodeSemver.api) ["^1.0.0"; "latest"] = Throw TypeError).
  { apply H1. exists "latest". split; [right; left; reflexivity | reflexivity]. }
  split; [exact E | exact (proj2 (H2 _ E))].
Defined.

Lemma intersect_without_alternatives_witness :
  intersect (sv := NodeSemver.api) [">=4.0.0 <5.0.0"; ">=4.3.0 <4.4.0"]
  = (bound <- reduceM (updateBounds (sv := NodeSemver.api))
                (concat [[">=4.0.0"; "<5.0.0"]; [">=4.3.0"; "<4.4.0"]]) noBounds ;;
     createShorthand (sv := NodeSemver.api) (formatIntersection bound)).
Proof.
  apply (intersect_without_alternatives (sv := NodeSemver.api)
           [">=4.0.0 <5.0.0"; ">=4.3.0 <4.4.0"]
           [[">=4.0.0"; "<5.0.0"]; [">=4.3.0"; "<4.4.0"]]).
  reflexivity.
Defined.

(** ** Wildcards *)

Lemma startsWith_iff p s : startsWith p s = true <-> exists r, s = p ++ r.
Proof.
  revert s. induction p as [|a p IH]; intros s; cbn [startsWith].
  - split; [intros _; exists s; reflexivity | reflexivity].
  - destruct s as [|b s].
    + split; [discriminate | intros (r & H); discriminate].
    + rewrite andb_true_iff, Ascii.eqb_eq, IH. split.
      * intros [-> (r & ->)]. exists r. reflexivity.
      * intros (r & H). injection H as -> ->. split; [reflexivity | exists r; reflexivity].
Qed.

Lemma includes_iff p s : includes p s = true <-> exists a b, s = a ++ p ++ b.
Proof.
  induction s as [|c s IH].
  - cbn [includes]. rewrite orb_false_r, startsWith_iff. split.
    + intros (r & H). exists "", r. exact H.
    + intros (a & b & H). destruct a; [exists b; exact H | discriminate].
  - cbn [includes]. rewrite orb_true_iff, startsWith_iff, IH. split.
    + intros [(r & H) | (a & b & ->)].
      * exists "", r. exact H.
      * exists (String c a), b. reflexivity.
    + intros (a & b & H). destruct a as [|x a].
      * left. exists b. exact H.
      * right. injection H as -> ->. exists a, b. reflexivity.
Qed.

Lemma endsWith_iff p s : endsWith p s = true <-> exists a, s = a ++ p.
Proof.
  induction s as [|c s IH].
  - cbn [endsWith]. rewrite orb_false_r, String.eqb_eq. split.
    + intros <-. exists "". reflexivity.
    + intros (a & H). destruct a; [exact H | discriminate].
  - cbn [endsWith]. rewrite orb_true_iff, String.eqb_eq, IH. split.
    + intros [<- | (a & ->)]; [exists ""; reflexivity | exists (String c a); reflexivity].
    + intros (a & H). destruct a as [|x a]; [left; exact H|].
      right. injection H as -> ->. exists a. reflexivity.
Qed.

(** [coerceRange] replaces by [>=0.0.0] exactly the strings [regex.x]
    matches: those that start with [x], those that hold an [X] anywhere,
    and those that end with [*]; the others are returned as they are.
    Applied to its own result it changes nothing. *)
Theorem coerceRange_cases (range : string) :
  (((exists r, range = "x" ++ r) \/ (exists a b, range = a ++ "X" ++ b)
    \/ (exists a, range = a ++ "*")) -> coerceRange range = ">=0.0.0")
  /\ (~ ((exists r, range = "x" ++ r) \/ (exists a b, range = a ++ "X" ++ b)
         \/ (exists a, range = a ++ "*")) -> coerceRange range = range)
  /\ coerceRange (coerceRange range) = coerceRange range.
Proof.
  assert (X : Regex.x range = true <->
              ((exists r, range = "x" ++ r) \/ (exists a b, range = a ++ "X" ++ b)
               \/ (exists a, range = a ++ "*"))).
  { unfold Regex.x. rewrite !orb_true_iff, startsWith_iff, includes_iff, endsWith_iff.
    tauto. }
  unfold coerceRange. repeat split.
  - intros H. apply X in H. rewrite H. reflexivity.
  - intros H. destruct (Regex.x range); [exfalso; apply H, X; reflexivity | reflexivity].
  - destruct (Regex.x range) eqn:E; [reflexivity | rewrite E; reflexivity].
Qed.

Lemma coerceRange_cases_witness : coerceRange ">=1.0.0-X" = ">=0.0.0".
Proof.
  apply (proj1 (coerceRange_cases ">=1.0.0-X")).
  right. left. exists ">=1.0.0-", "". reflexivity.
Defined.

(** ** Comparators once more *)

Lemma suffix_of_run run v before v' :
  run ++ v = before ++ v' ->
  String.length v' <= String.length v
  \/ exists c r, v' = String c r /\ In c (list_ascii_of_string run).
Proof.
  revert before. induction run as [|c run IH]; intros before H.
  - left. cbn in H. rewrite H, length_append. lia.
  - destruct before as [|x before].
    + right. cbn in H. exists c, (run ++ v). split; [symmetry; exact H | left; reflexivity].
    + cbn in H. injection H as _ H. destruct (IH _ H) as [L | (c' & r & E & Hin)]; [auto|].
      right. exists c', r. split; [exact E | right; exact Hin].
Qed.

Lemma all_in p s c : all p s = true -> In c (list_ascii_of_string s) -> p c = true.
Proof.
  induction s as [|x s IH]; [intros _ []|]. cbn [all list_ascii_of_string].
  intros H [<- | Hin]; apply andb_true_iff in H; [tauto | apply IH; tauto].
Qed.

Lemma digit_not_cond c : isDigit c = true -> isCond c = false.
Proof. char_cases c. Qed.

(** A run of operator characters in front of a version: the version is the
    trailing version and the run the leading run. *)
Lemma trailing_after_run run v :
  all isCond run = true -> Pattern.Matches Pattern.version v ->
  Pattern.TrailingVersion (run ++ v) v /\ Pattern.LeadingRun (run ++ v) run.
Proof.
  intros Hrun Hv. destruct (version_head _ Hv) as (d & r & Ev & Hd). split.
  - split; [exists run; reflexivity|]. split; [exact Hv|].
    intros before v' E Hv'. destruct (suffix_of_run _ _ _ _ E) as [L | (c & r' & -> & Hin)];
      [exact L|].
    exfalso. destruct (version_head _ Hv') as (c' & r'' & E' & Hc'). injection E' as <- <-.
    apply digit_not_cond in Hc'. rewrite (all_in _ _ _ Hrun Hin) in Hc'. discriminate.
  - exists v. split; [reflexivity|]. split; [exact Hrun|].
    intros c rest E. rewrite Ev in E. injection E as <- <-. apply digit_not_cond, Hd.
Qed.

Section Reparse.
Context {sv : semver.API}.

Lemma parseRange_of_run run v :
  all isCond run = true -> Pattern.Matches Pattern.version v ->
  parseRange (run ++ v)
  = Ret (mkParsed (if run =? "" then "=" else run) (semver.prerelease v) v).
Proof.
  intros Hrun Hv. destruct (trailing_after_run _ _ Hrun Hv) as [T L].
  unfold parseRange. rewrite (version_complete _ _ T), (condition_of_run _ _ L).
  reflexivity.
Qed.

(** What [parseRange] returns parses to itself: the condition followed by
    the version gives the same object again, and the version alone the
    same object with condition [=]. *)
Theorem parseRange_reassembled (range : string) (p : Parsed) :
  parseRange range = Ret p ->
  parseRange (condition p ++ version p) = Ret p
  /\ parseRange (version p) = Ret (mkParsed "=" (prerelease p) (version p)).
Proof.
  unfold parseRange at 1. destruct (Regex.version range) as [v|] eqn:V; [|discriminate].
  intros H. injection H as <-. cbn [condition version prerelease].
  apply version_sound in V. destruct V as (_ & Hv & _).
  pose proof (condition_sound range) as C. split.
  - destruct (Regex.condition range) as [run|].
    + destruct C as [Hne (rest & _ & Hrun & _)].
      rewrite (parseRange_of_run _ _ Hrun Hv).
      apply String.eqb_neq in Hne. rewrite Hne. reflexivity.
    + apply (parseRange_of_run "=" v eq_refl Hv).
  - apply (parseRange_of_run "" v eq_refl Hv).
Qed.

(** A comparator none of whose suffixes is a version makes [parseRange]
    throw a [TypeError] ([regex.version.exec] is [null]), and nothing else
    does; [ensureCompatible], [updateBounds] and, against a bound that is
    present, [mergeBounds] then throw it too, whatever the bounds. *)
Theorem comparator_without_version (range : string) :
  ((forall before v, range = before ++ v -> ~ Pattern.Matches Pattern.version v)
   <-> parseRange range = Throw TypeError)
  /\ (forall e, parseRange range = Throw e -> e = TypeError)
  /\ (parseRange range = Throw TypeError ->
      (forall bounds, ensureCompatible range bounds = Throw TypeError)
      /\ (forall b, updateBounds b range = Throw TypeError)
      /\ (forall bound, falsy bound = false ->
                        mergeBounds range bound = Throw TypeError)).
Proof.
  split; [|split].
  - unfold parseRange. split.
    + intros H. destruct (Regex.version range) as [v|] eqn:V; [|reflexivity].
      exfalso. apply version_sound in V. destruct V as ((before & E) & Hv & _).
      exact (H before v E Hv).
    + destruct (Regex.version range) as [v|] eqn:V; [discriminate|].
      intros _. apply version_none. exact V.
  - intros e. unfold parseRange. destruct (Regex.version range); [discriminate|].
    intros H. injection H as <-. reflexivity.
  - intros H. split; [|split].
    + intros bounds. unfold ensureCompatible. rewrite H. reflexivity.
    + intros b. unfold updateBounds. rewrite H. reflexivity.
    + intros bound Hb. unfold mergeBounds. destruct bound as [s|]; [|discriminate].
      cbn [falsy] in Hb. rewrite Hb, H. reflexivity.
Qed.

End Reparse.

Lemma comparator_without_version_witness :
  updateBounds (sv := NodeSemver.api) (mkBounds (Some ">=1.0.0") None) "<2.x"
  = Throw TypeError.
Proof.
  apply (proj1 (proj2 (proj2 (proj2 (comparator_without_version (sv := NodeSemver.api)
                                       "<2.x")) eq_refl))).
Defined.

Lemma parseRange_reassembled_witness :
  parseRange (sv := NodeSemver.api) (">=" ++ "1.2.3-rc.1")
  = Ret (mkParsed ">=" (Some ["rc"; "1"]) "1.2.3-rc.1")
  /\ parseRange (sv := NodeSemver.api) "1.2.3-rc.1"
     = Ret (mkParsed "=" (Some ["rc"; "1"]) "1.2.3-rc.1").
Proof.
  apply (parseRange_reassembled (sv := NodeSemver.api) ">= 1.2.3-rc.1"
           (mkParsed ">=" (Some ["rc"; "1"]) "1.2.3-rc.1")).
  reflexivity.
Defined.

(** ** A single comparator *)













Section Single.
Context {sv : semver.API}.





End Single.


(** ** Narrowing twice *)

Module NarrowFacts.
Import Order OrderFacts.

Section Facts.
Context {T : Type} (cmp : T -> T -> comparison) (total : TotalCompare cmp).

Lemma max_idem a b : max cmp (max cmp a b) b = max cmp a b.
Proof.
  rewrite (max_assoc cmp total). f_equal. unfold max.
  destruct (ltb cmp b b); reflexivity.
Qed.

Lemma min_idem a b : min cmp (min cmp a b) b = min cmp a b.
Proof.
  rewrite (min_assoc cmp total). f_equal. unfold min.
  destruct (ltb cmp b b); reflexivity.
Qed.

Lemma omax_idem a b : omax cmp (omax cmp a b) b = omax cmp a b.
Proof.
  destruct a as [a|], b as [b|]; simpl; try reflexivity.
  - f_equal. apply max_idem.
  - f_equal. unfold max. destruct (ltb cmp b b); reflexivity.
Qed.

Lemma omin_idem a b : omin cmp (omin cmp a b) b = omin cmp a b.
Proof.
  destruct a as [a|], b as [b|]; simpl; try reflexivity.
  - f_equal. apply min_idem.
  - f_equal. unfold min. destruct (ltb cmp b b); reflexivity.
Qed.

(** Narrowing by an interval that is not empty a second time changes
    nothing. *)
Lemma narrow_twice st c st1 :
  olt cmp (fst c) (snd c) = true ->
  narrow cmp st c = Some st1 -> narrow cmp st1 c = Some st1.
Proof.
  destruct st as [lo hi], c as [cl ch]. unfold narrow. cbn [fst snd]. intros P.
  destruct (olt cmp cl hi) eqn:A, (olt cmp lo ch) eqn:B; try discriminate.
  intros H. injection H as <-. cbn [fst snd andb].
  rewrite (olt_omin cmp total), (omax_olt cmp total), A, B, P. cbn [andb].
  rewrite omax_idem, omin_idem. reflexivity.
Qed.

Lemma narrowAll_app l1 l2 st :
  narrowAll cmp (l1 ++ l2) st
  = match narrowAll cmp l1 st with
    | Some s => narrowAll cmp l2 s
    | None => None
    end.
Proof.
  revert st. induction l1 as [|c l1 IH]; intros st; [reflexivity|]. simpl.
  destruct (narrow cmp st c); [apply IH | reflexivity].
Qed.

Lemma double_permutation {A : Type} (l : list A) :
  Permutation (l ++ l) (flat_map (fun c => [c; c]) l).
Proof.
  induction l as [|c l IH]; [constructor|]. simpl. constructor.
  etransitivity; [apply Permutation_sym, Permutation_middle|]. constructor. exact IH.
Qed.

Lemma narrowAll_double l st :
  Forall (fun c => olt cmp (fst c) (snd c) = true) l ->
  narrowAll cmp (flat_map (fun c => [c; c]) l) st = narrowAll cmp l st.
Proof.
  intros H. revert st. induction H as [|c l Hc _ IH]; intros st; [reflexivity|].
  cbn [flat_map app narrowAll].
  destruct (narrow cmp st c) as [st1|] eqn:E; [|reflexivity].
  rewrite (narrow_twice _ _ _ Hc E). apply IH.
Qed.

Lemma narrowAll_again l st st1 :
  Forall (fun c => olt cmp (fst c) (snd c) = true) l ->
  narrowAll cmp l st = Some st1 -> narrowAll cmp l st1 = Some st1.
Proof.
  intros H E.
  pose proof (narrowAll_app l l st) as A. rewrite E in A. rewrite <- A.
  rewrite (narrowAll_permutation cmp total _ _ (double_permutation l)).
  rewrite (narrowAll_double _ _ H). exact E.
Qed.

End Facts.
End NarrowFacts.

(** ** The same range twice *)

Lemma interval_proper c :
  Order.olt Plain.compareCut (fst (Plain.interval c)) (snd (Plain.interval c)) = true.
Proof.
  unfold Plain.interval. destruct (Plain.comparator c) as [[o k]|]; [|reflexivity].
  destruct o; try reflexivity. cbn [Plain.lowerCut Plain.upperCut fst snd Order.olt].
  unfold Order.ltb, Plain.compareCut, Order.lex. cbn [fst snd].
  rewrite (OrderFacts.cmp_refl _ PlainFacts.compareKey_total). reflexivity.
Qed.

Lemma fold_again conjunction b :
  Forall (fun c => Plain.isPlain c = true) conjunction ->
  reduceM (updateBounds (sv := NodeSemver.api)) conjunction noBounds = Ret b ->
  reduceM (updateBounds (sv := NodeSemver.api)) conjunction b = Ret b.
Proof.
  intros P H.
  assert (B0 : Plain.BoundsAre noBounds (None, None)) by (split; reflexivity).
  pose proof (PlainFacts.reduce_plain _ _ _ P B0) as S. rewrite H in S.
  destruct S as (st1 & E & B1).
  pose proof (PlainFacts.reduce_plain _ _ _ P B1) as S.
  assert (A : Order.narrowAll Plain.compareCut (map Plain.interval conjunction) st1
              = Some st1).
  { apply (NarrowFacts.narrowAll_again _ PlainFacts.compareCut_total _ _ _ ) with (2 := E).
    apply Forall_map, Forall_forall. intros c _. apply interval_proper. }
  rewrite A in S.
  destruct (reduceM updateBounds conjunction b) as [b'|e]; [|discriminate].
  destruct S as (st' & E' & B'). injection E' as <-.
  rewrite (PlainFacts.boundsAre_inj _ _ _ B' B1). reflexivity.
Qed.

(** On a range whose normal form is one conjunction of plain comparators,
    [intersect] is idempotent: the range taken twice gives what it gives
    taken once. *)
Theorem intersect_same_range_twice (A : string) (conjunction : list string) (r : string) :
  expandRanges (sv := NodeSemver.api) [A] = Ret [[conjunction]] ->
  Forall (fun c => Plain.isPlain c = true) conjunction ->
  intersect (sv := NodeSemver.api) [A] = Ret r ->
  intersect (sv := NodeSemver.api) [A; A] = Ret r.
Proof.
  intros X P H.
  assert (X1 : expandRange (sv := NodeSemver.api) A = Ret [conjunction]).
  { unfold expandRanges in X. cbn [mapM] in X.
    destruct (expandRange A) as [u|]; [|discriminate]. cbn [bind] in X.
    injection X as ->. reflexivity. }
  unfold intersect, expandRanges, intersectUnions in *. cbn [mapM] in *.
  rewrite X1 in *. cbn [bind] in *.
  rewrite (reduce_singletons [conjunction] noBounds) in H.
  rewrite (reduce_singletons [conjunction; conjunction] noBounds).
  cbn [concat] in *. rewrite app_nil_r in *. rewrite reduceM_app.
  destruct (reduceM updateBounds conjunction noBounds) as [b|e] eqn:E; [|discriminate].
  cbn [bind] in *. rewrite (fold_again _ _ P E). cbn [bind]. exact H.
Qed.

Lemma intersect_same_range_twice_witness :
  intersect (sv := NodeSemver.api) ["^1.2.0"; "^1.2.0"] = Ret "^1.2.0".
Proof.
  apply (intersect_same_range_twice "^1.2.0" [">=1.2.0"; "<2.0.0"]).
  - reflexivity.
  - repeat constructor.
  - reflexivity.
Defined.

(** ** What the bounds mean *)

Module MeaningFacts.
Import NodeSemver Plain Meaning Order OrderFacts PlainFacts.

#[local] Abbreviation olt := (Order.olt compareCut).
#[local] Abbreviation narrow := (Order.narrow compareCut).
#[local] Abbreviation narrowAll := (Order.narrowAll compareCut).

(** No cut lies between the two cuts at a version. *)
Lemma cut_adjacent c k :
  Order.ltb compareCut c (k, true) = true -> Order.ltb compareCut (k, false) c = false.
Proof.
  destruct c as [k1 s1]. rewrite !ltb_cut.
  rewrite (Order.cmp_opp compareKey_total k1 k).
  destruct (compareKey k1 k), s1; simpl; congruence.
Qed.

Lemma through_version lo hi k :
  olt lo (Some (k, true)) = true -> olt (Some (k, false)) hi = true -> olt lo hi = true.
Proof.
  destruct lo as [lo|], hi as [hi|]; simpl; try reflexivity.
  intros A B. apply (le_ltb_trans compareCut compareCut_total lo (k, false) hi);
    [apply cut_adjacent, A | exact B].
Qed.

Lemma narrow_within st c st' k :
  narrow st c = Some st' -> within k st' = within k st && within k c.
Proof.
  destruct st as [lo hi], c as [cl ch]. unfold Order.narrow. cbn [fst snd].
  destruct (olt cl hi && olt lo ch); [|discriminate].
  intros H. injection H as <-. unfold within. cbn [fst snd].
  rewrite (omax_olt compareCut compareCut_total), (olt_omin compareCut compareCut_total).
  destruct (olt lo (Some (k, true))), (olt cl (Some (k, true))),
    (olt (Some (k, false)) hi), (olt (Some (k, false)) ch); reflexivity.
Qed.

Lemma narrow_none_within st c k :
  narrow st c = None -> within k st && within k c = false.
Proof.
  destruct st as [lo hi], c as [cl ch]. unfold Order.narrow, within. cbn [fst snd].
  destruct (olt lo (Some (k, true))) eqn:A, (olt (Some (k, false)) hi) eqn:B,
    (olt cl (Some (k, true))) eqn:C, (olt (Some (k, false)) ch) eqn:D;
    try reflexivity.
  rewrite (through_version _ _ _ C B), (through_version _ _ _ A D). discriminate.
Qed.

Lemma narrowAll_within l st k :
  match narrowAll l st with
  | Some st' => within k st' = within k st && forallb (within k) l
  | None => within k st && forallb (within k) l = false
  end.
Proof.
  revert st. induction l as [|c l IH]; intros st.
  - simpl. rewrite andb_true_r. reflexivity.
  - cbn [Order.narrowAll forallb]. destruct (narrow st c) as [st1|] eqn:E.
    + specialize (IH st1). rewrite (narrow_within _ _ _ k E) in IH.
      rewrite andb_assoc. exact IH.
    + rewrite andb_assoc, (narrow_none_within _ _ k E). reflexivity.
Qed.

(** A version without prerelease tag satisfies a plain comparator exactly
    when it lies within the interval of the comparator. *)
Lemma satisfies_within c o k r v :
  comparator c = Some (o, k) -> parseVersion r = Some v -> pre v = [] ->
  semver.satisfies (API := api) r c = Ret (within (keyOf v) (lowerCut o k, upperCut o k)).
Proof.
  intros Hc Hv Hp. destruct (comparator_plainAt _ _ _ Hc) as (rc & vc & H & <- & _).
  rewrite (plainAt_satisfies _ _ _ _ _ _ H Hv Hp). f_equal.
  destruct H as (_ & _ & Pc). unfold cmp, within. cbn [fst snd].
  rewrite (compareSemVer_plain _ _ Hp Pc).
  destruct o; cbn [lowerCut upperCut Order.olt]; rewrite ?ltb_cut;
    rewrite ?(Order.cmp_opp compareKey_total (keyOf v) (keyOf vc));
    destruct (compareKey (keyOf v) (keyOf vc)); reflexivity.
Qed.

Lemma satisfies_interval c r v :
  isPlain c = true -> parseVersion r = Some v -> pre v = [] ->
  Satisfies r c <-> within (keyOf v) (Plain.interval c) = true.
Proof.
  intros Hc Hv Hp. destruct (isPlain_comparator _ Hc) as (o & k & E).
  unfold Satisfies, Plain.interval. rewrite (satisfies_within _ _ _ _ _ E Hv Hp), E.
  split; [intros H; injection H as ->; reflexivity | intros ->; reflexivity].
Qed.

Lemma satisfiesBounds_within b st r v :
  BoundsAre b st -> parseVersion r = Some v -> pre v = [] ->
  SatisfiesBounds r b <-> within (keyOf v) st = true.
Proof.
  intros [L U] Hv Hp. destruct b as [lo hi], st as [cl ch].
  unfold SatisfiesBounds, within, Satisfies. cbn [lowerBound upperBound fst snd] in *.
  rewrite andb_true_iff.
  assert (A : (forall s, lo = Some s -> semver.satisfies (API := api) r s = Ret true)
              <-> olt cl (Some (keyOf v, true)) = true).
  { destruct lo as [s|]; simpl in L.
    - destruct L as (o & k & E & Ho & ->).
      pose proof (satisfies_within _ _ _ _ _ E Hv Hp) as S. unfold within in S.
      cbn [fst snd] in S.
      assert (N : upperCut o k = None) by (destruct Ho as [-> | ->]; reflexivity).
      rewrite N in S. cbn [Order.olt] in S. rewrite andb_true_r in S. split.
      + intros H. specialize (H s eq_refl). rewrite S in H. congruence.
      + intros H s' Es. injection Es as <-. rewrite S. f_equal. exact H.
    - subst cl. split; [reflexivity | discriminate]. }
  assert (B : (forall s, hi = Some s -> semver.satisfies (API := api) r s = Ret true)
              <-> olt (Some (keyOf v, false)) ch = true).
  { destruct hi as [s|]; simpl in U.
    - destruct U as (o & k & E & Ho & ->).
      pose proof (satisfies_within _ _ _ _ _ E Hv Hp) as S. unfold within in S.
      unfold fst, snd in S.
      assert (N : lowerCut o k = None) by (destruct Ho as [-> | ->]; reflexivity).
      rewrite N in S.
      change (Order.olt compareCut None (Some (keyOf v, true))) with true in S.
      cbn [andb] in S. split.
      + intros H. specialize (H s eq_refl). rewrite S in H. congruence.
      + intros H s' Es. injection Es as <-. rewrite S. f_equal. exact H.
    - subst ch. split; [reflexivity | discriminate]. }
  rewrite A, B. reflexivity.
Qed.

Lemma forallb_within l r v :
  Forall (fun c => isPlain c = true) l -> parseVersion r = Some v -> pre v = [] ->
  Forall (Satisfies r) l <-> forallb (within (keyOf v)) (map Plain.interval l) = true.
Proof.
  intros Hl Hv Hp. induction Hl as [|c l Hc _ IH].
  - split; [reflexivity | constructor].
  - cbn [map forallb]. rewrite andb_true_iff, <- IH,
      <- (satisfies_interval _ _ _ Hc Hv Hp). split.
    + intros H. inversion H. auto.
    + intros [H1 H2]. constructor; assumption.
Qed.

(** The fold of a conjunction from bounds that stand for an interval. *)
Lemma fold_within l b st r v :
  Forall (fun c => isPlain c = true) l -> BoundsAre b st ->
  parseVersion r = Some v -> pre v = [] ->
  match reduceM (updateBounds (sv := api)) l b with
  | Ret b' => SatisfiesBounds r b' <-> (SatisfiesBounds r b /\ Forall (Satisfies r) l)
  | Throw _ => ~ (SatisfiesBounds r b /\ Forall (Satisfies r) l)
  end.
Proof.
  intros Hl Hb Hv Hp. pose proof (reduce_plain _ _ _ Hl Hb) as S.
  pose proof (narrowAll_within (map Plain.interval l) st (keyOf v)) as W.
  destruct (reduceM updateBounds l b) as [b'|e].
  - destruct S as (st' & E & B'). rewrite E in W.
    rewrite (satisfiesBounds_within _ _ _ _ Hb Hv Hp), (forallb_within _ _ _ Hl Hv Hp).
    rewrite (satisfiesBounds_within _ _ _ _ B' Hv Hp), W, andb_true_iff. reflexivity.
  - rewrite S in W.
    rewrite (satisfiesBounds_within _ _ _ _ Hb Hv Hp), (forallb_within _ _ _ Hl Hv Hp).
    rewrite <- andb_true_iff, W. discriminate.
Qed.

End MeaningFacts.

(** On a conjunction of plain comparators the fold is sound: when it
    returns, a version without prerelease tag satisfies the bounds exactly
    when it satisfies every comparator; when it throws, no such version
    satisfies them all. *)
Theorem fold_meaning (conjunction : list string) (version : string) (v : NodeSemver.SemVer) :
  Forall (fun c => Plain.isPlain c = true) conjunction ->
  NodeSemver.parseVersion version = Some v -> NodeSemver.pre v = [] ->
  match reduceM (updateBounds (sv := NodeSemver.api)) conjunction noBounds with
  | Ret b => SatisfiesBounds version b <-> Forall (Satisfies version) conjunction
  | Throw _ => ~ Forall (Satisfies version) conjunction
  end.
Proof.
  intros Hl Hv Hp.
  assert (B0 : Plain.BoundsAre noBounds (None, None)) by (split; reflexivity).
  pose proof (MeaningFacts.fold_within _ _ _ _ _ Hl B0 Hv Hp) as F.
  assert (T : SatisfiesBounds version noBounds) by (split; discriminate).
  destruct (reduceM updateBounds conjunction noBounds); tauto.
Qed.

Lemma fold_meaning_witness :
  SatisfiesBounds "1.5.0" (mkBounds (Some ">=1.2.0") (Some "<2.0.0"))
  <-> Forall (Satisfies "1.5.0") [">=1.0.0"; "<2.0.0"; ">=1.2.0"; "<3.0.0"].
Proof.
  apply (fold_meaning [">=1.0.0"; "<2.0.0"; ">=1.2.0"; "<3.0.0"] "1.5.0"
           (NodeSemver.mkSemVer 1 5 0 [])).
  - repeat constructor.
  - reflexivity.
  - reflexivity.
Defined.

(** ** What the union of bounds means *)

Lemma in_choices {A : Type} (us : list (list A)) ch :
  In ch (choices us) <-> Forall2 (fun c u => In c u) ch us.
Proof.
  revert ch. induction us as [|u us IH]; intros ch; cbn [choices].
  - split.
    + intros [<- | []]. constructor.
    + intros H. inversion H. left. reflexivity.
  - rewrite in_flat_map. split.
    + intros (c & Hc & H). apply in_map_iff in H. destruct H as (ch' & <- & H).
      constructor; [exact Hc | apply IH, H].
    + intros H. inversion H as [|c u' ch' us' Hc H' E1 E2]. subst.
      exists c. split; [exact Hc|]. apply in_map, IH, H'.
Qed.

Lemma some_choice {A : Type} (P : A -> Prop) (us : list (list A)) :
  (exists ch, In ch (choices us) /\ Forall P ch) <-> Forall (Exists P) us.
Proof.
  induction us as [|u us IH].
  - split; [constructor | intros _; exists []; split; [left; reflexivity | constructor]].
  - split.
    + intros (ch & Hin & H). apply in_choices in Hin.
      inversion Hin as [|c u' ch' us' Hc H' E1 E2]. subst. inversion H. subst.
      constructor.
      * apply Exists_exists. eauto.
      * apply IH. exists ch'. split; [apply in_choices, H' | assumption].
    + intros H. inversion H as [|u' us' Hu Hus]. subst.
      apply Exists_exists in Hu. destruct Hu as (c & Hc & Pc).
      apply IH in Hus. destruct Hus as (ch & Hin & Hch).
      exists (c :: ch). split; [|constructor; assumption].
      apply in_choices. constructor; [exact Hc | apply in_choices, Hin].
Qed.

Lemma choice_plain us ch :
  Forall (Forall (Forall (fun c => Plain.isPlain c = true))) us ->
  In ch (choices us) -> Forall (fun c => Plain.isPlain c = true) (concat ch).
Proof.
  intros H Hin. apply in_choices in Hin. apply Forall_concat.
  induction Hin as [|c u ch us Hc _ IH]; constructor.
  - inversion H as [|u' us' Hu _]. subst. rewrite Forall_forall in Hu. apply Hu, Hc.
  - apply IH. inversion H. assumption.
Qed.

(** [intersect] is sound on plain comparators: when the reduction returns,
    a version without prerelease tag satisfies one of the resulting bound
    pairs exactly when it satisfies, in every argument, all comparators of
    one alternative; when the reduction throws, no such version does. *)
Theorem intersectUnions_meaning (rangeUnions : list (list (list string)))
        (version : string) (v : NodeSemver.SemVer) :
  Forall (Forall (Forall (fun c => Plain.isPlain c = true))) rangeUnions ->
  NodeSemver.parseVersion version = Some v -> NodeSemver.pre v = [] ->
  match intersectUnions (sv := NodeSemver.api) rangeUnions with
  | Ret resultUnion =>
      Exists (SatisfiesBounds version) resultUnion <->
      Forall (Exists (Forall (Satisfies version))) rangeUnions
  | Throw _ => ~ Forall (Exists (Forall (Satisfies version))) rangeUnions
  end.
Proof.
  intros P Hv Hp.
  assert (B0 : Plain.BoundsAre noBounds (None, None)) by (split; reflexivity).
  assert (T : SatisfiesBounds version noBounds) by (split; discriminate).
  assert (F : forall ch, In ch (choices rangeUnions) ->
                match reduceM (updateBounds (sv := NodeSemver.api)) (concat ch) noBounds with
                | Ret b => SatisfiesBounds version b <-> Forall (Forall (Satisfies version)) ch
                | Throw _ => ~ Forall (Forall (Satisfies version)) ch
                end).
  { intros ch Hin.
    pose proof (MeaningFacts.fold_within _ _ _ _ _ (choice_plain _ _ P Hin) B0 Hv Hp) as F.
    destruct (reduceM updateBounds (concat ch) noBounds);
      rewrite <- Forall_concat; tauto. }
  assert (G : Exists (SatisfiesBounds version)
                (foldedChoices (sv := NodeSemver.api) noBounds rangeUnions)
              <-> Forall (Exists (Forall (Satisfies version))) rangeUnions).
  { rewrite <- some_choice, Exists_exists. unfold foldedChoices, foldedFrom. split.
    - intros (b & Hb & Sb). apply in_flat_map in Hb. destruct Hb as (ch & Hin & Hb).
      exists ch. split; [exact Hin|]. specialize (F ch Hin).
      destruct (reduceM updateBounds (concat ch) noBounds) as [b'|]; [|destruct Hb].
      destruct Hb as [<- | []]. apply F, Sb.
    - intros (ch & Hin & Hch). specialize (F ch Hin).
      destruct (reduceM updateBounds (concat ch) noBounds) as [b'|] eqn:E; [|tauto].
      exists b'. split; [|apply F, Hch]. apply in_flat_map. exists ch.
      split; [exact Hin|]. rewrite E. left. reflexivity. }
  destruct (reduce_choices (sv := NodeSemver.api) rangeUnions [noBounds]) as [H1 H2].
  cbn [flat_map] in H1, H2. rewrite app_nil_r in H1, H2.
  fold (intersectUnions (sv := NodeSemver.api) rangeUnions) in H1, H2.
  destruct (intersectUnions rangeUnions) as [resultUnion|e] eqn:U.
  - rewrite (H1 _ eq_refl). exact G.
  - intros H. apply G in H.
    destruct (foldedChoices (sv := NodeSemver.api) noBounds rangeUnions) eqn:E.
    + inversion H.
    + discriminate H2. congruence.
Qed.

Lemma intersectUnions_meaning_witness :
  Exists (SatisfiesBounds "2.5.0")
    [mkBounds (Some ">=1.2.0") (Some "<2.0.0"); mkBounds (Some ">=2.0.0") (Some "<3.0.0")]
  <-> Forall (Exists (Forall (Satisfies "2.5.0")))
        [[[">=1.0.0"; "<2.0.0"]; [">=2.0.0"; "<3.0.0"]]; [[">=1.2.0"; "<3.0.0"]]].
Proof.
  apply (intersectUnions_meaning
           [[[">=1.0.0"; "<2.0.0"]; [">=2.0.0"; "<3.0.0"]]; [[">=1.2.0"; "<3.0.0"]]]
           "2.5.0" (NodeSemver.mkSemVer 2 5 0 [])).
  - repeat constructor.
  - reflexivity.
  - reflexivity.
Defined.

(** ** The arguments in another order *)

Lemma mapM_permutation {A B : Type} (f : A -> outcome B) l l' ys :
  Permutation l l' -> mapM f l = Ret ys ->
  exists ys', mapM f l' = Ret ys' /\ Permutation ys ys'.
Proof.
  intros P. revert ys. induction P as [|x l l' _ IH|x y l|l1 l2 l3 _ IH1 _ IH2]; intros ys.
  - intros H. exists ys. split; [exact H | reflexivity].
  - cbn [mapM]. destruct (f x) as [z|]; [|discriminate]. cbn [bind].
    destruct (mapM f l) as [zs|]; [|discriminate]. cbn [bind].
    intros H. injection H as <-. destruct (IH _ eq_refl) as (zs' & -> & Pz).
    exists (z :: zs'). split; [reflexivity | constructor; exact Pz].
  - cbn [mapM]. destruct (f y) as [a|]; [|discriminate]. cbn [bind].
    destruct (f x) as [b|]; [|discriminate]. cbn [bind].
    destruct (mapM f l) as [zs|]; [|discriminate]. cbn [bind].
    intros H. injection H as <-. exists (b :: a :: zs). split; [reflexivity | constructor].
  - intros H. destruct (IH1 _ H) as (ys2 & H2 & P2).
    destruct (IH2 _ H2) as (ys3 & H3 & P3). exists ys3. split; [exact H3|].
    etransitivity; eassumption.
Qed.

Lemma mapM_returns_iff {A B : Type} (f : A -> outcome B) l :
  (exists ys, mapM f l = Ret ys) <-> Forall (fun x => exists y, f x = Ret y) l.
Proof.
  split.
  - intros (ys & H). apply mapM_Forall2 in H.
    induction H as [|x y l' ys' Hx _ IH]; constructor; eauto.
  - intros H. apply mapM_returns. apply Forall_forall. exact H.
Qed.

Lemma Permutation_flat_map_pointwise {A B : Type} (f g : A -> list B) l :
  (forall x, In x l -> Permutation (f x) (g x)) ->
  Permutation (flat_map f l) (flat_map g l).
Proof.
  induction l as [|x l IH]; intros H; [constructor|]. cbn [flat_map].
  apply Permutation_app.
  - apply H. left. reflexivity.
  - apply IH. intros y Hy. apply H. right. exact Hy.
Qed.

Section Returns.
Context {sv : semver.API}.

(** When [intersect] returns, and what. *)
Lemma intersect_returns ranges rangeUnions :
  expandRanges ranges = Ret rangeUnions ->
  ((exists r, intersect ranges = Ret r) <->
   (foldedChoices noBounds rangeUnions <> []
    /\ Forall (fun bound => exists y, createShorthand (formatIntersection bound) = Ret y)
              (foldedChoices noBounds rangeUnions)))
  /\ (forall r, intersect ranges = Ret r ->
        r = join " || "
              (map (fun bound => match createShorthand (formatIntersection bound) with
                                 | Ret y => y
                                 | Throw _ => ""
                                 end) (foldedChoices noBounds rangeUnions))).
Proof.
  intros X. unfold intersect. rewrite X. cbn [bind].
  destruct (reduce_choices rangeUnions [noBounds]) as [H1 H2].
  cbn [flat_map] in H1, H2. rewrite app_nil_r in H1, H2.
  fold (intersectUnions rangeUnions) in H1, H2.
  destruct (intersectUnions rangeUnions) as [result|] eqn:U; cbn [bind].
  - rewrite <- (H1 _ eq_refl).
    assert (N : result <> []) by (apply (intersectUnions_nonempty _ _ _ U); discriminate).
    split; [split|].
    + intros (r & H). split; [exact N|]. apply mapM_returns_iff.
      destruct (mapM _ result) as [ys|]; [eauto | discriminate].
    + intros [_ F]. apply mapM_returns_iff in F. destruct F as (ys & ->). cbn [bind]. eauto.
    + intros r H. destruct (mapM _ result) as [ys|] eqn:M; [|discriminate].
      cbn [bind] in H. injection H as <-. rewrite (mapM_map _ "" _ _ M). reflexivity.
  - split; [split|].
    + intros (r & H). discriminate.
    + intros [N _]. specialize (H2 N). discriminate.
    + intros r H. discriminate.
Qed.

End Returns.

Lemma foldedFrom_permutation l1 l2 :
  Permutation l1 l2 -> Forall (fun c => Plain.isPlain c = true) l1 ->
  foldedFrom (sv := NodeSemver.api) noBounds l1 = foldedFrom (sv := NodeSemver.api) noBounds l2.
Proof.
  intros P H1. unfold foldedFrom.
  assert (H2 : Forall (fun c => Plain.isPlain c = true) l2)
    by (eapply Permutation_Forall; eassumption).
  assert (B0 : Plain.BoundsAre noBounds (None, None)) by (split; reflexivity).
  pose proof (PlainFacts.reduce_plain _ _ _ H1 B0) as S1.
  pose proof (PlainFacts.reduce_plain _ _ _ H2 B0) as S2.
  assert (E : Order.narrowAll Plain.compareCut (map Plain.interval l1) (None, None)
              = Order.narrowAll Plain.compareCut (map Plain.interval l2) (None, None)).
  { apply (OrderFacts.narrowAll_permutation _ PlainFacts.compareCut_total).
    apply Permutation_map, P. }
  destruct (reduceM updateBounds l1 noBounds) as [b1|e1],
           (reduceM updateBounds l2 noBounds) as [b2|e2].
  - destruct S1 as (st1 & E1 & B1), S2 as (st2 & E2 & B2).
    rewrite E, E2 in E1. injection E1 as ->.
    rewrite (PlainFacts.boundsAre_inj _ _ _ B1 B2). reflexivity.
  - destruct S1 as (st1 & E1 & _). congruence.
  - destruct S2 as (st2 & E2 & _). congruence.
  - reflexivity.
Qed.

Lemma flat_map_choices2 {A B : Type} (F : list A -> list B) x y l :
  flat_map F (choices (y :: x :: l))
  = flat_map (fun b => flat_map (fun a => flat_map (fun ch => F (b :: a :: ch)) (choices l)) x) y.
Proof.
  cbn [choices]. rewrite flat_map_flat_map. apply flat_map_ext_in. intros b _.
  rewrite flat_map_map, flat_map_flat_map. apply flat_map_ext_in. intros a _.
  rewrite flat_map_map. reflexivity.
Qed.

Lemma choices_from_permutation us us' :
  Permutation us us' ->
  Forall (Forall (Forall (fun c => Plain.isPlain c = true))) us ->
  forall pre, Forall (fun c => Plain.isPlain c = true) pre ->
  Permutation
    (flat_map (fun ch => foldedFrom (sv := NodeSemver.api) noBounds (pre ++ concat ch))
              (choices us))
    (flat_map (fun ch => foldedFrom (sv := NodeSemver.api) noBounds (pre ++ concat ch))
              (choices us')).
Proof.
  intros P. induction P as [|x l l' _ IH|x y l|l1 l2 l3 P12 IH1 _ IH2]; intros H pre Hpre.
  - reflexivity.
  - inversion H as [|x' l0 Hx Hl]. subst. cbn [choices].
    rewrite !flat_map_flat_map. apply Permutation_flat_map_pointwise. intros c Hc.
    rewrite !flat_map_map. cbn [concat].
    assert (Hpc : Forall (fun c => Plain.isPlain c = true) (pre ++ c))
      by (apply Forall_app; split; [exact Hpre | rewrite Forall_forall in Hx; apply Hx, Hc]).
    specialize (IH Hl _ Hpc).
    erewrite flat_map_ext_in; [erewrite (flat_map_ext_in _ _ (choices l')); [exact IH|]|];
      intros ch _; cbv beta; rewrite app_assoc; reflexivity.
  - inversion H as [|y' l0 Hy Hl0]. subst. inversion Hl0 as [|x' l1 Hx Hl]. subst.
    rewrite !flat_map_choices2.
    etransitivity; [apply (flat_map_swap
      (fun b a => flat_map (fun ch => foldedFrom (sv := NodeSemver.api) noBounds
                                        (pre ++ concat (b :: a :: ch)))
                           (choices l)) y x)|].
    apply Permutation_refl'. apply flat_map_ext_in. intros a Ha.
    apply flat_map_ext_in. intros b Hb.
    apply flat_map_ext_in. intros ch Hch. cbn [concat].
    rewrite Forall_forall in Hx, Hy.
    apply foldedFrom_permutation.
    + apply Permutation_app_head. rewrite !app_assoc. apply Permutation_app_tail.
      apply Permutation_app_comm.
    + apply Forall_app. split; [exact Hpre|]. apply Forall_app. split; [apply Hy, Hb|].
      apply Forall_app. split; [apply Hx, Ha|].
      apply (choice_plain l ch Hl Hch).
  - etransitivity; [apply IH1; assumption|]. apply IH2; [|assumption].
    eapply Permutation_Forall; eassumption.
Qed.

Lemma foldedChoices_permutation us us' :
  Permutation us us' ->
  Forall (Forall (Forall (fun c => Plain.isPlain c = true))) us ->
  Permutation (foldedChoices (sv := NodeSemver.api) noBounds us)
              (foldedChoices (sv := NodeSemver.api) noBounds us').
Proof.
  intros P H. apply (choices_from_permutation _ _ P H []). constructor.
Qed.

(** On ranges whose comparators are plain, the order of the arguments of
    [intersect] matters only for the order of the branches: with the
    arguments permuted it returns the same branches in some order, and it
    throws when it threw. *)
Theorem intersect_permutation (ranges ranges' : list string)
        (rangeUnions : list (list (list string))) :
  Permutation ranges ranges' ->
  expandRanges (sv := NodeSemver.api) ranges = Ret rangeUnions ->
  Forall (Forall (Forall (fun c => Plain.isPlain c = true))) rangeUnions ->
  (forall r, intersect (sv := NodeSemver.api) ranges = Ret r ->
     exists r' l l',
       intersect (sv := NodeSemver.api) ranges' = Ret r' /\
       r = join " || " l /\ r' = join " || " l' /\ Permutation l l')
  /\ (forall e, intersect (sv := NodeSemver.api) ranges = Throw e ->
        exists e', intersect (sv := NodeSemver.api) ranges' = Throw e').
Proof.
  intros P X Hp.
  destruct (mapM_permutation _ _ _ _ P X) as (us' & X' & Pu).
  fold (expandRanges (sv := NodeSemver.api) ranges') in X'.
  pose proof (foldedChoices_permutation _ _ Pu Hp) as PF.
  destruct (intersect_returns (sv := NodeSemver.api) _ _ X) as [R1 V1].
  destruct (intersect_returns (sv := NodeSemver.api) _ _ X') as [R2 V2].
  assert (G : (exists r, intersect (sv := NodeSemver.api) ranges = Ret r) <->
              (exists r, intersect (sv := NodeSemver.api) ranges' = Ret r)).
  { rewrite R1, R2. split; intros [N F]; split.
    - intros E. rewrite E in PF. apply Permutation_sym, Permutation_nil in PF. contradiction.
    - eapply Permutation_Forall; eassumption.
    - intros E. rewrite E in PF. apply Permutation_nil in PF. contradiction.
    - eapply Permutation_Forall; [apply Permutation_sym|]; eassumption. }
  split.
  - intros r H. destruct (proj1 G (ex_intro _ r H)) as (r' & H').
    exists r'. eexists. eexists. split; [exact H'|].
    split; [apply (V1 _ H)|]. split; [apply (V2 _ H')|]. apply Permutation_map, PF.
  - intros e H. destruct (intersect (sv := NodeSemver.api) ranges') as [r'|e'] eqn:E';
      [|eauto].
    destruct (proj2 G (ex_intro _ r' eq_refl)) as (r & Hr). congruence.
Qed.

Lemma intersect_permutation_witness :
  exists r' l l',
    intersect (sv := NodeSemver.api) ["<3"; "^1.0.0 || >=2.5"; ">=1.2.0"] = Ret r' /\
    "^1.2.0 || ^2.5.0" = join " || " l /\ r' = join " || " l' /\ Permutation l l'.
Proof.
  apply (proj1 (intersect_permutation
                  ["^1.0.0 || >=2.5"; ">=1.2.0"; "<3"]
                  ["<3"; "^1.0.0 || >=2.5"; ">=1.2.0"]
                  [[[">=1.0.0"; "<2.0.0"]; [">=2.5.0"]]; [[">=1.2.0"]]; [["<3.0.0"]]]
                  (Permutation_sym (Permutation_cons_append
                                      ["^1.0.0 || >=2.5"; ">=1.2.0"] "<3"))
                  eq_refl ltac:(repeat constructor))).
  reflexivity.
Defined.

(** ** What the shorthand keeps of the upper bound *)

Section Forgets.
Context {sv : semver.API}.

(** Of the upper bound of [>=MIN <MAX], [createShorthand] looks only at
    whether it is [MIN] itself and at the major and minor numbers [semver]
    reports: an upper bound equal to [MIN] gives the exact version [MIN],
    and two upper bounds other than [MIN] with the same major and minor
    give the same shorthand, whatever their patch number.  (It compares the
    majors for equality only, so [<2.0.0] and [<3.0.0] after [>=1.2.0]
    both give [^1.2.0].) *)
Theorem createShorthand_forgets_max (min max max' : string) :
  Pattern.Matches Pattern.version min ->
  Pattern.Matches Pattern.core max -> Pattern.Matches Pattern.core max' ->
  semver.major max = semver.major max' -> semver.minor max = semver.minor max' ->
  (min <> max -> min <> max' ->
   createShorthand (">=" ++ min ++ " <" ++ max)
   = createShorthand (">=" ++ min ++ " <" ++ max'))
  /\ (min = max -> createShorthand (">=" ++ min ++ " <" ++ max) = Ret min).
Proof.
  intros Hmin Hmax Hmax' HM Hm.
  assert (M1 : Pattern.MinMax (">=" ++ min ++ " <" ++ max) min max false)
    by (repeat split; assumption).
  assert (M2 : Pattern.MinMax (">=" ++ min ++ " <" ++ max') min max' false)
    by (repeat split; assumption).
  unfold createShorthand.
  rewrite (minMax_complete _ _ _ _ M1), (minMax_complete _ _ _ _ M2). split.
  - intros Hne Hne'.
    rewrite (minMax_includes _ _ _ _ M1), (minMax_includes _ _ _ _ M2).
    apply String.eqb_neq in Hne, Hne'. rewrite Hne, Hne', HM, Hm. reflexivity.
  - intros ->. rewrite String.eqb_refl. reflexivity.
Qed.

End Forgets.

Lemma createShorthand_forgets_max_witness :
  createShorthand (sv := NodeSemver.api) (">=" ++ "1.2.0" ++ " <" ++ "1.9.0")
  = createShorthand (sv := NodeSemver.api) (">=" ++ "1.2.0" ++ " <" ++ "1.9.5").
Proof.
  apply (createShorthand_forgets_max (sv := NodeSemver.api) "1.2.0" "1.9.0" "1.9.5").
  - apply wholeVersion_iff. reflexivity.
  - apply core_whole. reflexivity.
  - apply core_whole. reflexivity.
  - reflexivity.
  - reflexivity.
  - discriminate.
  - discriminate.
Defined.

(** An upper bound two majors away is printed as a caret range all the
    same. *)
Example shorthand_across_majors :
  intersect (sv := NodeSemver.api) [">=1.2.0"; "<3.0.0"] = Ret "^1.2.0"
  /\ intersect (sv := NodeSemver.api) [">=1.2.0"; "<2.0.0"] = Ret "^1.2.0"
  /\ intersect (sv := NodeSemver.api) [">=1.2.0"; "<1.9.0"] = Ret "~1.2.0".
Proof. repeat split. Qed.

(** With alternatives, the same range twice gives every pair of
    alternatives that is compatible, repetitions included. *)
Example intersect_twice_with_alternatives :
  intersect (sv := NodeSemver.api) [">=1.0.0||>=2.0.0"; ">=1.0.0||>=2.0.0"]
  = Ret ">=1.0.0 || >=2.0.0 || >=2.0.0 || >=2.0.0".
Proof. reflexivity. Qed.

(** The older [mergeBounds] rejects two prerelease tags with different
    first identifiers, which the current one compares. *)
Example legacy_mergeBounds_mismatch :
  Legacy.mergeBounds (sv := NodeSemver.api) ">=1.0.0-alpha.1" (Some ">=1.0.0-beta.1")
  = Throw (Error "Prerelease version >=1.0.0-alpha.1 is not compatible with >=1.0.0-beta.1")
  /\ mergeBounds (sv := NodeSemver.api) ">=1.0.0-alpha.1" (Some ">=1.0.0-beta.1")
     = Ret ">=1.0.0-beta.1".
Proof. split; reflexivity. Qed.

(** ** The older variants *)

Lemma union_setAdd a b : Legacy.union a b = fold_left setAdd b a.
Proof. reflexivity. Qed.

Lemma fold_setAdd_prefix l acc : exists rest, fold_left setAdd l acc = (acc ++ rest)%list.
Proof.
  revert acc. induction l as [|v l IH]; intros acc.
  - exists []. rewrite app_nil_r. reflexivity.
  - cbn [fold_left]. destruct (IH (setAdd acc v)) as (rest & ->). unfold setAdd.
    destruct (existsb (String.eqb v) acc).
    + exists rest. reflexivity.
    + exists (v :: rest). rewrite <- app_assoc. reflexivity.
Qed.

(** [union(a, b)] extends [a] at its end by the values of [b] it does not
    hold, each once; from the empty array it gives what [distinct] gives,
    and a second union with the same array adds nothing. *)
Theorem union_properties (a b : list string) :
  (exists rest, Legacy.union a b = (a ++ rest)%list)
  /\ (forall x, In x (Legacy.union a b) <-> In x a \/ In x b)
  /\ (NoDup a -> NoDup (Legacy.union a b))
  /\ Legacy.union [] b = distinct b
  /\ Legacy.union (Legacy.union a b) b = Legacy.union a b.
Proof.
  rewrite !union_setAdd. split; [apply fold_setAdd_prefix|].
  split; [intros x; apply fold_setAdd_in|].
  split; [apply fold_setAdd_nodup|]. split; [reflexivity|].
  assert (G : forall l acc, (forall x, In x l -> In x acc) -> fold_left setAdd l acc = acc).
  { induction l as [|v l IH]; intros acc H; [reflexivity|]. cbn [fold_left].
    assert (E : setAdd acc v = acc).
    { unfold setAdd. replace (existsb (String.eqb v) acc) with true; [reflexivity|].
      symmetry. apply existsb_exists. exists v.
      split; [apply H; left; reflexivity | apply String.eqb_refl]. }
    rewrite E. apply IH. intros x Hx. apply H. right. exact Hx. }
  apply G. intros x Hx. apply fold_setAdd_in. right. exact Hx.
Qed.

Lemma union_properties_witness : NoDup (Legacy.union [">=1.0.0"] ["<2.0.0"; ">=1.0.0"]).
Proof.
  apply (proj1 (proj2 (proj2 (union_properties [">=1.0.0"] ["<2.0.0"; ">=1.0.0"])))).
  constructor; [intros [] | constructor].
Defined.

Section Older.
Context {sv : semver.API}.

Lemma legacy_expand_from ranges valids acc :
  Forall2 (fun range validRange => semver.validRange range = Some validRange) ranges valids ->
  reduceM (fun result range =>
             match semver.validRange range with
             | None => Throw TypeError
             | Some validRange => Ret (Legacy.union result (splitSpace validRange))
             end) ranges acc
  = Ret (fold_left setAdd (flat_map splitSpace valids) acc).
Proof.
  intros H. revert acc. induction H as [|r v rs vs Hv _ IH]; intros acc; [reflexivity|].
  cbn [reduceM flat_map]. rewrite Hv. cbn [bind]. rewrite IH, union_setAdd, fold_left_app.
  reflexivity.
Qed.

(** The older [expandRanges] returns one array for all its arguments: the
    white-space separated parts of their normal forms, each once, in the
    order of their first occurrence.  It throws a [TypeError] when
    [semver.validRange] rejects an argument. *)
Theorem legacy_expandRanges (ranges valids : list string) :
  (Forall2 (fun range validRange => semver.validRange range = Some validRange)
           ranges valids ->
   Legacy.expandRanges ranges = Ret (distinct (flat_map splitSpace valids)))
  /\ ((exists range, In range ranges /\ semver.validRange range = None) ->
      Legacy.expandRanges ranges = Throw TypeError).
Proof.
  split.
  - intros H. apply (legacy_expand_from _ _ [] H).
  - intros (r & Hr & V). unfold Legacy.expandRanges. generalize (@nil string) as acc.
    induction ranges as [|x ranges IH]; intros acc; [destruct Hr|]. cbn [reduceM].
    destruct Hr as [-> | Hr].
    + rewrite V. reflexivity.
    + destruct (semver.validRange x); [|reflexivity]. cbn [bind]. apply IH, Hr.
Qed.

Lemma prereleaseRegex_digits tag : all isDigit tag = true -> Legacy.prereleaseRegex tag = None.
Proof.
  induction tag as [|c tag IH]; [reflexivity|]. cbn [all Legacy.prereleaseRegex].
  intros H. apply andb_true_iff in H. destruct H as [Hc Ht]. rewrite Hc. apply IH, Ht.
Qed.

(** The older [parseRange] never returns on a version whose prerelease tag
    is a single identifier made of digits only, such as [1.0.0-4]:
    [regex.prerelease] does not match and [.slice] is called on [null].
    The current [parseRange] returns on it. *)
Theorem legacy_parseRange_numeric_tag (range v tag : string) :
  Regex.version range = Some v ->
  semver.prerelease v = Some [tag] ->
  (all isDigit tag = true ->
   (forall p, Legacy.parseRange range <> Ret p)
   /\ (forall M m p,
         semver.major v = Ret M -> semver.minor v = Ret m -> semver.patch v = Ret p ->
         Legacy.parseRange range = Throw TypeError))
  /\ (forall p, Legacy.parseRange range = Ret p -> all isDigit tag = false)
  /\ exists p, parseRange range = Ret p /\ prerelease p = Some [tag] /\ version p = v.
Proof.
  intros V Pre. split; [|split].
  - intros D. pose proof (prereleaseRegex_digits _ D) as R. split.
    + intros p. unfold Legacy.parseRange. rewrite V, Pre, R.
      destruct (semver.major v); cbn [bind]; [|discriminate].
      destruct (semver.minor v); cbn [bind]; [|discriminate].
      destruct (semver.patch v); cbn [bind]; discriminate.
    + intros M m p HM Hm Hp. unfold Legacy.parseRange.
      rewrite V, Pre, R, HM, Hm, Hp. reflexivity.
  - intros p. unfold Legacy.parseRange. rewrite V, Pre.
    destruct (semver.major v); cbn [bind]; [|discriminate].
    destruct (semver.minor v); cbn [bind]; [|discriminate].
    destruct (semver.patch v); cbn [bind]; [|discriminate].
    destruct (Legacy.prereleaseRegex tag) as [[letters digits]|] eqn:R; [|discriminate].
    intros _. destruct (all isDigit tag) eqn:D; [|reflexivity].
    rewrite (prereleaseRegex_digits _ D) in R. discriminate.
  - unfold parseRange. rewrite V. eexists. split; [reflexivity|]. cbn. auto.
Qed.

Lemma legacy_parse_current range lp :
  Legacy.parseRange range = Ret lp ->
  exists p, parseRange range = Ret p
            /\ condition p = Legacy.condition lp /\ version p = Legacy.version lp.
Proof.
  unfold Legacy.parseRange, parseRange.
  destruct (Regex.version range) as [v|]; [|discriminate].
  destruct (semver.major v); cbn [bind]; [|discriminate].
  destruct (semver.minor v); cbn [bind]; [|discriminate].
  destruct (semver.patch v); cbn [bind]; [|discriminate].
  destruct (match semver.prerelease v with
            | Some [tag] => _
            | Some _ => _
            | None => _
            end); cbn [bind]; [|discriminate].
  intros H. injection H as <-. eexists. split; [reflexivity|]. cbn. auto.
Qed.

(** The older [mergeBounds] checks the prerelease tags first and then does
    what the current one does: whenever it returns, the current
    [mergeBounds] returns the same comparator.  Its check returns whenever
    one of the two comparators has no prerelease tag. *)
Theorem legacy_mergeBounds_agrees (range : string) (bound : option string) :
  (forall r, Legacy.mergeBounds range bound = Ret r -> mergeBounds range bound = Ret r)
  /\ (forall b p pb,
        Legacy.parseRange range = Ret p -> Legacy.parseRange b = Ret pb ->
        Legacy.prerelease p = None \/ Legacy.prerelease pb = None ->
        Legacy.checkPrereleaseVersions range b = Ret tt).
Proof.
  split.
  - intros r. unfold Legacy.mergeBounds, mergeBounds.
    destruct bound as [b|]; [|auto]. destruct (b =? ""); [auto|].
    destruct (Legacy.checkPrereleaseVersions range b); cbn [bind]; [|discriminate].
    destruct (Legacy.parseRange range) as [lp|] eqn:P; cbn [bind]; [|discriminate].
    destruct (Legacy.parseRange b) as [lpb|] eqn:Pb; cbn [bind]; [|discriminate].
    destruct (legacy_parse_current _ _ P) as (p & -> & Ec & Ev).
    destruct (legacy_parse_current _ _ Pb) as (pb & -> & _ & Evb).
    cbn [bind]. rewrite Ec, Ev, Evb. auto.
  - intros b p pb P Pb H. unfold Legacy.checkPrereleaseVersions. rewrite P, Pb. cbn [bind].
    destruct H as [-> | ->]; [reflexivity|]. destruct (Legacy.prerelease p); reflexivity.
Qed.

Lemma original_parse range p :
  parseRange range = Ret p ->
  Original.parseRange range = Ret (Original.mkParsed (condition p) (version p)).
Proof.
  unfold parseRange, Original.parseRange. destruct (Regex.version range); [|discriminate].
  intros H. injection H as <-. reflexivity.
Qed.

(** The current [ensureCompatible] is the first one made stricter: for a
    clause without prerelease tag it accepts no bounds that the first
    variant rejects, and the two agree where the ranges of clause and
    bounds intersect. *)
Theorem ensureCompatible_stricter (range : string) (bounds : list (option string))
        (p : Parsed) :
  parseRange range = Ret p -> prerelease p = None ->
  (ensureCompatible range bounds = Ret tt ->
   Original.ensureCompatible range bounds = Ret tt)
  /\ ((forall b, In (Some b) bounds -> b <> "" -> semver.intersects range b = Ret true) ->
      ensureCompatible range bounds = Original.ensureCompatible range bounds).
Proof.
  intros P N. unfold ensureCompatible, Original.ensureCompatible.
  rewrite P, (original_parse _ _ P). cbn [bind Original.version]. split.
  - induction bounds as [|bound bounds IH]; [reflexivity|]. cbn [forEachM].
    destruct (checkBound range p bound) as [[]|] eqn:C; cbn [bind]; [|discriminate].
    intros H. rewrite (IH H).
    destruct bound as [b|]; [|reflexivity]. unfold checkBound in C.
    destruct (b =? ""); [reflexivity|]. unfold andM in C.
    destruct (semver.satisfies (version p) b) as [[]|]; cbn [bind] in *;
      [reflexivity | rewrite N in C; discriminate | discriminate].
  - intros I. induction bounds as [|bound bounds IH]; [reflexivity|]. cbn [forEachM].
    rewrite IH by (intros b Hb; apply I; right; exact Hb).
    destruct bound as [b|]; [|reflexivity]. unfold checkBound.
    destruct (String.eqb_spec b "") as [|Hb]; [reflexivity|]. unfold andM.
    destruct (semver.satisfies (version p) b) as [[]|]; cbn [bind]; rewrite ?N;
      [|reflexivity | reflexivity].
    rewrite (I b (or_introl eq_refl) Hb). reflexivity.
Qed.

End Older.

Lemma legacy_expandRanges_witness :
  Legacy.expandRanges (sv := NodeSemver.api) [">=1.0.0 <2.0.0"; ">=1.2.0 <2.0.0"]
  = Ret [">=1.0.0"; "<2.0.0"; ">=1.2.0"].
Proof.
  apply (proj1 (legacy_expandRanges (sv := NodeSemver.api)
                  [">=1.0.0 <2.0.0"; ">=1.2.0 <2.0.0"] [">=1.0.0 <2.0.0"; ">=1.2.0 <2.0.0"])).
  repeat constructor.
Defined.

Lemma legacy_parseRange_numeric_tag_witness :
  Legacy.parseRange (sv := NodeSemver.api) ">=1.0.0-4" = Throw TypeError.
Proof.
  apply (proj2 (proj1 (legacy_parseRange_numeric_tag (sv := NodeSemver.api)
                         ">=1.0.0-4" "1.0.0-4" "4" eq_refl eq_refl) eq_refl)
           1%N 0%N 0%N); reflexivity.
Defined.

Lemma legacy_mergeBounds_agrees_witness :
  mergeBounds (sv := NodeSemver.api) ">=1.2.0" (Some ">=1.0.0") = Ret ">=1.2.0".
Proof.
  apply (proj1 (legacy_mergeBounds_agrees (sv := NodeSemver.api) ">=1.2.0" (Some ">=1.0.0"))).
  reflexivity.
Defined.

Lemma ensureCompatible_stricter_witness :
  Original.ensureCompatible (sv := NodeSemver.api) ">=1.2.0" [Some "<2.0.0"] = Ret tt.
Proof.
  apply (proj1 (ensureCompatible_stricter (sv := NodeSemver.api) ">=1.2.0" [Some "<2.0.0"]
                  (mkParsed ">=" None "1.2.0") eq_refl eq_refl)).
  reflexivity.
Defined.

(** The first variant accepted a clause whose version satisfies the bound
    although the two ranges have nothing in common. *)
Example original_accepts_disjoint :
  Original.ensureCompatible (sv := NodeSemver.api) "<1.0.0" [Some ">=1.0.0"] = Ret tt
  /\ ensureCompatible (sv := NodeSemver.api) "<1.0.0" [Some ">=1.0.0"]
     = Throw (Error "Range <1.0.0 is not compatible with >=1.0.0").
Proof. split; reflexivity. Qed.

(* ===================================================================== *)
(** ** Versions with prerelease tags *)

Module CanonFacts.

#[local] Abbreviation parseComparatorString := parseRange.
#[local] Abbreviation prereleaseOf := prerelease.

Import NodeSemver Canon.

(** *** The order of versions *)












(** *** Versions and their strings *)







(** *** Canonical comparators *)

Lemma comparator_canonAt c o v :
  comparator c = Some (o, v) -> exists r, CanonAt c o r v /\ parseOperator c = (o, r).
Proof.
  unfold comparator. destruct (parseOperator c) as [o' r] eqn:E.
  destruct ((formatOperator o' ++ r =? c) && Regex.wholeVersion r) eqn:Ec; [|discriminate].
  apply andb_true_iff in Ec. destruct Ec as [Ec W]. apply String.eqb_eq in Ec.
  destruct (parseVersion r) as [v'|] eqn:Ev; [|discriminate].
  intros H. injection H as <- <-. exists r. unfold CanonAt. auto.
Qed.


Lemma canonAt_matches c o r v : CanonAt c o r v -> Pattern.Matches Pattern.version r.
Proof. intros (_ & W & _). apply wholeVersion_iff. exact W. Qed.

Lemma canonAt_head c o r v :
  CanonAt c o r v -> exists x r', r = String x r' /\ isDigit x = true.
Proof. intros H. apply version_head. eapply canonAt_matches; eauto. Qed.

Lemma canonAt_comparator c o r v : CanonAt c o r v -> comparator c = Some (o, v).
Proof.
  intros H. destruct (canonAt_head _ _ _ _ H) as (x & r' & Er & Hx).
  destruct H as (-> & W & Hv). unfold comparator.
  rewrite (PlainFacts.parseOperator_format o _ _ _ Er Hx), String.eqb_refl, W, Hv.
  reflexivity.
Qed.

Lemma canonAt_isCanonical c o r v : CanonAt c o r v -> isCanonical c = true.
Proof. intros H. unfold isCanonical. rewrite (canonAt_comparator _ _ _ _ H). reflexivity. Qed.

Lemma canonAt_unique c o1 r1 v1 o2 r2 v2 :
  CanonAt c o1 r1 v1 -> CanonAt c o2 r2 v2 -> o1 = o2 /\ r1 = r2 /\ v1 = v2.
Proof.
  intros H1 H2.
  destruct (canonAt_head _ _ _ _ H1) as (x1 & r1' & Er1 & Hx1).
  destruct (canonAt_head _ _ _ _ H2) as (x2 & r2' & Er2 & Hx2).
  destruct H1 as (E1 & _ & V1), H2 as (E2 & _ & V2).
  pose proof (PlainFacts.parseOperator_format o1 _ _ _ Er1 Hx1) as P1.
  pose proof (PlainFacts.parseOperator_format o2 _ _ _ Er2 Hx2) as P2.
  rewrite <- E1 in P1. rewrite <- E2 in P2. rewrite P1 in P2. injection P2 as -> ->.
  split; [reflexivity|]. split; [reflexivity | congruence].
Qed.

















(** *** The merge and the checks *)






(** *** After an exact version *)




Lemma isExact_canonAt c : isExact c = true -> exists r v, CanonAt c OpNone r v.
Proof.
  unfold isExact. destruct (comparator c) as [[o v]|] eqn:E; [|discriminate].
  destruct (comparator_canonAt _ _ _ E) as (r & H & _).
  destruct o; try discriminate. eauto.
Qed.

Lemma isExact_isCanonical c : isExact c = true -> isCanonical c = true.
Proof.
  intros H. destruct (isExact_canonAt _ H) as (r & v & C).
  eapply canonAt_isCanonical; eauto.
Qed.










(** *** Without exact versions *)















(** *** The order of the comparators *)


(** A plain comparator is canonical. *)
Lemma plain_canonical c : Plain.isPlain c = true -> isCanonical c = true.
Proof.
  intros H. destruct (PlainFacts.isPlain_comparator _ H) as (o & k & E).
  destruct (PlainFacts.comparator_plainAt _ _ _ E) as (r & v & (-> & V & P) & _ & _).
  apply (canonAt_isCanonical _ o r v). split; [reflexivity|]. split; [|exact V].
  apply wholeVersion_iff, matches_version. exists r, "". rewrite append_nil_r.
  repeat split.
  - eapply PlainFacts.parseVersion_plain_core; eauto.
  - apply matches_tag. auto.
Qed.

End CanonFacts.

(** ** Two arguments in the other order *)


